(** * ODRMitra WhatsApp bridge: session manager, credential codec and
      debounced key store

    A shallow embedding of the Baileys service of the repository
    ([dbAuthState.js], [sessions.js] and [index.js]) together with the properties its
    design document states about it.

    - [Base64]        Node's [Buffer] base64 conversions, as far as the codec
                      uses them.
    - [Codec]         [BufferJSON], [serializeData], [deserializeData].
    - [Backend]       the credential store of the backend, which the
                      service reaches over HTTP.
    - [DBAuthState]   the closure state of [useDBAuthState]: key cache,
                      pending updates and the 500 ms flush timer.
    - [Flights]       the timer callback with its requests under way.
    - [Sessions]      the session registry and its operations.
    - [Wire]          the JSON that leaves the codec.
    - [AuthKeys]      [keys.get] and the agreement of cache and pending
                      updates.
    - [Trace]         sequences of operations on the registry and what they
                      keep.
    - [Restore]       [restoreSessions] and [getAllSessions].
    - [Relay]         the [messages.upsert] handler.
    - [Api]           the HTTP routes of [index.js].
    - [Examples]      sample inputs.

    The definitions come first, the properties after them. *)

From Stdlib Require Import ZArith NArith Lia.
From Stdlib Require Import Strings.Byte Strings.Ascii Strings.String.
From stdpp Require Import base option list strings pretty gmap fin_maps.

Local Open Scope string_scope.

(** ** Base64, as [Buffer.toString('base64')] and [Buffer.from(s, 'base64')]

    The two conversions are Node built-ins.  A byte sequence is a
    [list byte]; a string is modelled by its UTF-8 bytes. *)

Module Base64.

Local Open Scope N_scope.

Definition alphabet : string :=
  "ABCDEFGHIJKLMNOPQRSTUVWXYZabcdefghijklmnopqrstuvwxyz0123456789+/".

(** The character of a sextet. *)
Definition char_of (s : N) : ascii :=
  default "A"%char (String.get (N.to_nat s) alphabet).

(** The sextet of a character.  The decoder of Node accepts the standard
    and the URL-safe alphabet. *)
Definition index_of (c : ascii) : option N :=
  let n := N_of_ascii c in
  if (65 <=? n) && (n <=? 90) then Some (n - 65)
  else if (97 <=? n) && (n <=? 122) then Some (n - 71)
  else if (48 <=? n) && (n <=? 57) then Some (n + 4)
  else if (n =? 43) || (n =? 45) then Some 62
  else if (n =? 47) || (n =? 95) then Some 63
  else None.

Definition byte_of_N (n : N) : byte :=
  default x00 (Byte.of_N (n mod 256)).

Definition sextet0 (a : N) : N := a / 4.
Definition sextet1 (a b : N) : N := (a mod 4) * 16 + b / 16.
Definition sextet2 (b c : N) : N := (b mod 16) * 4 + c / 64.
Definition sextet3 (c : N) : N := c mod 64.

Definition octet0 (s0 s1 : N) : N := s0 * 4 + s1 / 16.
Definition octet1 (s1 s2 : N) : N := (s1 mod 16) * 16 + s2 / 4.
Definition octet2 (s2 s3 : N) : N := (s2 mod 4) * 64 + s3.

(** Groups of three bytes become four characters; a last group of one or
    two bytes is padded with [=]. *)
Fixpoint encode (bs : list byte) : string :=
  match bs with
  | [] => ""
  | [a] =>
      let a := Byte.to_N a in
      String (char_of (sextet0 a)) (String (char_of (sextet1 a 0)) "==")
  | [a; b] =>
      let a := Byte.to_N a in
      let b := Byte.to_N b in
      String (char_of (sextet0 a)) (String (char_of (sextet1 a b))
        (String (char_of (sextet2 b 0)) "="))
  | a :: b :: c :: rest =>
      let a := Byte.to_N a in
      let b := Byte.to_N b in
      let c := Byte.to_N c in
      String (char_of (sextet0 a)) (String (char_of (sextet1 a b))
        (String (char_of (sextet2 b c)) (String (char_of (sextet3 c))
          (encode rest))))
  end.

(** The decoder is lenient: it skips characters outside the alphabet and
    stops at the first padding character.  (The texts decoded here are the
    ASCII texts of the encoder; for a character outside ASCII Node looks at
    the low byte of each of its UTF-16 units, which is left out.) *)
Fixpoint sextets (s : string) : list N :=
  match s with
  | EmptyString => []
  | String c r =>
      if Ascii.eqb c "="%char then []
      else match index_of c with
           | Some n => n :: sextets r
           | None => sextets r
           end
  end.

Fixpoint octets (l : list N) : list byte :=
  match l with
  | s0 :: s1 :: s2 :: s3 :: r =>
      byte_of_N (octet0 s0 s1) :: byte_of_N (octet1 s1 s2)
        :: byte_of_N (octet2 s2 s3) :: octets r
  | [s0; s1; s2] => [byte_of_N (octet0 s0 s1); byte_of_N (octet1 s1 s2)]
  | [s0; s1] => [byte_of_N (octet0 s0 s1)]
  | _ => []
  end.

Definition decode (s : string) : list byte := octets (sextets s).

End Base64.

(** ** The credential codec ([BufferJSON], [serializeData],
       [deserializeData])

    JavaScript values as far as credentials and keys use them: JSON data
    whose leaves may also be [Buffer]s and plain [Uint8Array]s.  A result
    [None] stands for a raised exception (or for a coercion of JavaScript
    that this fragment leaves out, see [Buffer_from]). *)

Module Codec.

#[local] Unset Elimination Schemes.
Inductive value : Type :=
  | VNull
  | VBool (b : bool)
  | VNum (n : Z)
  | VStr (s : string)
  | VBuffer (bs : list byte)
  | VUint8Array (bs : list byte)
  | VArr (items : list value)
  | VObj (props : list (string * value)).
#[local] Set Elimination Schemes.

(** [props[k]] of an object literal; [None] is [undefined]. *)
Fixpoint prop (k : string) (props : list (string * value)) : option value :=
  match props with
  | [] => None
  | (k', v) :: rest => if String.eqb k k' then Some v else prop k rest
  end.

(** [v?.k].  Buffers, typed arrays, arrays and primitives have neither a
    [type] nor a [data] property. *)
Definition get (v : value) (k : string) : option value :=
  match v with
  | VObj props => prop k props
  | _ => None
  end.

Definition truthy (o : option value) : bool :=
  match o with
  | None | Some VNull => false
  | Some (VBool b) => b
  | Some (VNum n) => negb (n =? 0)%Z
  | Some (VStr s) => negb (String.eqb s "")
  | Some _ => true
  end.

(** [o === s] for a string literal [s]. *)
Definition is_str (o : option value) (s : string) : bool :=
  match o with
  | Some (VStr s') => String.eqb s' s
  | _ => false
  end.

Definition isBuffer (v : value) : bool :=
  match v with VBuffer _ => true | _ => false end.

(** [v instanceof Uint8Array]; [Buffer] is a subclass of [Uint8Array]. *)
Definition instanceof_Uint8Array (v : value) : bool :=
  match v with VBuffer _ | VUint8Array _ => true | _ => false end.

(** [typeof v === 'object' && v !== null] *)
Definition is_object (v : value) : bool :=
  match v with
  | VBuffer _ | VUint8Array _ | VArr _ | VObj _ => true
  | _ => false
  end.

Definition num_of_byte (b : byte) : value := VNum (Z.of_N (Byte.to_N b)).

Definition byte_of_num (n : Z) : byte :=
  Base64.byte_of_N (Z.to_N (n mod 256)).

Definition tagged (payload : value) : value :=
  VObj [("type", VStr "Buffer"); ("data", payload)].

(** [Buffer.prototype.toJSON], which [JSON.stringify] calls before the
    replacer sees the value. *)
Definition toJSON (v : value) : value :=
  match v with
  | VBuffer bs => tagged (VArr (map num_of_byte bs))
  | _ => v
  end.

Definition bytes_of_array (items : list value) : option (list byte) :=
  mapM (fun x => match x with
                 | VNum n => Some (byte_of_num n)
                 | _ => None
                 end) items.

Definition utf8 (s : string) : list byte :=
  map byte_of_ascii (list_ascii_of_string s).

Inductive encoding := Utf8 | Base64Enc.

(** [Buffer.from(v, enc)].  A string is decoded with [enc]; an array of
    numbers is taken entry by entry modulo 256; a buffer or typed array is
    copied; an object [{type: 'Buffer', data: [...]}] is read back from its
    array.  Numbers, booleans, [null] and other objects raise a
    [TypeError].  Left out of the model (and [None] as well): arrays with
    entries that are not numbers, and array-like objects with a [length]
    property. *)
Definition Buffer_from (v : value) (enc : encoding) : option (list byte) :=
  match v with
  | VStr s =>
      Some (match enc with Utf8 => utf8 s | Base64Enc => Base64.decode s end)
  | VArr items => bytes_of_array items
  | VBuffer bs | VUint8Array bs => Some bs
  | VObj props =>
      match prop "length" props, prop "data" props with
      | None, Some (VArr items) =>
          if is_str (prop "type" props) "Buffer" then bytes_of_array items
          else None
      | _, _ => None
      end
  | _ => None
  end.

Module BufferJSON.

(** The test of the replacer's [if]. *)
Definition replacer_applies (value : value) : bool :=
  isBuffer value || instanceof_Uint8Array value
  || is_str (get value "type") "Buffer".

Definition replacer (value : value) : option Codec.value :=
  if replacer_applies value then
    bs ← Buffer_from
           (if truthy (get value "data")
            then default value (get value "data") else value) Utf8;
    Some (tagged (VStr (Base64.encode bs)))
  else Some value.

Definition reviver (value : value) : option Codec.value :=
  if is_object value && is_str (get value "type") "Buffer"
     && truthy (get value "data")
  then VBuffer <$> Buffer_from (default VNull (get value "data")) Base64Enc
  else Some value.

End BufferJSON.

(** [JSON.parse(JSON.stringify(data, BufferJSON.replacer))].  Every value
    goes through [toJSON] and the replacer; what the replacer returns
    unchanged is serialized member by member, and parsing the text gives
    the same tree back.  What the replacer replaces is an object of two
    strings, which the replacer leaves alone. *)
Fixpoint serializeData (data : value) : option value :=
  if BufferJSON.replacer_applies (toJSON data)
  then BufferJSON.replacer (toJSON data)
  else match data with
       | VArr items => VArr <$> mapM serializeData items
       | VObj props =>
           VObj <$> mapM (fun kv => pair kv.1 <$> serializeData kv.2) props
       | _ => Some data
       end.

(** [JSON.stringify] of a plain typed array: an object of its indices. *)
Definition index_object (bs : list byte) : value :=
  VObj (imap (fun i b => (pretty i, num_of_byte b)) bs).

(** [JSON.parse(JSON.stringify(data), BufferJSON.reviver)].  The reviver
    runs bottom-up: on the members first, then on the value holding them. *)
Fixpoint deserializeData (data : value) : option value :=
  match data with
  | VBuffer _ => BufferJSON.reviver (toJSON data)
  | VUint8Array bs => BufferJSON.reviver (index_object bs)
  | VArr items =>
      items' ← mapM deserializeData items; BufferJSON.reviver (VArr items')
  | VObj props =>
      props' ← mapM (fun kv => pair kv.1 <$> deserializeData kv.2) props;
      BufferJSON.reviver (VObj props')
  | _ => BufferJSON.reviver data
  end.

(** [decode(encode(x))] *)
Definition roundtrip (x : value) : option value :=
  serializeData x ≫= deserializeData.

(** The values on which the codec is expected to be faithful: no empty
    buffer, no plain typed array (it would come back as a [Buffer]), and no
    object literal that already carries the tag [type: 'Buffer']. *)
Fixpoint faithful (v : value) : bool :=
  match v with
  | VBuffer bs => negb (bool_decide (bs = []))
  | VUint8Array _ => false
  | VArr items => forallb faithful items
  | VObj props =>
      negb (is_str (prop "type" props) "Buffer")
      && forallb (fun kv => faithful kv.2) props
  | _ => true
  end.

End Codec.

(** ** The persistence service *)

Module Backend.
Import Codec.

(** Modelled from the spec: the backend's credential store behind
    [/auth/{id}], which is not among the sources.  A row holds the
    credential blob of a session and its key material by composite key;
    [GET] loads [{creds, keys, has_credentials}], [PUT .../creds] persists
    the blob, [PATCH .../keys] applies a batch [{set_keys, delete_keys}] as
    upserts, and [DELETE] purges all durable state of the session. *)
Record row := {
  creds : option value;
  keys : gmap string value;
}.

(** Modelled from the spec: the answer to [GET /auth/{id}]. *)
Record response := {
  r_creds : option value;
  r_keys : option (gmap string value);
  has_credentials : bool;
}.

(** Modelled from the spec: the body of [PATCH /auth/{id}/keys]. *)
Record patch := {
  set_keys : gmap string value;
  delete_keys : list string;
}.

(** Modelled from the spec: [load(id)], the handler of [GET /auth/{id}],
    which is not among the sources.  [has_credentials] tells whether a
    credential blob is stored for the session. *)
Definition load (store : gmap string row) (id : string) : response :=
  match store !! id with
  | Some r =>
      {| r_creds := creds r; r_keys := Some (keys r);
         has_credentials := bool_decide (is_Some (creds r)) |}
  | None => {| r_creds := None; r_keys := None; has_credentials := false |}
  end.

(** Modelled from the spec: [saveCredentials(id, credentials)], the
    handler of [PUT /auth/{id}/creds]. *)
Definition save_creds (store : gmap string row) (id : string) (c : value)
  : gmap string row :=
  <[id := {| creds := Some c;
             keys := from_option keys ∅ (store !! id) |}]> store.

(** Modelled from the spec: the upserts and deletions of one batch, by
    composite key. *)
Definition apply_patch (p : patch) (ks : gmap string value)
  : gmap string value :=
  foldr delete (set_keys p ∪ ks) (delete_keys p).

(** Modelled from the spec: [syncKeys(id, setMap, deleteList)], the
    handler of [PATCH /auth/{id}/keys]. *)
Definition sync_keys (store : gmap string row) (id : string) (p : patch)
  : gmap string row :=
  <[id := {| creds := store !! id ≫= creds;
             keys := apply_patch p (from_option keys ∅ (store !! id)) |}]>
    store.

(** Modelled from the spec: [purge(id)], the handler of
    [DELETE /auth/{id}]: all durable state of the session goes. *)
Definition purge (store : gmap string row) (id : string) : gmap string row :=
  delete id store.

End Backend.

(** ** The database-backed auth state ([useDBAuthState])

    The variables the closures of [useDBAuthState] share, the functions
    that work on them, and the timer of [scheduleKeySync].  Time is in
    milliseconds. *)

Module DBAuthState.
Import Codec.

(** The argument of [keys.set]: by type, the values by id.  A value [None]
    is [undefined]. *)
Abbreviation batch := (list (string * list (string * option value))).

Record state := {
  keysCache : gmap string value;
  credsCache : option value;
  (** [VNull] for a key whose pending value is [null] *)
  pendingKeyUpdates : gmap string value;
  (** the time at which the armed timer fires *)
  keyUpdateTimeout : option Z;
}.

Definition initial : state :=
  {| keysCache := ∅; credsCache := None;
     pendingKeyUpdates := ∅; keyUpdateTimeout := None |}.

Definition with_pending (p : gmap string value) (st : state) : state :=
  {| keysCache := keysCache st; credsCache := credsCache st;
     pendingKeyUpdates := p; keyUpdateTimeout := keyUpdateTimeout st |}.

Definition with_timeout (t : option Z) (st : state) : state :=
  {| keysCache := keysCache st; credsCache := credsCache st;
     pendingKeyUpdates := pendingKeyUpdates st; keyUpdateTimeout := t |}.

Definition with_keys (k : gmap string value) (st : state) : state :=
  {| keysCache := k; credsCache := credsCache st;
     pendingKeyUpdates := pendingKeyUpdates st;
     keyUpdateTimeout := keyUpdateTimeout st |}.

(** [Object.keys(v).length] *)
Definition keys_length (v : value) : nat :=
  match v with
  | VObj props => length props
  | VArr items => length items
  | VStr s => String.length s
  | VBuffer bs | VUint8Array bs => length bs
  | _ => 0
  end.

(** [loadAuth].  [reply] is the answer to the [GET]; [None] is a request
    that failed (a 404, a timeout, any other error).  An exception of
    [deserializeData] is caught like a failed request. *)
Definition loadAuth (reply : option Backend.response) (st : state)
  : state * bool :=
  match reply with
  | Some r =>
      if Backend.has_credentials r && truthy (Backend.r_creds r)
         && (0 <? keys_length (default VNull (Backend.r_creds r)))%nat
      then match deserializeData (default VNull (Backend.r_creds r)) with
           | Some c =>
               ({| keysCache := default ∅ (Backend.r_keys r);
                   credsCache := Some c;
                   pendingKeyUpdates := pendingKeyUpdates st;
                   keyUpdateTimeout := keyUpdateTimeout st |}, true)
           | None => (st, false)
           end
      else (st, false)
  | None => (st, false)
  end.

(** [saveCreds]: the body of the [PUT], when there is one to send. *)
Definition saveCreds (st : state) : option value :=
  if truthy (credsCache st) then credsCache st ≫= serializeData else None.

(** [scheduleKeySync]: the armed timer is cleared and a new one set, 500 ms
    from [now]. *)
Definition scheduleKeySync (now : Z) (st : state) : state :=
  with_timeout (Some (now + 500)%Z) st.

(** [`${type}:${id}`] *)
Definition composite (type id : string) : string := type +:+ ":" +:+ id.

(** The body of the inner loop of [keys.set], for one entry. *)
Definition set_entry (key : string) (v : option value) (st : state)
  : option state :=
  match v with
  | None | Some VNull =>
      Some (with_pending (<[key := VNull]> (pendingKeyUpdates st))
              (with_keys (delete key (keysCache st)) st))
  | Some x =>
      serialized ← serializeData x;
      Some (with_pending (<[key := serialized]> (pendingKeyUpdates st))
              (with_keys (<[key := serialized]> (keysCache st)) st))
  end.

(** The two loops of [keys.set].  An exception of [serializeData] leaves
    them at once, with the assignments made so far ([false]). *)
Fixpoint set_entries (type : string) (entries : list (string * option value))
    (st : state) : state * bool :=
  match entries with
  | [] => (st, true)
  | (id, v) :: rest =>
      match set_entry (composite type id) v st with
      | Some st' => set_entries type rest st'
      | None => (st, false)
      end
  end.

Fixpoint set_types (data : batch) (st : state) : state * bool :=
  match data with
  | [] => (st, true)
  | (type, entries) :: rest =>
      match set_entries type entries st with
      | (st', true) => set_types rest st'
      | (st', false) => (st', false)
      end
  end.

(** [state.keys.set(data)] at time [now]; [false] when it raised. *)
Definition keys_set (now : Z) (data : batch) (st : state) : state * bool :=
  match set_types data st with
  | (st', true) => (scheduleKeySync now st', true)
  | (st', false) => (st', false)
  end.

#[global] Instance is_null_dec (v : value) : Decision (v = VNull).
Proof. destruct v; (now left) || (now right). Defined.

(** The loop of the timer callback: [null] values go to [delete_keys], the
    others to [set_keys].  (JavaScript lists the entries in insertion
    order; the order of [delete_keys] is not part of the model.) *)
Definition split (updates : gmap string value) : Backend.patch :=
  {| Backend.set_keys := filter (fun kv => kv.2 <> VNull) updates;
     Backend.delete_keys :=
       (map_to_list (filter (fun kv => kv.2 = VNull) updates)).*1 |}.

(** The timer callback up to its [await]: the pending map is copied and
    emptied, and unless the copy is empty the [PATCH] goes out with
    [split] of it. *)
Definition flush_begin (st : state)
  : state * option (gmap string value) :=
  let updates := pendingKeyUpdates st in
  let st' := with_timeout None (with_pending ∅ st) in
  if bool_decide (updates = ∅) then (st', None) else (st', Some updates).

(** The timer callback after its [await]: when the [PATCH] failed,
    [pendingKeyUpdates = { ...updates, ...pendingKeyUpdates }]. *)
Definition flush_end (ok : bool) (updates : gmap string value)
    (st : state) : state :=
  if ok then st else with_pending (pendingKeyUpdates st ∪ updates) st.

(** *** The event loop around one auth state

    [calls] are the [PATCH] requests sent so far, oldest first. *)
Record loop := {
  auth : state;
  calls : list Backend.patch;
}.

(** The clock reaches [now]: an armed timer whose delay has passed fires. *)
Definition tick (now : Z) (l : loop) : loop :=
  match keyUpdateTimeout (auth l) with
  | Some due =>
      if (due <=? now)%Z then
        match flush_begin (auth l) with
        | (st, Some updates) =>
            {| auth := st; calls := calls l ++ [split updates] |}
        | (st, None) => {| auth := st; calls := calls l |}
        end
      else l
  | None => l
  end.

(** A key update arrives at [now]. *)
Definition arrive (now : Z) (data : batch) (l : loop) : loop :=
  let l' := tick now l in
  {| auth := (keys_set now data (auth l')).1; calls := calls l' |}.

Definition run (events : list (Z * batch)) (l : loop) : loop :=
  foldl (fun l e => arrive e.1 e.2 l) l events.

(** The entries of a batch of key updates, in the order of the loops, under
    their composite keys. *)
Definition entries_of (data : batch) : list (string * option value) :=
  data ≫= (fun te => map (fun iv => (composite te.1 iv.1, iv.2)) te.2).

(** What an entry leaves in the pending map: [null] for a value that is
    [null] or [undefined], the serialized value otherwise. *)
Definition written (v : option value) : value :=
  match v with
  | None | Some VNull => VNull
  | Some x => default VNull (serializeData x)
  end.

(** What a batch writes, entry by entry. *)
Definition writes_of (data : batch) : list (string * value) :=
  map (fun kv => (kv.1, written kv.2)) (entries_of data).


(** No value of the batch makes [serializeData] raise. *)
Definition serializable (data : batch) : bool :=
  forallb (fun kv => match kv.2 with
                     | Some x => bool_decide (is_Some (serializeData x))
                     | None => true
                     end) (entries_of data).





Definition fresh : loop := {| auth := initial; calls := [] |}.

(** Key updates that arrive one after the other, whether they raise or not,
    and the composite keys they name. *)
Definition keys_sets (later : list (Z * batch)) (st : state) : state :=
  foldl (fun s e => (keys_set e.1 e.2 s).1) st later.

Definition touched (later : list (Z * batch)) : list string :=
  later ≫= (fun e => (entries_of e.2).*1).

(** A round of the timer whose [PATCH] fails: key updates arrive, the
    timer fires and sends the pending map, more key updates arrive while
    the request is under way, the failure is handled.  Rounds do not
    overlap here: the failure is handled before the timer fires again.
    [Flights] has the requests under way in its state and lets flushes
    overlap. *)
Definition failed_round (round : list (Z * batch) * list (Z * batch))
    (st : state) : state :=
  match flush_begin (keys_sets round.1 st) with
  | (st', Some updates) => flush_end false updates (keys_sets round.2 st')
  | (st', None) => keys_sets round.2 st'
  end.

Definition failed_rounds
    (rounds : list (list (Z * batch) * list (Z * batch))) (st : state)
  : state :=
  foldl (fun s r => failed_round r s) st rounds.

(** The composite key is part of the request: set or deleted. *)
Definition carries (p : Backend.patch) (k : string) : Prop :=
  is_Some (Backend.set_keys p !! k) \/ k ∈ Backend.delete_keys p.

End DBAuthState.

(** ** The timer callback with its requests under way

    The callback of [scheduleKeySync] is suspended at its [await] for as
    long as the [PATCH] takes (up to the 10 s of its timeout), and the
    timer can fire again in the meantime.  Here the requests that are not
    answered yet are part of the state, so that a failure can be handled
    at any later moment and flushes can overlap. *)

Module Flights.
Import Codec DBAuthState.

(** [sent]: the [PATCH] requests sent so far, oldest first; [inflight]:
    the copies [updates] of the callbacks that wait for their answer;
    [stored]: the key rows the store holds for the session. *)
Record flights := {
  f_auth : state;
  sent : list Backend.patch;
  inflight : list (gmap string value);
  stored : gmap string value;
}.

Inductive event :=
  | key_update (now : Z) (data : batch)
  | clock (now : Z)
  | response (i : nat) (ok : bool).

(** The clock reaches [now]: an armed timer whose delay has passed fires,
    and its callback runs up to the [await]. *)
Definition fire (now : Z) (f : flights) : flights :=
  match keyUpdateTimeout (f_auth f) with
  | Some due =>
      if (due <=? now)%Z then
        match flush_begin (f_auth f) with
        | (st, Some updates) =>
            {| f_auth := st; sent := sent f ++ [split updates];
               inflight := inflight f ++ [updates]; stored := stored f |}
        | (st, None) =>
            {| f_auth := st; sent := sent f; inflight := inflight f;
               stored := stored f |}
        end
      else f
  | None => f
  end.

(** The request of the [i]-th waiting callback is answered.  A request
    that succeeded has been applied by the store ([Backend.apply_patch]); a
    request that failed is taken not to have reached it, and the callback
    runs its [catch]. *)
Definition answer (i : nat) (ok : bool) (f : flights) : flights :=
  match inflight f !! i with
  | Some updates =>
      {| f_auth := flush_end ok updates (f_auth f); sent := sent f;
         inflight := delete i (inflight f);
         stored := if ok then Backend.apply_patch (split updates) (stored f)
                   else stored f |}
  | None => f
  end.

Definition step (e : event) (f : flights) : flights :=
  match e with
  | key_update now data =>
      let f' := fire now f in
      {| f_auth := (keys_set now data (f_auth f')).1; sent := sent f';
         inflight := inflight f'; stored := stored f' |}
  | clock now => fire now f
  | response i ok => answer i ok f
  end.

Definition play (events : list event) (f : flights) : flights :=
  foldl (fun f e => step e f) f events.

Definition start : flights :=
  {| f_auth := initial; sent := []; inflight := []; stored := ∅ |}.

End Flights.

(** ** The session manager ([sessions.js]) *)

Module Status.
Inductive t :=
  not_started | connecting | qr | connected | reconnecting | disconnected.
End Status.

Module Sessions.
Import Codec.

(** An entry of the [sessions] map.  [socket] is the handle of the
    protocol client: its index in the table of clients of the world;
    [None] is [null]. *)
Record session := {
  socket : option nat;
  qr : option string;
  qrBase64 : option string;
  status : Status.t;
  phoneNumber : option string;
}.

(** How the service has closed a protocol client. *)
Inductive closing := by_end | by_logout.

#[global] Instance closing_eq_dec : EqDecision closing.
Proof. solve_decision. Defined.

(** A protocol client returned by [makeWASocket], as far as the service
    sees it: the user whose handlers it carries, the credentials it was
    created with ([None]: those of [initAuthCreds()], so the device has yet
    to be paired), whether [end()] or [logout()] has closed it, and the
    [sendMessage] calls made on it. *)
Record client := {
  owner : string;
  seed : option value;
  closed : option closing;
  sends : list (string * string);
}.

(** A [POST] to the status webhook ([notifyBackend]). *)
Inductive notice :=
  | notice_disconnected (userId reason : string)
  | notice_connected (userId : string) (phone : option string).

(** The registry together with everything the operations act on: the
    protocol clients made so far, the credential store of the backend, the
    session directories of the file fallback ([Some c]: a directory whose
    credential file holds [c]), the timers set with [setTimeout] (delay and
    the user [startSession] is to be called for) and the notices posted. *)
Record world := {
  sessions : gmap string session;
  clients : list client;
  store : gmap string Backend.row;
  dirs : gmap string (option value);
  sessionsDir : bool;
  timers : list (Z * string);
  posts : list notice;
}.

Definition empty_world : world :=
  {| sessions := ∅; clients := []; store := ∅; dirs := ∅;
     sessionsDir := false; timers := []; posts := [] |}.

Definition with_sessions (m : gmap string session) (w : world) : world :=
  {| sessions := m; clients := clients w; store := store w; dirs := dirs w;
     sessionsDir := sessionsDir w; timers := timers w; posts := posts w |}.

Definition with_clients (c : list client) (w : world) : world :=
  {| sessions := sessions w; clients := c; store := store w; dirs := dirs w;
     sessionsDir := sessionsDir w; timers := timers w; posts := posts w |}.

Definition with_store (s : gmap string Backend.row) (w : world) : world :=
  {| sessions := sessions w; clients := clients w; store := s; dirs := dirs w;
     sessionsDir := sessionsDir w; timers := timers w; posts := posts w |}.

Definition with_dirs (d : gmap string (option value)) (w : world) : world :=
  {| sessions := sessions w; clients := clients w; store := store w; dirs := d;
     sessionsDir := sessionsDir w; timers := timers w; posts := posts w |}.

Definition with_timers (t : list (Z * string)) (w : world) : world :=
  {| sessions := sessions w; clients := clients w; store := store w;
     dirs := dirs w; sessionsDir := sessionsDir w; timers := t;
     posts := posts w |}.

Definition with_posts (p : list notice) (w : world) : world :=
  {| sessions := sessions w; clients := clients w; store := store w;
     dirs := dirs w; sessionsDir := sessionsDir w; timers := timers w;
     posts := p |}.

(** What an operation gives back or raises. *)
Inductive error :=
  | not_connected (userId : string)
  | type_error
  | client_error.

Inductive result (A : Type) :=
  | Ok (a : A)
  | Throw (e : error).
Arguments Ok {A} a.
Arguments Throw {A} e.

Inductive started :=
  | started_connected (phone : option string)
  | started_qr (image : string)
  | started_connecting.

Inductive done_message := not_active | disconnected_ok | logged_out.

(** *** The protocol client *)

Definition close_client (how : closing) (c : client) : client :=
  {| owner := owner c; seed := seed c;
     closed := match closed c with Some h => Some h | None => Some how end;
     sends := sends c |}.

(** [socket.end()]: the client is closed from then on, whether or not the
    call raises. *)
Definition socket_end (k : nat) (w : world) : world :=
  with_clients (alter (close_client by_end) k (clients w)) w.

(** [socket.logout()] that returns. *)
Definition socket_logout (k : nat) (w : world) : world :=
  with_clients (alter (close_client by_logout) k (clients w)) w.

Definition record_send (jid text : string) (c : client) : client :=
  {| owner := owner c; seed := seed c; closed := closed c;
     sends := sends c ++ [(jid, text)] |}.

Definition makeWASocket (userId : string) (auth : option value) (w : world)
  : world :=
  with_clients
    (clients w ++ [{| owner := userId; seed := auth; closed := None; sends := [] |}])
    w.

(** The handles of [userId] that the service has not closed. *)
Definition live_handles (userId : string) (w : world) : list nat :=
  (filter (fun kc => owner kc.2 = userId /\ closed kc.2 = None)
     (imap pair (clients w))).*1.

(** *** Auth state of a new client *)

(** [useDBAuthState(userId)]: the credentials the new client starts from.
    [get_ok] tells whether the [GET] of [loadAuth] got an answer.

    The rows of the store and the session directories are kept under the
    id as it is.  The code puts the id into the URL of the request and
    into [path.join(config.sessionsDir, userId)] without encoding it, so
    this is the row and the directory of the code for an id that is one
    plain path segment; an id with [/], [..], [?] or [#] in it reaches the
    row or the directory of another name, which is left out here. *)
Definition db_auth (get_ok : bool) (userId : string) (w : world)
  : option value :=
  let reply := if get_ok then Some (Backend.load (store w) userId) else None in
  match DBAuthState.loadAuth reply DBAuthState.initial with
  | (st, hasExisting) =>
      if hasExisting && truthy (DBAuthState.credsCache st)
      then DBAuthState.credsCache st
      else None
  end.

(** [useMultiFileAuthState(sessionDir)] of the client library: it makes the
    directory when there is none and reads the credential file when there
    is one. *)
Definition file_auth (userId : string) (w : world) : world * option value :=
  match dirs w !! userId with
  | Some c => (w, c)
  | None => (with_dirs (<[userId := None]> (dirs w)) w, None)
  end.

(** [deleteDBAuth(sessionId)]; [delete_ok] tells whether the [DELETE]
    succeeded. *)
Definition deleteDBAuth (delete_ok : bool) (sessionId : string) (w : world)
  : world * bool :=
  if delete_ok then (with_store (Backend.purge (store w) sessionId) w, true)
  else (w, false).

(** The [if (config.useDBAuth) ... else ...] of [logoutSession] and
    [resetSession]: the result of [deleteDBAuth] is not looked at. *)
Definition drop_credentials (useDBAuth delete_ok : bool) (userId : string)
    (w : world) : world :=
  if useDBAuth then (deleteDBAuth delete_ok userId w).1
  else with_dirs (delete userId (dirs w)) w.

(** *** [startSession] *)

Definition ensureSessionsDir (w : world) : world :=
  {| sessions := sessions w; clients := clients w; store := store w;
     dirs := dirs w; sessionsDir := true; timers := timers w;
     posts := posts w |}.

Definition nonempty (o : option string) : bool :=
  match o with
  | Some s => negb (String.eqb s "")
  | None => false
  end.

(** [startSession] up to its first [await]: the answers for a session that
    is connected or shows a pairing image, and otherwise the end of the
    socket the registry holds.  [None]: the call goes on. *)
Definition startSession_enter (userId : string) (w : world)
  : world * option started :=
  let w := ensureSessionsDir w in
  match sessions w !! userId with
  | Some existing =>
      match status existing with
      | Status.connected => (w, Some (started_connected (phoneNumber existing)))
      | st =>
          if match st with Status.qr => nonempty (qrBase64 existing) | _ => false end
          then (w, Some (started_qr (default "" (qrBase64 existing))))
          else match socket existing with
               | Some k => (socket_end k w, None)
               | None => (w, None)
               end
      end
  | None => (w, None)
  end.

(** [startSession] after its [await]s: the auth state is there, the entry
    of the registry is replaced, the protocol client is made and stored in
    the entry. *)
Definition startSession_resume (useDBAuth get_ok : bool) (userId : string)
    (w : world) : world :=
  let '(w, auth) :=
    if useDBAuth then (w, db_auth get_ok userId w) else file_auth userId w in
  let k := length (clients w) in
  let w := makeWASocket userId auth w in
  with_sessions
    (<[userId := {| socket := Some k; qr := None; qrBase64 := None;
                    status := Status.connecting; phoneNumber := None |}]>
       (sessions w)) w.

(** [startSession(userId)], run without another task in between. *)
Definition startSession (useDBAuth get_ok : bool) (userId : string)
    (w : world) : world * started :=
  match startSession_enter userId w with
  | (w', Some answer) => (w', answer)
  | (w', None) =>
      (startSession_resume useDBAuth get_ok userId w', started_connecting)
  end.

(** *** The [connection.update] handler *)

Inductive connection := conn_connecting | conn_open | conn_close.

(** The update, with what the handler reads elsewhere: [statusCode] is
    [lastDisconnect?.error?.output?.statusCode], [message] is
    [lastDisconnect?.error?.message], [image] is what [QRCode.toDataURL]
    returns ([None]: it raised), [user] is [socket.user?.id]. *)
Record update := {
  u_connection : option connection;
  u_qr : option string;
  statusCode : option Z;
  message : option string;
  image : option string;
  user : option string;
}.

(** [s.split(':')[0]] *)
Fixpoint before_colon (s : string) : string :=
  match s with
  | EmptyString => ""
  | String c r => if Ascii.eqb c ":"%char then "" else String c (before_colon r)
  end.

(** [statusCode !== DisconnectReason.loggedOut && statusCode !==
    DisconnectReason.forbidden && statusCode !== 405] *)
Definition shouldReconnect (loggedOut forbidden : Z) (code : option Z) : bool :=
  negb (bool_decide (code = Some loggedOut))
  && negb (bool_decide (code = Some forbidden))
  && negb (bool_decide (code = Some 405%Z)).

Definition on_qr (u : update) (s : session) : session :=
  if nonempty (u_qr u) then
    match image u with
    | Some img =>
        {| socket := socket s; qr := u_qr u; qrBase64 := Some img;
           status := Status.qr; phoneNumber := phoneNumber s |}
    | None => s
    end
  else s.

Definition on_close (loggedOut forbidden : Z) (userId : string) (u : update)
    (s : session) (w : world) : session * world :=
  match u_connection u with
  | Some conn_close =>
      let errorMessage :=
        if nonempty (message u) then default "" (message u)
        else "Unknown error" in
      if shouldReconnect loggedOut forbidden (statusCode u) then
        ({| socket := socket s; qr := qr s; qrBase64 := qrBase64 s;
            status := Status.reconnecting; phoneNumber := phoneNumber s |},
         with_timers (timers w ++ [(5000%Z, userId)]) w)
      else
        ({| socket := None; qr := qr s; qrBase64 := qrBase64 s;
            status := Status.disconnected; phoneNumber := None |},
         with_posts (posts w ++ [notice_disconnected userId errorMessage]) w)
  | _ => (s, w)
  end.

Definition on_open (userId : string) (u : update) (s : session) (w : world)
  : session * world :=
  match u_connection u with
  | Some conn_open =>
      let phone :=
        match user u with
        | Some id => if nonempty (Some (before_colon id))
                     then Some (before_colon id) else None
        | None => None
        end in
      ({| socket := socket s; qr := None; qrBase64 := None;
          status := Status.connected; phoneNumber := phone |},
       with_posts (posts w ++ [notice_connected userId phone]) w)
  | _ => (s, w)
  end.

(** The handler of a client of [userId].  It works on the entry the
    registry holds for [userId]; without an entry the first assignment to
    it raises and nothing is done. *)
Definition connection_update (loggedOut forbidden : Z) (userId : string)
    (u : update) (w : world) : world :=
  match sessions w !! userId with
  | Some s =>
      let s := on_qr u s in
      let '(s, w) := on_close loggedOut forbidden userId u s w in
      let '(s, w) := on_open userId u s w in
      with_sessions (<[userId := s]> (sessions w)) w
  | None => w
  end.

(** The close causes after which the handler does not reconnect. *)
Definition terminal_cause (loggedOut forbidden : Z) (code : option Z) : Prop :=
  code = Some loggedOut \/ code = Some forbidden \/ code = Some 405%Z.

(** *** The other operations *)

Record status_report := {
  r_status : Status.t;
  r_connected : bool;
  r_phoneNumber : option string;
  r_qr : option string;
}.

Definition getSessionStatus (userId : string) (w : world) : status_report :=
  match sessions w !! userId with
  | None =>
      {| r_status := Status.not_started; r_connected := false;
         r_phoneNumber := None; r_qr := None |}
  | Some s =>
      {| r_status := status s;
         r_connected := match status s with Status.connected => true | _ => false end;
         r_phoneNumber := phoneNumber s; r_qr := qrBase64 s |}
  end.

(** [s.includes('@')] *)
Fixpoint includes_at (s : string) : bool :=
  match s with
  | EmptyString => false
  | String c r => Ascii.eqb c "@"%char || includes_at r
  end.

Definition jid_of (to : string) : string :=
  if includes_at to then to else to +:+ "@s.whatsapp.net".

(** [sendMessage(userId, to, message)]; [send_ok] tells whether the
    [sendMessage] of the protocol client returned. *)
Definition sendMessage (send_ok : bool) (userId to text : string) (w : world)
  : world * result unit :=
  match sessions w !! userId with
  | Some s =>
      match status s with
      | Status.connected =>
          match socket s with
          | Some k =>
              let w' :=
                with_clients (alter (record_send (jid_of to) text) k (clients w)) w in
              if send_ok then (w', Ok ()) else (w', Throw client_error)
          | None => (w, Throw type_error)
          end
      | _ => (w, Throw (not_connected userId))
      end
  | None => (w, Throw (not_connected userId))
  end.

(** [disconnectSession(userId)]; [end_raises] tells whether [socket.end()]
    raised. *)
Definition disconnectSession (end_raises : bool) (userId : string) (w : world)
  : world * result done_message :=
  match sessions w !! userId ≫= socket with
  | Some k =>
      let w := socket_end k w in
      if end_raises then (w, Throw client_error)
      else (with_sessions (delete userId (sessions w)) w, Ok disconnected_ok)
  | None => (w, Ok not_active)
  end.

(** [logoutSession(userId)]; [logout_raises] tells whether
    [socket.logout()] raised, [delete_ok] whether the [DELETE] of
    [deleteDBAuth] succeeded. *)
Definition logoutSession (useDBAuth logout_raises delete_ok : bool)
    (userId : string) (w : world) : world * result done_message :=
  match sessions w !! userId ≫= socket with
  | Some k =>
      if logout_raises then (w, Throw client_error)
      else
        let w := socket_logout k w in
        let w := with_sessions (delete userId (sessions w)) w in
        (drop_credentials useDBAuth delete_ok userId w, Ok logged_out)
  | None =>
      let w := with_sessions (delete userId (sessions w)) w in
      (drop_credentials useDBAuth delete_ok userId w, Ok logged_out)
  end.

(** [resetSession(userId)] *)
Definition resetSession (useDBAuth delete_ok get_ok : bool) (userId : string)
    (w : world) : world * started :=
  let w := match sessions w !! userId ≫= socket with
           | Some k => socket_end k w
           | None => w
           end in
  let w := with_sessions (delete userId (sessions w)) w in
  let w := drop_credentials useDBAuth delete_ok userId w in
  startSession useDBAuth get_ok userId w.

(** [logoutSession(userId)] followed at once by [startSession(userId)],
    as the design document describes a reset. *)
Definition logout_then_start (useDBAuth logout_raises delete_ok get_ok : bool)
    (userId : string) (w : world) : world * result started :=
  match logoutSession useDBAuth logout_raises delete_ok userId w with
  | (w', Ok _) =>
      let '(w'', r) := startSession useDBAuth get_ok userId w' in (w'', Ok r)
  | (w', Throw e) => (w', Throw e)
  end.

(** Nothing but the flag of the sessions directory differs. *)
Definition untouched (w w' : world) : Prop :=
  sessions w' = sessions w /\ clients w' = clients w /\ store w' = store w
  /\ dirs w' = dirs w /\ timers w' = timers w /\ posts w' = posts w.

(** The world without the way its closed clients were closed. *)
Definition closed_or_not (w : world)
  : list (string * option value * bool * list (string * string)) :=
  map (fun c => (owner c, seed c, bool_decide (closed c = None), sends c))
    (clients w).

(** Two worlds that differ at most in the way closed clients were
    closed. *)
Definition alike (a b : world) : Prop :=
  sessions a = sessions b /\ store a = store b /\ dirs a = dirs b
  /\ sessionsDir a = sessionsDir b /\ timers a = timers b
  /\ posts a = posts b /\ closed_or_not a = closed_or_not b.

End Sessions.

(** ** More about the codec *)

Module Wire.
Import Codec.

(** The JSON the service sends and stores: no buffer and no typed array
    is left, and an object with [type: 'Buffer'] carries its bytes as a
    string under [data]. *)
Fixpoint wire (v : value) : bool :=
  match v with
  | VBuffer _ | VUint8Array _ => false
  | VArr items => forallb wire items
  | VObj props =>
      (if is_str (prop "type" props) "Buffer"
       then match prop "data" props with Some (VStr _) => true | _ => false end
       else true)
      && forallb (fun kv => wire kv.2) props
  | _ => true
  end.

End Wire.

(** ** Reading keys back ([state.keys.get]) *)

Module AuthKeys.
Import Codec DBAuthState.

(** The body of the loop of [keys.get], for one id.  [fromObject] is
    [proto.Message.AppStateSyncKeyData.fromObject] of the client library
    ([None]: it raised).  A cached value that is falsy, or that raises on
    the way, gives [null]; so does a missing one. *)
Definition get_one (fromObject : value -> option value) (type id : string)
    (st : state) : value :=
  match keysCache st !! composite type id with
  | Some cached =>
      if truthy (Some cached) then
        match
          v ← deserializeData cached;
          if String.eqb type "app-state-sync-key" && truthy (Some v)
          then fromObject v else Some v
        with
        | Some v => if truthy (Some v) then v else VNull
        | None => VNull
        end
      else VNull
  | None => VNull
  end.

(** [state.keys.get(type, ids)]: the object of the results by id. *)
Definition keys_get (fromObject : value -> option value) (type : string)
    (ids : list string) (st : state) : gmap string value :=
  foldl (fun result id => <[id := get_one fromObject type id st]> result) ∅ ids.

(** The pending map holds what the cache holds: a pending [null] is a key
    the cache does not have, any other pending value is the cached one. *)
Definition mirrors (st : state) : Prop :=
  forall k v, pendingKeyUpdates st !! k = Some v ->
    keysCache st !! k = if bool_decide (v = VNull) then None else Some v.

End AuthKeys.

(** ** Sequences of operations on the registry *)

Module Trace.
Import Codec Sessions.

(** What can happen to the registry, with what the environment decides:
    a call of an exported function, a [startSession] that is split at its
    [await]s (so that other things may happen in between), and an update
    that a protocol client hands to the [connection.update] handler. *)
Inductive op :=
  | op_start (get_ok : bool) (userId : string)
  | op_enter (userId : string)
  | op_resume (get_ok : bool) (userId : string)
  | op_update (userId : string) (u : update)
  | op_send (send_ok : bool) (userId to text : string)
  | op_disconnect (end_raises : bool) (userId : string)
  | op_logout (logout_raises delete_ok : bool) (userId : string)
  | op_reset (delete_ok get_ok : bool) (userId : string).

(** The user an operation is for. *)
Definition target (o : op) : string :=
  match o with
  | op_start _ id | op_enter id | op_resume _ id | op_update id _
  | op_send _ id _ _ | op_disconnect _ id | op_logout _ _ id
  | op_reset _ _ id => id
  end.

Definition step (useDBAuth : bool) (loggedOut forbidden : Z) (o : op)
    (w : world) : world :=
  match o with
  | op_start get_ok id => (startSession useDBAuth get_ok id w).1
  | op_enter id => (startSession_enter id w).1
  | op_resume get_ok id => startSession_resume useDBAuth get_ok id w
  | op_update id u => connection_update loggedOut forbidden id u w
  | op_send send_ok id to text => (sendMessage send_ok id to text w).1
  | op_disconnect end_raises id => (disconnectSession end_raises id w).1
  | op_logout logout_raises delete_ok id =>
      (logoutSession useDBAuth logout_raises delete_ok id w).1
  | op_reset delete_ok get_ok id =>
      (resetSession useDBAuth delete_ok get_ok id w).1
  end.

Definition steps (useDBAuth : bool) (loggedOut forbidden : Z) (ops : list op)
    (w : world) : world :=
  foldl (fun w o => step useDBAuth loggedOut forbidden o w) w ops.

(** The handle of an entry is a client of the table, made for the user of
    the entry. *)
Definition handle_ok (w : world) (userId : string) (s : session) : Prop :=
  forall k, socket s = Some k ->
    exists c, clients w !! k = Some c /\ owner c = userId.

(** What the fields of an entry are like in each status. *)
Definition shape_ok (s : session) : Prop :=
  match status s with
  | Status.not_started => False
  | Status.connecting =>
      is_Some (socket s) /\ qr s = None /\ qrBase64 s = None
      /\ phoneNumber s = None
  | Status.qr => is_Some (qr s) /\ is_Some (qrBase64 s)
  | Status.connected => qr s = None /\ qrBase64 s = None
  | Status.reconnecting => True
  | Status.disconnected => socket s = None /\ phoneNumber s = None
  end.

Definition well_formed (w : world) : Prop :=
  forall id s, sessions w !! id = Some s -> handle_ok w id s /\ shape_ok s.

(** The clients of [w] are still there in [w'], each for the same user. *)
Definition extends (w w' : world) : Prop :=
  forall k c, clients w !! k = Some c ->
    exists c', clients w' !! k = Some c' /\ owner c' = owner c.

(** What [w'] has kept of [w] for the users other than [userId]: their
    entries of the registry and their clients. *)
Definition others_kept (userId : string) (w w' : world) : Prop :=
  (forall id, id <> userId -> sessions w' !! id = sessions w !! id)
  /\ (forall k c, clients w !! k = Some c -> owner c <> userId ->
        clients w' !! k = Some c).

(** The client with handle [k], if there is one, is a client of
    [userId]. *)
Definition owned (userId : string) (k : nat) (w : world) : Prop :=
  forall c, clients w !! k = Some c -> owner c = userId.

End Trace.

(** ** Restoring sessions at startup *)

Module Restore.
Import Codec Sessions.

(** [restoreSessions()], run without another task in between.  [reply] is
    the answer to the [GET] of the restorable sessions: [None] when the
    request failed, else the [session_id]s listed, each with whether the
    [GET] of its [loadAuth] gets an answer. *)
Definition restoreSessions (useDBAuth : bool)
    (reply : option (list (string * bool))) (w : world) : world :=
  if useDBAuth then
    match reply with
    | Some restorable =>
        foldl (fun w session =>
                 (startSession useDBAuth session.2 session.1 w).1)
          w restorable
    | None => w
    end
  else w.

(** A client as [makeWASocket] returns it. *)
Definition fresh_client (userId : string) (auth : option value) : client :=
  {| owner := userId; seed := auth; closed := None; sends := [] |}.

(** An entry as [startSession] registers it. *)
Definition fresh_session (k : nat) : session :=
  {| socket := Some k; qr := None; qrBase64 := None;
     status := Status.connecting; phoneNumber := None |}.

(** [getAllSessions()] *)
Record summary := {
  s_status : Status.t;
  s_connected : bool;
  s_phoneNumber : option string;
}.

Definition summary_of (s : session) : summary :=
  {| s_status := status s;
     s_connected := match status s with
                    | Status.connected => true
                    | _ => false
                    end;
     s_phoneNumber := phoneNumber s |}.

(** The plain object [result]: its own properties, which are what
    [res.json] sends, and its prototype when an assignment has replaced
    [Object.prototype]. *)
Record listing := {
  own : gmap string summary;
  proto : option summary;
}.

(** [result[userId] = e].  The name [__proto__] is the accessor of
    [Object.prototype]: assigning an object to it sets the prototype of
    [result] and adds no property. *)
Definition assign (userId : string) (e : summary) (result : listing)
  : listing :=
  if String.eqb userId "__proto__"
  then {| own := own result; proto := Some e |}
  else {| own := <[userId := e]> (own result); proto := proto result |}.

(** The loop over the registry.  (The order of the properties, which
    follows the order of the registry, is not part of the model.) *)
Definition getAllSessions (w : world) : listing :=
  map_fold (fun userId s result => assign userId (summary_of s) result)
    {| own := ∅; proto := None |} (sessions w).

End Restore.

(** ** Incoming messages ([messages.upsert]) *)

Module Relay.
Import Sessions.

(** The parts of [msg.message] the handler reads: [conversation],
    [extendedTextMessage?.text], [imageMessage?.caption] and
    [videoMessage?.caption]. *)
Record content := {
  conversation : option string;
  extended_text : option string;
  image_caption : option string;
  video_caption : option string;
}.

(** A message of the event: [key.fromMe], [message], [key.remoteJid],
    [pushName], [key.id] and [messageTimestamp]. *)
Record msg := {
  fromMe : bool;
  m_message : option content;
  remoteJid : option string;
  pushName : option string;
  key_id : option string;
  messageTimestamp : option Z;
}.

(** The body [forwardMessageToBackend] posts to the message webhook. *)
Record forward := {
  f_userId : string;
  from : string;
  fromName : string;
  fromJid : string;
  f_message : string;
  messageId : option string;
  timestamp : option Z;
}.

(** [a || b] on strings that may be missing. *)
Definition or_else (a : option string) (b : string) : string :=
  if nonempty a then default "" a else b.

Definition messageText (c : content) : string :=
  or_else (conversation c)
    (or_else (extended_text c)
       (or_else (image_caption c) (or_else (video_caption c) ""))).

Fixpoint drop_chars (n : nat) (s : string) : string :=
  match n, s with
  | S n, String _ r => drop_chars n r
  | _, _ => s
  end.

(** [s.replace(pat, '')]: the first occurrence of [pat] goes. *)
Fixpoint replace_first (pat s : string) : string :=
  if String.prefix pat s then drop_chars (String.length pat) s
  else match s with
       | EmptyString => EmptyString
       | String c r => String c (replace_first pat r)
       end.

Definition senderNumber (remoteJid : string) : string :=
  replace_first "@lid"
    (replace_first "@g.us" (replace_first "@s.whatsapp.net" remoteJid)).

(** The body of the loop for one message; [None]: [continue]. *)
Definition relay_one (userId : string) (m : msg) : option forward :=
  if fromMe m then None
  else match m_message m with
       | None => None
       | Some c =>
           if String.eqb (messageText c) "" then None
           else
             let jid := or_else (remoteJid m) "" in
             Some {| f_userId := userId; from := senderNumber jid;
                     fromName := or_else (pushName m) (senderNumber jid);
                     fromJid := jid; f_message := messageText c;
                     messageId := key_id m;
                     timestamp := messageTimestamp m |}
       end.

(** The handler of [messages.upsert] of a client of [userId]: the bodies
    it hands to [forwardMessageToBackend], in order.  A post that fails is
    logged and the loop goes on. *)
Definition messages_upsert (userId type : string) (messages : list msg)
  : list forward :=
  if String.eqb type "history_sync" then []
  else omap (relay_one userId) messages.

End Relay.

(** ** The HTTP routes ([index.js]) *)

Module Api.
Import Sessions Restore.

Inductive route :=
  | health
  | list_sessions
  | start (userId : string)
  | status_of (userId : string)
  | send (userId : string) (to message : option string)
  | disconnect (userId : string)
  | logout (userId : string)
  | reset (userId : string).

(** A request: the [x-api-key] header, when there is one, and the route
    with its parameters.  [to] and [message] of the body of a send are
    strings or missing. *)
Record request := {
  x_api_key : option string;
  target : route;
}.

Inductive body :=
  | b_health
  | b_unauthorized
  | b_missing_fields
  | b_failed (e : error)
  | b_sessions (all : listing)
  | b_started (answer : started)
  | b_status (report : status_report)
  | b_sent
  | b_done (answer : done_message).

(** What the environment decides while a request is served: the outcome
    of the requests and client calls of the operation, and the registry as
    it is after the second the status route may wait. *)
Record env := {
  get_ok : bool;
  send_ok : bool;
  end_raises : bool;
  logout_raises : bool;
  delete_ok : bool;
  later : world;
}.

Definition answer := (world * (Z * body))%type.

(** The [authenticate] middleware. *)
Definition authenticate (apiKey : string) (req : request)
    (next : unit -> answer) (w : world) : answer :=
  if bool_decide (x_api_key req = Some apiKey) then next ()
  else (w, (401%Z, b_unauthorized)).

(** The [try { res.json(...) } catch (err) { res.status(500) }] of the
    routes. *)
Definition respond {A : Type} (ok : A -> body) (r : world * result A)
  : answer :=
  match r with
  | (w, Ok a) => (w, (200%Z, ok a))
  | (w, Throw e) => (w, (500%Z, b_failed e))
  end.

(** The routes.  [startSession] and [resetSession] are modelled without
    the failures of the client library, so the routes that call them never
    take their [catch]; the status route answers from the registry as it is
    after the wait when it found the session [connecting].  What Express
    answers by itself, a path without a route or a body that is not JSON,
    is left out. *)
Definition handle (apiKey : string) (useDBAuth : bool) (e : env)
    (req : request) (w : world) : answer :=
  match target req with
  | health => (w, (200%Z, b_health))
  | list_sessions =>
      authenticate apiKey req
        (fun _ => (w, (200%Z, b_sessions (getAllSessions w)))) w
  | start userId =>
      authenticate apiKey req
        (fun _ =>
           let '(w', a) := startSession useDBAuth (get_ok e) userId w in
           (w', (200%Z, b_started a))) w
  | status_of userId =>
      authenticate apiKey req
        (fun _ =>
           match r_status (getSessionStatus userId w) with
           | Status.connecting =>
               (later e, (200%Z, b_status (getSessionStatus userId (later e))))
           | _ => (w, (200%Z, b_status (getSessionStatus userId w)))
           end) w
  | send userId to message =>
      authenticate apiKey req
        (fun _ =>
           if negb (nonempty to) || negb (nonempty message)
           then (w, (400%Z, b_missing_fields))
           else respond (fun _ => b_sent)
                  (sendMessage (send_ok e) userId (default "" to)
                     (default "" message) w)) w
  | disconnect userId =>
      authenticate apiKey req
        (fun _ => respond b_done (disconnectSession (end_raises e) userId w)) w
  | logout userId =>
      authenticate apiKey req
        (fun _ =>
           respond b_done
             (logoutSession useDBAuth (logout_raises e) (delete_ok e) userId w))
        w
  | reset userId =>
      authenticate apiKey req
        (fun _ =>
           let '(w', a) :=
             resetSession useDBAuth (delete_ok e) (get_ok e) userId w in
           (w', (200%Z, b_started a))) w
  end.

End Api.

(** ** Sample inputs *)

Module Examples.
Import Codec DBAuthState Sessions.

Definition window_example : list (Z * batch) :=
  [ (0%Z, [("pre-key", [("1", Some (VBuffer ["001"%byte])); ("2", Some (VStr "a"))])]);
    (100%Z, [("pre-key", [("1", Some VNull)]); ("session", [])]);
    (450%Z, [("session", [("x", Some (VNum 5))]); ("pre-key", [("2", Some (VStr "b"))])]) ].

Definition flushed_example : gmap string value :=
  {[ "pre-key:1" := VStr "old"; "session:x" := VNull ]}.

Definition pending_example : state :=
  with_pending {[ "pre-key:1" := VStr "new" ]} initial.

Definition rounds_example : list (list (Z * batch) * list (Z * batch)) :=
  [ ([(700%Z, [("pre-key", [("2", Some (VNum 1))])])],
     [(1300%Z, [("pre-key", [("3", None)])])]) ].

Definition later_example : list (Z * batch) :=
  [(9000%Z, [("session", [("y", Some (VStr "s"))])])].

Definition connected_session : session :=
  {| socket := Some 0; qr := None; qrBase64 := None;
     status := Status.connected; phoneNumber := Some "919876543210" |}.

Definition connected_world : world :=
  {| sessions := {[ "u1" := connected_session ]};
     clients := [ {| owner := "u1"; seed := None; closed := None; sends := [] |} ];
     store := {[ "u1" := {| Backend.creds := Some (VObj [("me", VStr "919876543210")]);
                            Backend.keys := ∅ |} ]};
     dirs := ∅; sessionsDir := true; timers := []; posts := [] |}.

Definition logged_out_update : update :=
  {| u_connection := Some conn_close; u_qr := None; statusCode := Some 401%Z;
     message := Some "Intentional Logout"; image := None; user := None |}.

Definition pairing_session : session :=
  {| socket := Some 0; qr := Some "2@abc"; qrBase64 := Some "data:image/png;base64,iVBOR";
     status := Status.qr; phoneNumber := None |}.

Definition pairing_world : world :=
  {| sessions := {[ "u1" := pairing_session ]};
     clients := [ {| owner := "u1"; seed := None; closed := None; sends := [] |} ];
     store := ∅; dirs := ∅; sessionsDir := true; timers := []; posts := [] |}.

Definition pairing_update : update :=
  {| u_connection := None; u_qr := Some "2@abc"; statusCode := None;
     message := None; image := Some "data:image/png;base64,iVBOR";
     user := None |}.

Definition open_update : update :=
  {| u_connection := Some conn_open; u_qr := None; statusCode := None;
     message := None; image := None;
     user := Some "919876543210:12@s.whatsapp.net" |}.

Definition lost_update : update :=
  {| u_connection := Some conn_close; u_qr := None; statusCode := Some 408%Z;
     message := Some "Connection was lost"; image := None; user := None |}.

(** A session that waits for its pairing code: [startSession] on the empty
    world. *)
Definition connecting_world : world :=
  (startSession true true "u1" empty_world).1.

(** Two calls of [startSession] for [u1] that overlap: the second enters
    while the first waits for its auth state, then both go on. *)
Definition overlapping_starts (w : world) : world :=
  let first_waits := (startSession_enter "u1" w).1 in
  let second_waits := (startSession_enter "u1" first_waits).1 in
  let first_done := startSession_resume true true "u1" second_waits in
  startSession_resume true true "u1" first_done.

Definition creds_props : list (string * value) :=
  [ ("noiseKey", VObj [("private", VBuffer ["001"%byte; "002"%byte]);
                       ("public", VBuffer ["255"%byte])]);
    ("registrationId", VNum 4711);
    ("me", VObj [("id", VStr "919876543210:12@s.whatsapp.net")]);
    ("processedHistoryMessages", VArr []) ].

Definition creds_example : value := VObj creds_props.

Definition creds_state : DBAuthState.state :=
  {| keysCache := ∅; credsCache := Some creds_example;
     pendingKeyUpdates := ∅; keyUpdateTimeout := None |}.

(** A batch whose second value makes [serializeData] raise: an object
    tagged as a buffer, with a number as data. *)
Definition raising_batch : batch :=
  [("session", [("a", Some (VStr "kept")); ("b", Some (tagged (VNum 5)));
                ("c", Some (VStr "never reached"))])].

(** A day of one user and a start of another. *)
Definition ops_example : list Trace.op :=
  [ Trace.op_start true "u1"; Trace.op_update "u1" pairing_update;
    Trace.op_update "u1" open_update;
    Trace.op_send true "u1" "919812345678" "hello";
    Trace.op_start true "u2"; Trace.op_update "u1" lost_update;
    Trace.op_enter "u1"; Trace.op_start true "u1";
    Trace.op_resume true "u1"; Trace.op_update "u1" logged_out_update ].

(** The service as it comes up, with the credentials of one user in the
    store of the backend, and what the backend lists as restorable. *)
Definition startup_world : world :=
  {| sessions := ∅; clients := []; store := store connected_world; dirs := ∅;
     sessionsDir := false; timers := []; posts := [] |}.

Definition restorable_example : list (string * bool) :=
  [("u1", true); ("u9", false)].

(** An event with a text of a contact, a picture without caption, an own
    message and a caption of a group member. *)
Definition upsert_example : list Relay.msg :=
  [ {| Relay.fromMe := false;
       Relay.m_message :=
         Some {| Relay.conversation := Some "hello"; Relay.extended_text := None;
                 Relay.image_caption := None; Relay.video_caption := None |};
       Relay.remoteJid := Some "919812345678@s.whatsapp.net";
       Relay.pushName := Some "Asha"; Relay.key_id := Some "M1";
       Relay.messageTimestamp := Some 1700000000%Z |};
    {| Relay.fromMe := false;
       Relay.m_message :=
         Some {| Relay.conversation := None; Relay.extended_text := None;
                 Relay.image_caption := Some ""; Relay.video_caption := None |};
       Relay.remoteJid := Some "919812345678@s.whatsapp.net";
       Relay.pushName := Some "Asha"; Relay.key_id := Some "M2";
       Relay.messageTimestamp := Some 1700000001%Z |};
    {| Relay.fromMe := true;
       Relay.m_message :=
         Some {| Relay.conversation := Some "on my way"; Relay.extended_text := None;
                 Relay.image_caption := None; Relay.video_caption := None |};
       Relay.remoteJid := Some "919812345678@s.whatsapp.net";
       Relay.pushName := None; Relay.key_id := Some "M3";
       Relay.messageTimestamp := Some 1700000002%Z |};
    {| Relay.fromMe := false;
       Relay.m_message :=
         Some {| Relay.conversation := None; Relay.extended_text := None;
                 Relay.image_caption := None; Relay.video_caption := Some "clip" |};
       Relay.remoteJid := Some "120363025@g.us";
       Relay.pushName := None; Relay.key_id := Some "M4";
       Relay.messageTimestamp := Some 1700000003%Z |} ].

Definition forwarded_example : Relay.forward :=
  {| Relay.f_userId := "u1"; Relay.from := "120363025";
     Relay.fromName := "120363025"; Relay.fromJid := "120363025@g.us";
     Relay.f_message := "clip"; Relay.messageId := Some "M4";
     Relay.timestamp := Some 1700000003%Z |}.

Definition env_example : Api.env :=
  {| Api.get_ok := true; Api.send_ok := true; Api.end_raises := false;
     Api.logout_raises := false; Api.delete_ok := true;
     Api.later := connected_world |}.

(** Key pairs as the client library hands them to [keys.set], and as the
    codec sends them. *)
Definition pair_old : value :=
  VObj [("public", VBuffer ["001"%byte; "002"%byte]);
        ("private", VBuffer ["003"%byte])].

Definition pair_new : value :=
  VObj [("public", VBuffer ["004"%byte; "005"%byte]);
        ("private", VBuffer ["006"%byte])].

Definition wire_old : value :=
  VObj [("public", tagged (VStr "AQI=")); ("private", tagged (VStr "Aw=="))].

Definition wire_new : value :=
  VObj [("public", tagged (VStr "BAU=")); ("private", tagged (VStr "Bg=="))].

(** One key update whose [PATCH] fails, and nothing but time after it. *)
Definition stranded_events : list Flights.event :=
  [ Flights.key_update 0 [("pre-key", [("1", Some pair_old)])];
    Flights.clock 500; Flights.response 0 false ].

(** A first [PATCH] that hangs and fails late, after a second one has
    delivered a newer value of the same key; then one more key update. *)
Definition overtaken_events : list Flights.event :=
  [ Flights.key_update 0 [("pre-key", [("1", Some pair_old)])];
    Flights.clock 500;
    Flights.key_update 600 [("pre-key", [("1", Some pair_new)])];
    Flights.clock 1100;
    Flights.response 1 true;
    Flights.response 0 false;
    Flights.key_update 2000 [("pre-key", [("2", Some pair_new)])];
    Flights.clock 2500;
    Flights.response 0 true ].

End Examples.

(** * Properties *)

(** ** Base64 round trip *)

Section Base64Facts.
Import Base64.
Local Open Scope N_scope.

Lemma byte_of_to_N (b : byte) : byte_of_N (Byte.to_N b) = b.
Proof.
  unfold byte_of_N.
  pose proof (Byte.to_N_bounded b) as Hb.
  rewrite N.mod_small by lia.
  now rewrite Byte.of_to_N.
Qed.

Lemma sextet_cases (s : N) :
  s < 64 -> In s (map N.of_nat (seq 0 64)).
Proof.
  intros Hs. apply in_map_iff. exists (N.to_nat s). split; [lia|].
  apply in_seq. lia.
Qed.

Lemma index_of_char_of (s : N) : s < 64 -> index_of (char_of s) = Some s.
Proof.
  intros Hs. apply sextet_cases in Hs. revert s Hs.
  apply List.Forall_forall. vm_compute.
  repeat (constructor; [reflexivity|]). constructor.
Qed.

Lemma char_of_not_pad (s : N) : s < 64 -> Ascii.eqb (char_of s) "="%char = false.
Proof.
  intros Hs. apply sextet_cases in Hs. revert s Hs.
  apply List.Forall_forall. vm_compute.
  repeat (constructor; [reflexivity|]). constructor.
Qed.

Lemma sextets_cons (s : N) (r : string) :
  s < 64 -> sextets (String (char_of s) r) = s :: sextets r.
Proof.
  intros Hs. cbn [sextets].
  now rewrite char_of_not_pad, index_of_char_of.
Qed.

Ltac euclid := Z.to_euclidean_division_equations; lia.

Lemma sextet_bounds (a b : N) :
  a < 256 -> b < 256 ->
  sextet0 a < 64 /\ sextet1 a b < 64 /\ sextet2 a b < 64 /\ sextet3 a < 64.
Proof.
  unfold sextet0, sextet1, sextet2, sextet3. intros Ha Hb.
  repeat split; zify; euclid.
Qed.

Lemma octets_of_sextets (a b c : N) :
  a < 256 -> b < 256 -> c < 256 ->
  octet0 (sextet0 a) (sextet1 a b) = a /\
  octet1 (sextet1 a b) (sextet2 b c) = b /\
  octet2 (sextet2 b c) (sextet3 c) = c.
Proof.
  unfold octet0, octet1, octet2, sextet0, sextet1, sextet2, sextet3.
  intros Ha Hb Hc. repeat split; zify; euclid.
Qed.

(** Induction three bytes at a time, following [encode]. *)
Lemma triples_ind (P : list byte -> Prop) :
  P [] -> (forall a, P [a]) -> (forall a b, P [a; b]) ->
  (forall a b c r, P r -> P (a :: b :: c :: r)) ->
  forall l, P l.
Proof.
  intros H0 H1 H2 H3 l.
  assert (P l /\ (forall a, P (a :: l)) /\ (forall a b, P (a :: b :: l)))
    as [H _].
  { induction l as [|x l (IH0 & IH1 & IH2)]; [now auto|].
    repeat split; auto. }
  exact H.
Qed.

Lemma decode_encode (bs : list byte) : decode (encode bs) = bs.
Proof.
  unfold decode. induction bs as [|a|a b|a b c r IH] using triples_ind.
  - reflexivity.
  - pose proof (Byte.to_N_bounded a).
    destruct (sextet_bounds (Byte.to_N a) 0) as (?&?&?&?); [lia..|].
    destruct (octets_of_sextets (Byte.to_N a) 0 0) as (E0&_&_); [lia..|].
    cbn [encode]. rewrite !sextets_cons by assumption.
    cbn. now rewrite E0, byte_of_to_N.
  - pose proof (Byte.to_N_bounded a). pose proof (Byte.to_N_bounded b).
    destruct (sextet_bounds (Byte.to_N a) (Byte.to_N b)) as (?&?&_&_);
      [lia..|].
    destruct (sextet_bounds (Byte.to_N b) 0) as (_&_&?&_); [lia..|].
    destruct (octets_of_sextets (Byte.to_N a) (Byte.to_N b) 0)
      as (E0&E1&_); [lia..|].
    cbn [encode]. rewrite !sextets_cons by assumption.
    cbn. now rewrite E0, E1, !byte_of_to_N.
  - pose proof (Byte.to_N_bounded a). pose proof (Byte.to_N_bounded b).
    pose proof (Byte.to_N_bounded c).
    destruct (sextet_bounds (Byte.to_N a) (Byte.to_N b)) as (?&?&_&_);
      [lia..|].
    destruct (sextet_bounds (Byte.to_N b) (Byte.to_N c)) as (_&_&?&_);
      [lia..|].
    destruct (sextet_bounds (Byte.to_N c) 0) as (_&_&_&?); [lia..|].
    destruct (octets_of_sextets (Byte.to_N a) (Byte.to_N b) (Byte.to_N c))
      as (E0&E1&E2); [lia..|].
    cbn [encode]. rewrite !sextets_cons by assumption.
    cbn [octets]. now rewrite E0, E1, E2, IH, !byte_of_to_N.
Qed.

(** The encoding of a byte sequence is the empty string only for the empty
    sequence. *)
Lemma encode_empty (bs : list byte) : encode bs = "" <-> bs = [].
Proof.
  split; [|now intros ->].
  destruct bs as [|a [|b [|c r]]]; [reflexivity|discriminate..].
Qed.

End Base64Facts.

(** ** The codec *)

Section CodecFacts.
Import Codec.

(** Structural induction on values, with the members of arrays and objects
    covered by [Forall]. *)
Lemma value_ind (P : value -> Prop) :
  P VNull -> (forall b, P (VBool b)) -> (forall n, P (VNum n)) ->
  (forall s, P (VStr s)) -> (forall bs, P (VBuffer bs)) ->
  (forall bs, P (VUint8Array bs)) ->
  (forall items, Forall P items -> P (VArr items)) ->
  (forall props, Forall (fun kv => P kv.2) props -> P (VObj props)) ->
  forall v, P v.
Proof.
  intros Hnull Hbool Hnum Hstr Hbuf Hu8 Harr Hobj.
  fix IH 1. intros [ | b | n | s | bs | bs | items | props ].
  - exact Hnull.
  - apply Hbool.
  - apply Hnum.
  - apply Hstr.
  - apply Hbuf.
  - apply Hu8.
  - apply Harr. induction items as [|x r IHr]; constructor; [apply IH|exact IHr].
  - apply Hobj. induction props as [|[k x] r IHr]; constructor;
      [apply IH|exact IHr].
Qed.

Lemma byte_of_num_of_byte (b : byte) :
  byte_of_num (Z.of_N (Byte.to_N b)) = b.
Proof.
  unfold byte_of_num. pose proof (Byte.to_N_bounded b).
  rewrite Z.mod_small by lia. rewrite N2Z.id. apply byte_of_to_N.
Qed.

Lemma bytes_of_array_nums (bs : list byte) :
  bytes_of_array (map num_of_byte bs) = Some bs.
Proof.
  unfold bytes_of_array. induction bs as [|b r IH]; [reflexivity|].
  cbn. rewrite byte_of_num_of_byte.
  change (mapM _ (map num_of_byte r)) with (bytes_of_array (map num_of_byte r)) in *.
  unfold bytes_of_array in *. now rewrite IH.
Qed.

(** What [serializeData] makes of a buffer: the tag and the base64 text of
    its bytes. *)
Lemma serializeData_buffer (bs : list byte) :
  serializeData (VBuffer bs) = Some (tagged (VStr (Base64.encode bs))).
Proof.
  cbn. unfold BufferJSON.replacer. cbn.
  now rewrite bytes_of_array_nums.
Qed.

(** What [deserializeData] makes of a tagged object: a buffer when the text
    is not empty, the object itself when it is. *)
Lemma deserializeData_tagged (s : string) :
  deserializeData (tagged (VStr s)) =
  if String.eqb s "" then Some (tagged (VStr s))
  else Some (VBuffer (Base64.decode s)).
Proof.
  cbn. unfold BufferJSON.reviver. cbn. now destruct (String.eqb s "").
Qed.

Lemma roundtrip_buffer (bs : list byte) :
  bs <> [] -> roundtrip (VBuffer bs) = Some (VBuffer bs).
Proof.
  intros Hne. unfold roundtrip. rewrite serializeData_buffer. cbn [mbind option_bind].
  rewrite deserializeData_tagged.
  destruct (String.eqb_spec (Base64.encode bs) "") as [E|_].
  - apply encode_empty in E. contradiction.
  - now rewrite decode_encode.
Qed.

Lemma replacer_applies_obj (props : list (string * value)) :
  BufferJSON.replacer_applies (VObj props) = is_str (prop "type" props) "Buffer".
Proof. reflexivity. Qed.

Lemma reviver_untagged (props : list (string * value)) :
  is_str (prop "type" props) "Buffer" = false ->
  BufferJSON.reviver (VObj props) = Some (VObj props).
Proof.
  intros H. unfold BufferJSON.reviver. cbn. now rewrite H.
Qed.

(** Serializing the members one by one and deserializing the results gives
    the members back when each of them makes the round trip. *)
Lemma mapM_roundtrip (items : list value) :
  Forall (fun x => roundtrip x = Some x) items ->
  mapM serializeData items ≫= mapM deserializeData = Some items.
Proof.
  induction 1 as [|x r Hx _ IH]; [reflexivity|].
  unfold roundtrip in Hx. cbn.
  destruct (serializeData x) as [x'|]; [|discriminate]. cbn in Hx |- *.
  destruct (mapM serializeData r) as [r'|]; [|discriminate]. cbn in IH |- *.
  now rewrite Hx, IH.
Qed.

Lemma mapM_roundtrip_props (props : list (string * value)) :
  Forall (fun kv => roundtrip kv.2 = Some kv.2) props ->
  mapM (fun kv => pair kv.1 <$> serializeData kv.2) props
    ≫= mapM (fun kv => pair kv.1 <$> deserializeData kv.2) = Some props.
Proof.
  induction 1 as [|[k x] r Hx _ IH]; [reflexivity|].
  unfold roundtrip in Hx. cbn in Hx |- *.
  destruct (serializeData x) as [x'|]; [|discriminate]. cbn in Hx |- *.
  destruct (mapM _ r) as [r'|]; [|discriminate]. cbn in IH |- *.
  now rewrite Hx, IH.
Qed.

(** The codec is faithful on every structure of non-empty buffers and JSON
    primitives that holds no object already tagged [type: 'Buffer']. *)
Theorem roundtrip_faithful (v : value) :
  faithful v = true -> roundtrip v = Some v.
Proof.
  induction v as [ | b | n | s | bs | bs | items IH | props IH ]
    using value_ind; intros Hf; try reflexivity.
  - apply roundtrip_buffer. cbn in Hf. now case_bool_decide.
  - discriminate.
  - cbn in Hf. unfold roundtrip. cbn [serializeData toJSON].
    change (BufferJSON.replacer_applies (VArr items)) with false. cbn iota.
    assert (Forall (fun x => roundtrip x = Some x) items) as Hall.
    { apply Forall_forall. intros x Hx.
      rewrite Forall_forall in IH. apply IH; [exact Hx|].
      rewrite forallb_forall in Hf. apply Hf. now apply list_elem_of_In. }
    apply mapM_roundtrip in Hall.
    destruct (mapM serializeData items) as [items'|]; [|discriminate].
    cbn in Hall |- *. now rewrite Hall.
  - cbn in Hf. apply andb_true_iff in Hf as [Htag Hf].
    apply negb_true_iff in Htag.
    unfold roundtrip. cbn [serializeData toJSON].
    rewrite replacer_applies_obj, Htag.
    assert (Forall (fun kv => roundtrip kv.2 = Some kv.2) props) as Hall.
    { apply Forall_forall. intros x Hx.
      rewrite Forall_forall in IH. apply IH; [exact Hx|].
      rewrite forallb_forall in Hf. apply Hf. now apply list_elem_of_In. }
    apply mapM_roundtrip_props in Hall.
    destruct (mapM _ props) as [props'|]; [|discriminate].
    cbn in Hall |- *. rewrite Hall. cbn. now apply reviver_untagged.
Qed.

(** C1 (codec round trip), at the empty byte sequence.  [serializeData]
    tags the empty buffer with the empty base64 text; the reviver tests
    that text for truth, finds it false and leaves the tagged object in
    place, so what comes back is an object and not the buffer. *)
Theorem roundtrip_empty_buffer :
  serializeData (VBuffer []) = Some (tagged (VStr ""))
  /\ deserializeData (tagged (VStr "")) = Some (tagged (VStr ""))
  /\ roundtrip (VBuffer []) <> Some (VBuffer []).
Proof. repeat split. discriminate. Qed.

(** The same inside a credential structure. *)
Example roundtrip_empty_leaf :
  roundtrip (VObj [("noiseKey", VBuffer ["001"%byte]); ("salt", VBuffer [])])
  = Some (VObj [("noiseKey", VBuffer ["001"%byte]); ("salt", tagged (VStr ""))]).
Proof. reflexivity. Qed.

End CodecFacts.

(** ** The store *)

Section BackendFacts.
Import Codec Backend.

Lemma lookup_deletes (dels : list string) (m : gmap string value) (k : string) :
  foldr delete m dels !! k = if bool_decide (k ∈ dels) then None else m !! k.
Proof.
  induction dels as [|d r IH]; cbn; [reflexivity|].
  destruct (decide (d = k)) as [->|Hne].
  - rewrite lookup_delete_eq. rewrite bool_decide_eq_true_2; [reflexivity|].
    apply elem_of_cons. now left.
  - rewrite lookup_delete_ne by exact Hne. rewrite IH.
    destruct (decide (k ∈ r)) as [Hin|Hout].
    + rewrite !bool_decide_eq_true_2; [reflexivity| |exact Hin].
      apply elem_of_cons. now right.
    + rewrite !bool_decide_eq_false_2; [reflexivity| |exact Hout].
      intros H. apply elem_of_cons in H as [->|H]; [congruence|contradiction].
Qed.

(** Applying a batch again changes nothing: the store may receive the same
    request more than once. *)
Lemma apply_patch_idempotent (p : patch) (ks : gmap string value) :
  apply_patch p (apply_patch p ks) = apply_patch p ks.
Proof.
  apply map_eq. intros k. unfold apply_patch.
  rewrite !lookup_deletes. case_bool_decide; [reflexivity|].
  rewrite !lookup_union, lookup_deletes.
  rewrite bool_decide_eq_false_2 by assumption.
  rewrite lookup_union. now destruct (set_keys p !! k), (ks !! k).
Qed.

Lemma sync_keys_idempotent (store : gmap string row) (id : string) (p : patch) :
  sync_keys (sync_keys store id p) id p = sync_keys store id p.
Proof.
  unfold sync_keys. rewrite lookup_insert_eq. cbn.
  rewrite insert_insert_eq, apply_patch_idempotent. reflexivity.
Qed.

(** After a purge a load reports no credentials, whatever was saved. *)
Lemma load_purge (store : gmap string row) (id : string) :
  has_credentials (load (purge store id) id) = false.
Proof. unfold load, purge. now rewrite lookup_delete_eq. Qed.

Lemma load_save_creds (store : gmap string row) (id : string) (c : value) :
  has_credentials (load (save_creds store id c) id) = true
  /\ r_creds (load (save_creds store id c) id) = Some c.
Proof. unfold load, save_creds. rewrite lookup_insert_eq. now split. Qed.

End BackendFacts.

(** ** The debounced key sync *)

Section DBAuthStateFacts.
Import Codec DBAuthState Examples.

Abbreviation put :=
  (fun (m : gmap string value) (kv : string * value) => <[kv.1 := kv.2]> m).

Lemma forallb_fmap {A B} (f : B -> bool) (g : A -> B) (l : list A) :
  forallb f (map g l) = forallb (fun x => f (g x)) l.
Proof. induction l as [|x r IH]; [reflexivity|]. cbn. now rewrite IH. Qed.


Lemma set_entry_pending (key : string) (v : option value) (st : state) :
  from_option (fun x => bool_decide (is_Some (serializeData x))) true v = true ->
  exists st',
    set_entry key v st = Some st'
    /\ pendingKeyUpdates st' = <[key := written v]> (pendingKeyUpdates st)
    /\ keyUpdateTimeout st' = keyUpdateTimeout st.
Proof.
  destruct v as [x|]; cbn.
  - intros H. apply bool_decide_eq_true in H as [s Hs].
    destruct x; cbn in *; rewrite ?Hs; cbn; eexists; repeat split.
  - intros _. eexists. repeat split.
Qed.

Lemma set_entries_pending (type : string)
    (entries : list (string * option value)) (st : state) :
  forallb (fun kv => match kv.2 with
                     | Some x => bool_decide (is_Some (serializeData x))
                     | None => true
                     end) entries = true ->
  exists st',
    set_entries type entries st = (st', true)
    /\ pendingKeyUpdates st' =
       foldl put (pendingKeyUpdates st)
         (map (fun iv => (composite type iv.1, written iv.2)) entries)
    /\ keyUpdateTimeout st' = keyUpdateTimeout st.
Proof.
  revert st. induction entries as [|[id v] r IH]; intros st H.
  - exists st. repeat split.
  - cbn in H. apply andb_true_iff in H as [Hv Hr].
    destruct (set_entry_pending (composite type id) v st) as (st1 & E1 & P1 & T1).
    { destruct v; exact Hv. }
    destruct (IH st1 Hr) as (st2 & E2 & P2 & T2).
    exists st2. cbn [set_entries]. rewrite E1, E2. repeat split.
    + rewrite P2, P1. reflexivity.
    + congruence.
Qed.

Lemma set_types_pending (data : batch) (st : state) :
  serializable data = true ->
  exists st',
    set_types data st = (st', true)
    /\ pendingKeyUpdates st' = foldl put (pendingKeyUpdates st) (writes_of data)
    /\ keyUpdateTimeout st' = keyUpdateTimeout st.
Proof.
  unfold serializable, writes_of, entries_of.
  revert st. induction data as [|[type entries] r IH]; intros st H.
  - exists st. repeat split.
  - cbn in H. rewrite forallb_app in H. apply andb_true_iff in H as [He Hr].
    rewrite forallb_fmap in He. cbn in He.
    destruct (set_entries_pending type entries st He) as (st1 & E1 & P1 & T1).
    destruct (IH st1 Hr) as (st2 & E2 & P2 & T2).
    exists st2. cbn [set_types]. rewrite E1, E2. repeat split.
    + rewrite P2, P1. cbn. rewrite map_app, foldl_app, map_map. reflexivity.
    + congruence.
Qed.

(** A key update that does not raise records its writes, last one first in
    precedence, and arms the timer 500 ms ahead. *)
Lemma keys_set_pending (now : Z) (data : batch) (st : state) :
  serializable data = true ->
  pendingKeyUpdates (keys_set now data st).1
    = foldl put (pendingKeyUpdates st) (writes_of data)
  /\ keyUpdateTimeout (keys_set now data st).1 = Some (now + 500)%Z.
Proof.
  intros H. destruct (set_types_pending data st H) as (st' & E & P & _).
  unfold keys_set. rewrite E. cbn. split; [exact P|reflexivity].
Qed.





Lemma split_set_keys (u : gmap string value) (k : string) (v : value) :
  Backend.set_keys (split u) !! k = Some v <-> u !! k = Some v /\ v <> VNull.
Proof. cbn. apply map_lookup_filter_Some. Qed.

Lemma split_delete_keys (u : gmap string value) (k : string) :
  k ∈ Backend.delete_keys (split u) <-> u !! k = Some VNull.
Proof.
  cbn. rewrite list_elem_of_fmap. split.
  - intros ([k' w] & -> & H). apply elem_of_map_to_list in H.
    apply map_lookup_filter_Some in H as [H E]. cbn in *. now subst.
  - intros H. exists (k, VNull). split; [reflexivity|].
    apply elem_of_map_to_list, map_lookup_filter_Some. now split.
Qed.

Lemma flush_begin_nonempty (st : state) :
  pendingKeyUpdates st <> ∅ ->
  flush_begin st
  = (with_timeout None (with_pending ∅ st), Some (pendingKeyUpdates st)).
Proof.
  intros H. unfold flush_begin. now rewrite bool_decide_eq_false_2.
Qed.





(** The request of the sample window. *)
Example window_example_request :
  calls (tick 950 (run window_example fresh))
  = [ {| Backend.set_keys :=
           {[ "pre-key:2" := VStr "b"; "session:x" := VNum 5 ]};
         Backend.delete_keys := ["pre-key:1"] |} ].
Proof. vm_compute. reflexivity. Qed.

(** *** A failed flush *)

Lemma set_entry_keeps (key : string) (v : option value) (st st' : state)
    (k : string) :
  set_entry key v st = Some st' ->
  (is_Some (pendingKeyUpdates st !! k) -> is_Some (pendingKeyUpdates st' !! k))
  /\ (k <> key -> pendingKeyUpdates st' !! k = pendingKeyUpdates st !! k).
Proof.
  intros H.
  assert (exists w, pendingKeyUpdates st' = <[key := w]> (pendingKeyUpdates st))
    as [w ->].
  { unfold set_entry in H.
    destruct v as [[ | b | n | s | bs | bs | items | props ]|];
      try (injection H as <-; now eexists);
      (destruct (serializeData _) as [s'|]; [|discriminate]; cbn in H;
       injection H as <-; now eexists). }
  split.
  - intros Hk. destruct (decide (key = k)) as [->|Hne].
    + rewrite lookup_insert_eq. now eexists.
    + now rewrite lookup_insert_ne.
  - intros Hne. now rewrite lookup_insert_ne.
Qed.

Lemma set_entries_keeps (type : string) (entries : list (string * option value))
    (st : state) (k : string) :
  (is_Some (pendingKeyUpdates st !! k) ->
   is_Some (pendingKeyUpdates (set_entries type entries st).1 !! k))
  /\ (k ∉ (map (fun iv => (composite type iv.1, iv.2)) entries).*1 ->
      pendingKeyUpdates (set_entries type entries st).1 !! k
      = pendingKeyUpdates st !! k).
Proof.
  revert st. induction entries as [|[id v] r IH]; intros st; [now split|].
  cbn [set_entries]. destruct (set_entry (composite type id) v st) as [st'|] eqn:E.
  - destruct (set_entry_keeps _ _ _ _ k E) as [K1 K2].
    destruct (IH st') as [I1 I2]. split.
    + intros H. apply I1, K1, H.
    + intros H. cbn in H. apply not_elem_of_cons in H as [Hne H].
      rewrite I2 by exact H. now apply K2.
  - now split.
Qed.

Lemma set_types_keeps (data : batch) (st : state) (k : string) :
  (is_Some (pendingKeyUpdates st !! k) ->
   is_Some (pendingKeyUpdates (set_types data st).1 !! k))
  /\ (k ∉ (entries_of data).*1 ->
      pendingKeyUpdates (set_types data st).1 !! k = pendingKeyUpdates st !! k).
Proof.
  revert st. induction data as [|[type entries] r IH]; intros st; [now split|].
  cbn [set_types].
  destruct (set_entries_keeps type entries st k) as [E1 E2].
  destruct (set_entries type entries st) as [st' [|]] eqn:E; cbn [fst] in *.
  - destruct (IH st') as [I1 I2]. split.
    + intros H. apply I1, E1, H.
    + intros H. unfold entries_of in H. cbn in H.
      rewrite fmap_app in H. apply not_elem_of_app in H as [Ha Hb].
      rewrite I2 by exact Hb. now apply E2.
  - split; [exact E1|].
    intros H. unfold entries_of in H. cbn in H.
    rewrite fmap_app in H. apply not_elem_of_app in H as [Ha Hb].
    now apply E2.
Qed.

Lemma keys_set_keeps (now : Z) (data : batch) (st : state) (k : string) :
  (is_Some (pendingKeyUpdates st !! k) ->
   is_Some (pendingKeyUpdates (keys_set now data st).1 !! k))
  /\ (k ∉ (entries_of data).*1 ->
      pendingKeyUpdates (keys_set now data st).1 !! k = pendingKeyUpdates st !! k).
Proof.
  destruct (set_types_keeps data st k) as [K1 K2].
  unfold keys_set. now destruct (set_types data st) as [st' [|]].
Qed.

(** Key updates only add to the pending map, and leave the keys they do
    not name as they are. *)
Lemma keys_sets_keeps (later : list (Z * batch)) (st : state) (k : string) :
  (is_Some (pendingKeyUpdates st !! k) ->
   is_Some (pendingKeyUpdates (keys_sets later st) !! k))
  /\ (k ∉ touched later ->
      pendingKeyUpdates (keys_sets later st) !! k = pendingKeyUpdates st !! k).
Proof.
  revert st. induction later as [|[t data] r IH]; intros st; [now split|].
  change (keys_sets ((t, data) :: r) st)
    with (keys_sets r (keys_set t data st).1).
  destruct (keys_set_keeps t data st k) as [K1 K2].
  destruct (IH (keys_set t data st).1) as [I1 I2]. split.
  - intros H. apply I1, K1, H.
  - intros H. unfold touched in H. cbn in H.
    apply not_elem_of_app in H as [Ha Hb].
    rewrite I2 by exact Hb. now apply K2.
Qed.

Lemma carries_split (u : gmap string value) (k : string) :
  is_Some (u !! k) -> carries (split u) k.
Proof.
  intros [v H]. destruct (decide (v = VNull)) as [->|Hv].
  - right. now apply split_delete_keys.
  - left. exists v. now apply split_set_keys.
Qed.

(** A failed round keeps what was pending, and leaves the keys that its
    updates do not name as they were. *)
Lemma failed_round_keeps
    (round : list (Z * batch) * list (Z * batch)) (st : state) (k : string) :
  (is_Some (pendingKeyUpdates st !! k) ->
   is_Some (pendingKeyUpdates (failed_round round st) !! k))
  /\ (k ∉ touched (round.1 ++ round.2) ->
      pendingKeyUpdates (failed_round round st) !! k
      = pendingKeyUpdates st !! k).
Proof.
  destruct round as [before during]. unfold failed_round. cbn [fst snd].
  destruct (keys_sets_keeps before st k) as [B1 B2].
  set (st1 := keys_sets before st) in *.
  assert (forall st', pendingKeyUpdates st' = ∅ ->
            pendingKeyUpdates
              (flush_end false (pendingKeyUpdates st1) (keys_sets during st')) !! k
            = from_option Some (pendingKeyUpdates st1 !! k)
                (pendingKeyUpdates (keys_sets during st') !! k)) as Hend.
  { intros st' _. cbn. rewrite lookup_union.
    destruct (pendingKeyUpdates (keys_sets during st') !! k),
             (pendingKeyUpdates st1 !! k); reflexivity. }
  assert (touched (before ++ during) = (touched before ++ touched during)%list)
    as Ht.
  { unfold touched. now rewrite bind_app. }
  unfold flush_begin. case_bool_decide as E.
  - set (st' := with_timeout None (with_pending ∅ st1)).
    destruct (keys_sets_keeps during st' k) as [D1 D2]. split.
    + intros H. apply B1 in H. rewrite E, lookup_empty in H. now destruct H.
    + intros H. rewrite Ht in H. apply not_elem_of_app in H as [Hb Hd].
      rewrite D2 by exact Hd. cbn. rewrite lookup_empty.
      rewrite <- B2 by exact Hb. now rewrite E, lookup_empty.
  - set (st' := with_timeout None (with_pending ∅ st1)).
    destruct (keys_sets_keeps during st' k) as [D1 D2].
    rewrite (Hend st' eq_refl). split.
    + intros H. apply B1 in H. destruct H as [x Hx]. rewrite Hx.
      now destruct (pendingKeyUpdates (keys_sets during st') !! k).
    + intros H. rewrite Ht in H. apply not_elem_of_app in H as [Hb Hd].
      rewrite D2 by exact Hd. cbn. rewrite lookup_empty. cbn.
      rewrite <- B2 by exact Hb. now destruct (pendingKeyUpdates st1 !! k).
Qed.

Lemma failed_rounds_keeps
    (rounds : list (list (Z * batch) * list (Z * batch))) (st : state)
    (k : string) :
  (is_Some (pendingKeyUpdates st !! k) ->
   is_Some (pendingKeyUpdates (failed_rounds rounds st) !! k))
  /\ (k ∉ touched (rounds ≫= fun r => (r.1 ++ r.2)%list) ->
      pendingKeyUpdates (failed_rounds rounds st) !! k
      = pendingKeyUpdates st !! k).
Proof.
  revert st. induction rounds as [|r rs IH]; intros st; [now split|].
  change (failed_rounds (r :: rs) st) with (failed_rounds rs (failed_round r st)).
  destruct (failed_round_keeps r st k) as [R1 R2].
  destruct (IH (failed_round r st)) as [I1 I2]. split.
  - intros H. apply I1, R1, H.
  - intros H. cbn in H. unfold touched in H. rewrite bind_app in H.
    apply not_elem_of_app in H as [Ha Hb].
    rewrite I2 by exact Hb. now apply R2.
Qed.

(** What the failure branch does achieve.  When the [PATCH] of
    a flush fails, each entry [k] of the flushed copy [updates] is pending
    again -- with the value that is pending for [k] at that moment if
    there is one, with the flushed value otherwise.  It stays pending
    through any further rounds that fail, and whatever key updates arrive,
    the next flush sends a request that carries [k], with the merged value
    unless a newer one was written. *)
Theorem failed_flush_requeues (st : state)
    (updates : gmap string value)
    (rounds : list (list (Z * batch) * list (Z * batch)))
    (later : list (Z * batch)) (k : string) (v : value) :
  updates !! k = Some v ->
  let st1 := flush_end false updates st in
  let st2 := keys_sets later (failed_rounds rounds st1) in
  pendingKeyUpdates st1 !! k
    = Some (default v (pendingKeyUpdates st !! k))
  /\ keysCache st1 = keysCache st
  /\ exists resent,
       (flush_begin st2).2 = Some resent
       /\ carries (split resent) k
       /\ (k ∉ touched ((rounds ≫= fun r => (r.1 ++ r.2)%list) ++ later) ->
           resent !! k = Some (default v (pendingKeyUpdates st !! k))).
Proof.
  intros Hk st1 st2.
  assert (pendingKeyUpdates st1 !! k
          = Some (default v (pendingKeyUpdates st !! k))) as Hmerge.
  { subst st1. cbn. rewrite lookup_union, Hk.
    now destruct (pendingKeyUpdates st !! k). }
  split; [exact Hmerge|]. split; [reflexivity|].
  destruct (failed_rounds_keeps rounds st1 k) as [R1 R2].
  destruct (keys_sets_keeps later (failed_rounds rounds st1) k) as [K1 K2].
  assert (is_Some (pendingKeyUpdates st2 !! k)) as Hsome.
  { apply K1, R1. rewrite Hmerge. now eexists. }
  assert (pendingKeyUpdates st2 <> ∅) as Hne.
  { intros E. rewrite E, lookup_empty in Hsome. now destruct Hsome. }
  exists (pendingKeyUpdates st2). rewrite (flush_begin_nonempty _ Hne).
  repeat split.
  - now apply carries_split.
  - intros Hu. unfold touched in Hu. rewrite bind_app in Hu.
    apply not_elem_of_app in Hu as [Ha Hb].
    subst st2. rewrite K2 by exact Hb. rewrite R2 by exact Ha. exact Hmerge.
Qed.

Lemma failed_flush_requeues_witness :
  let st1 := flush_end false flushed_example pending_example in
  let st2 := keys_sets later_example (failed_rounds rounds_example st1) in
  pendingKeyUpdates st1 !! "session:x" = Some VNull
  /\ keysCache st1 = keysCache pending_example
  /\ exists resent,
       (flush_begin st2).2 = Some resent
       /\ carries (split resent) "session:x"
       /\ ("session:x" ∉ touched ((rounds_example ≫= fun r => (r.1 ++ r.2)%list)
                                   ++ later_example) ->
           resent !! "session:x" = Some VNull).
Proof.
  exact (failed_flush_requeues pending_example flushed_example rounds_example
           later_example "session:x" VNull eq_refl).
Defined.

End DBAuthStateFacts.

(** ** The timer callback with its requests under way *)

Section FlightsFacts.
Import Codec DBAuthState Flights Examples.

Lemma fire_unarmed (now : Z) (f : flights) :
  keyUpdateTimeout (f_auth f) = None -> fire now f = f.
Proof. intros H. unfold fire. now rewrite H. Qed.

Lemma play_clocks_unarmed (later : list Z) (f : flights) :
  keyUpdateTimeout (f_auth f) = None -> play (map clock later) f = f.
Proof.
  intros H. induction later as [|t r IH]; [reflexivity|].
  cbn [map play foldl step]. rewrite (fire_unarmed t f H). exact IH.
Qed.

Lemma play_app (a b : list event) (f : flights) :
  play (a ++ b)%list f = play b (play a f).
Proof. apply foldl_app. Qed.

(** The [catch] of the timer callback puts the flushed entries back and
    arms no timer: whatever the state, after a failure is handled the
    timer is as it was before. *)
Lemma answer_timer (i : nat) (ok : bool) (f : flights) :
  keyUpdateTimeout (f_auth (answer i ok f)) = keyUpdateTimeout (f_auth f).
Proof.
  unfold answer. destruct (inflight f !! i); [|reflexivity].
  now destruct ok.
Qed.

(** C7 (no key update is dropped on a failed flush).  The claim fails on
    the code: one key update, its [PATCH] fails, and nothing but time
    comes after.  The entry is merged back into the pending map, but the
    failure branch arms no timer, so however long the clock runs the one
    request that failed stays the only one sent, the entry stays pending
    and the store never gets it: it is not retried and not delivered. *)
Theorem failed_flush_not_retried (later : list Z) :
  let f := play (stranded_events ++ map clock later) start in
  sent f = [split {[ "pre-key:1" := wire_old ]}]
  /\ inflight f = []
  /\ pendingKeyUpdates (f_auth f) = {[ "pre-key:1" := wire_old ]}
  /\ keysCache (f_auth f) = {[ "pre-key:1" := wire_old ]}
  /\ keyUpdateTimeout (f_auth f) = None
  /\ stored f = ∅.
Proof.
  cbn zeta. rewrite play_app.
  assert (keyUpdateTimeout (f_auth (play stranded_events start)) = None) as Ht
    by reflexivity.
  rewrite (play_clocks_unarmed later _ Ht).
  repeat split; reflexivity.
Qed.

(** The merged-back value yields only to what is pending when the failure
    is handled.  A newer value of the key that a second flush has
    delivered in the meantime is not pending any more: the older value
    comes back alone, goes out with the next flush and replaces the newer
    one in the store, while the cache holds the newer one. *)
Example late_failure_overwrites_newer :
  let f := play overtaken_events start in
  stored f !! "pre-key:1" = Some wire_old
  /\ keysCache (f_auth f) !! "pre-key:1" = Some wire_new
  /\ pendingKeyUpdates (f_auth f) = ∅
  /\ inflight f = [].
Proof. cbn zeta. repeat split; reflexivity. Qed.

(** With a key update after the failure the retry does happen: the update
    arms the timer, and the request of the flush it schedules carries
    every entry that was merged back, next to the new ones. *)
Lemma failed_flush_retried_after_update (f : flights) (i : nat)
    (updates : gmap string value) (now : Z) (data : batch) (k : string) :
  inflight f !! i = Some updates ->
  keyUpdateTimeout (f_auth f) = None ->
  is_Some (updates !! k) ->
  serializable data = true ->
  let f' := play [response i false; key_update now data; clock (now + 500)] f in
  exists request, sent f' = (sent f ++ [request])%list /\ carries request k.
Proof.
  intros Hi Ht Hk Hser f'. subst f'. cbn [play foldl step].
  set (f1 := answer i false f).
  assert (keyUpdateTimeout (f_auth f1) = None) as Ht1
    by (subst f1; now rewrite answer_timer).
  assert (is_Some (pendingKeyUpdates (f_auth f1) !! k)) as Hp1.
  { subst f1. unfold answer. rewrite Hi. cbn.
    rewrite lookup_union. destruct Hk as [v ->].
    destruct (pendingKeyUpdates (f_auth f) !! k); now eexists. }
  assert (sent f1 = sent f /\ inflight f1 = delete i (inflight f)) as [Hs1 _].
  { subst f1. unfold answer. now rewrite Hi. }
  rewrite (fire_unarmed now f1 Ht1).
  destruct (keys_set_pending now data (f_auth f1) Hser) as (_ & Hto).
  set (st2 := (keys_set now data (f_auth f1)).1) in *.
  assert (is_Some (pendingKeyUpdates st2 !! k)) as Hp2
    by (now apply keys_set_keeps).
  assert (pendingKeyUpdates st2 <> ∅) as Hne.
  { intros E. rewrite E, lookup_empty in Hp2. now destruct Hp2. }
  exists (split (pendingKeyUpdates st2)). split; [|now apply carries_split].
  unfold fire. cbn [f_auth sent inflight stored]. fold st2.
  rewrite Hto. cbv beta iota.
  rewrite Z.leb_refl, (flush_begin_nonempty st2 Hne). cbn [sent].
  now rewrite Hs1.
Qed.

End FlightsFacts.

(** ** The session manager *)

Section SessionsFacts.
Import Codec Sessions Examples.

(** *** The close branch of the [connection.update] handler *)

Lemma shouldReconnect_false (loggedOut forbidden : Z) (code : option Z) :
  shouldReconnect loggedOut forbidden code = false
  <-> terminal_cause loggedOut forbidden code.
Proof.
  unfold shouldReconnect, terminal_cause.
  repeat case_bool_decide; cbn; intuition congruence.
Qed.

Lemma on_open_not_open (userId : string) (u : update) (s : session) (w : world) :
  u_connection u = Some conn_close -> on_open userId u s w = (s, w).
Proof. unfold on_open. now intros ->. Qed.

(** C2 (close-cause classification).  A close event handled for a
    registered session: after a terminal cause (logged out, forbidden, 405)
    the session is disconnected, its handle and phone number are cleared,
    one notice goes to the backend and no timer is set; after any other
    cause the session is reconnecting and exactly one timer is set, 5000 ms
    ahead, for [startSession] of the same user. *)
Theorem close_classification (loggedOut forbidden : Z) (userId : string)
    (u : update) (w : world) (s : session) :
  sessions w !! userId = Some s ->
  u_connection u = Some conn_close ->
  let w' := connection_update loggedOut forbidden userId u w in
  (terminal_cause loggedOut forbidden (statusCode u) ->
     (exists s', sessions w' !! userId = Some s'
                 /\ status s' = Status.disconnected
                 /\ socket s' = None /\ phoneNumber s' = None)
     /\ posts w' = (posts w ++ [notice_disconnected userId
                     (if nonempty (message u) then default "" (message u)
                      else "Unknown error")])%list
     /\ timers w' = timers w)
  /\ (~ terminal_cause loggedOut forbidden (statusCode u) ->
     (exists s', sessions w' !! userId = Some s'
                 /\ status s' = Status.reconnecting)
     /\ timers w' = (timers w ++ [(5000%Z, userId)])%list
     /\ posts w' = posts w).
Proof.
  intros Hs Hc w'. subst w'. unfold connection_update. rewrite Hs.
  unfold on_close. rewrite Hc.
  destruct (shouldReconnect loggedOut forbidden (statusCode u)) eqn:E;
    rewrite on_open_not_open by exact Hc; cbn.
  - split.
    + intros Ht. apply shouldReconnect_false in Ht. congruence.
    + intros _. split; [|split; reflexivity].
      eexists. rewrite lookup_insert_eq. split; reflexivity.
  - split.
    + intros _. split; [|split; reflexivity].
      eexists. rewrite lookup_insert_eq. repeat split.
    + intros Ht. apply shouldReconnect_false in E. contradiction.
Qed.

Lemma close_classification_witness :
  let w' := connection_update 401 403 "u1" logged_out_update connected_world in
  (terminal_cause 401 403 (Some 401%Z) ->
     (exists s', sessions w' !! "u1" = Some s'
                 /\ status s' = Status.disconnected
                 /\ socket s' = None /\ phoneNumber s' = None)
     /\ posts w' = [notice_disconnected "u1" "Intentional Logout"]
     /\ timers w' = [])
  /\ (~ terminal_cause 401 403 (Some 401%Z) ->
     (exists s', sessions w' !! "u1" = Some s'
                 /\ status s' = Status.reconnecting)
     /\ timers w' = [(5000%Z, "u1")]
     /\ posts w' = []).
Proof.
  exact (close_classification 401 403 "u1" logged_out_update connected_world
           connected_session eq_refl eq_refl).
Defined.

(** Without an entry in the registry the handler leaves everything as it
    is. *)
Lemma connection_update_unregistered (loggedOut forbidden : Z)
    (userId : string) (u : update) (w : world) :
  sessions w !! userId = None ->
  connection_update loggedOut forbidden userId u w = w.
Proof. intros H. unfold connection_update. now rewrite H. Qed.

(** A session from its start to a terminal close: pairing image, open
    connection with the phone number, logged out; and a lost connection,
    after which a timer is set. *)
Example session_walk :
  let w1 := (startSession true true "u1" empty_world).1 in
  let w2 := connection_update 401 403 "u1" pairing_update w1 in
  let w3 := connection_update 401 403 "u1" open_update w2 in
  let w4 := connection_update 401 403 "u1" logged_out_update w3 in
  let w5 := connection_update 401 403 "u1" lost_update w3 in
  getSessionStatus "u1" empty_world
    = {| r_status := Status.not_started; r_connected := false;
         r_phoneNumber := None; r_qr := None |}
  /\ getSessionStatus "u1" w1
     = {| r_status := Status.connecting; r_connected := false;
          r_phoneNumber := None; r_qr := None |}
  /\ getSessionStatus "u1" w2
     = {| r_status := Status.qr; r_connected := false;
          r_phoneNumber := None;
          r_qr := Some "data:image/png;base64,iVBOR" |}
  /\ getSessionStatus "u1" w3
     = {| r_status := Status.connected; r_connected := true;
          r_phoneNumber := Some "919876543210"; r_qr := None |}
  /\ posts w3 = [notice_connected "u1" (Some "919876543210")]
  /\ getSessionStatus "u1" w4
     = {| r_status := Status.disconnected; r_connected := false;
          r_phoneNumber := None; r_qr := None |}
  /\ timers w4 = []
  /\ r_status (getSessionStatus "u1" w5) = Status.reconnecting
  /\ timers w5 = [(5000%Z, "u1")].
Proof. repeat split. Qed.

(** *** [startSession] on a session that is connected or pairing *)

Lemma startSession_enter_answer (userId : string) (w : world) (s : session) :
  sessions w !! userId = Some s ->
  (status s = Status.connected ->
     startSession_enter userId w
     = (ensureSessionsDir w, Some (started_connected (phoneNumber s))))
  /\ (forall img, status s = Status.qr -> qrBase64 s = Some img -> img <> "" ->
     startSession_enter userId w = (ensureSessionsDir w, Some (started_qr img))).
Proof.
  intros Hs. unfold startSession_enter. cbn [sessions ensureSessionsDir].
  rewrite Hs. split.
  - now intros ->.
  - intros img -> Hq Hne. rewrite Hq. cbn.
    destruct (String.eqb_spec img ""); [contradiction|reflexivity].
Qed.

(** C4 (idempotent start).  On a connected session [startSession] answers
    with the status and the phone number, on a session in [qr] with a
    cached image it answers with that image; in both cases no protocol
    client is made, the registry, the store, the timers and the notices
    are as before, and calling again gives the same answer and world. *)
Theorem startSession_idempotent (useDBAuth get_ok : bool) (userId : string)
    (w : world) (s : session) :
  sessions w !! userId = Some s ->
  let w' := (startSession useDBAuth get_ok userId w).1 in
  let r := (startSession useDBAuth get_ok userId w).2 in
  (status s = Status.connected ->
     r = started_connected (phoneNumber s)
     /\ untouched w w'
     /\ startSession useDBAuth get_ok userId w' = (w', r))
  /\ (forall img,
       status s = Status.qr -> qrBase64 s = Some img -> img <> "" ->
       r = started_qr img
       /\ untouched w w'
       /\ startSession useDBAuth get_ok userId w' = (w', r)).
Proof.
  intros Hs w' r.
  destruct (startSession_enter_answer userId w s Hs) as [Hc Hq].
  assert (forall a, startSession_enter userId w = (ensureSessionsDir w, Some a) ->
          r = a /\ untouched w w'
          /\ startSession useDBAuth get_ok userId w' = (w', r)) as Hgo.
  { intros a E. subst w' r.
    assert (startSession_enter userId (ensureSessionsDir w)
            = (ensureSessionsDir w, Some a)) as E' by exact E.
    unfold startSession. rewrite E. cbn [fst snd]. rewrite E'.
    repeat split. }
  split.
  - intros St. apply Hgo, Hc, St.
  - intros img St Q Hne. apply Hgo. now apply Hq.
Qed.

Lemma startSession_idempotent_witness :
  let w' := (startSession true true "u1" connected_world).1 in
  let r := (startSession true true "u1" connected_world).2 in
  (status connected_session = Status.connected ->
     r = started_connected (phoneNumber connected_session)
     /\ untouched connected_world w'
     /\ startSession true true "u1" w' = (w', r))
  /\ (forall img,
       status connected_session = Status.qr ->
       qrBase64 connected_session = Some img -> img <> "" ->
       r = started_qr img
       /\ untouched connected_world w'
       /\ startSession true true "u1" w' = (w', r)).
Proof.
  exact (startSession_idempotent true true "u1" connected_world
           connected_session eq_refl).
Defined.

(** The same for the session that shows a pairing image. *)
Example startSession_pairing :
  startSession true true "u1" pairing_world
  = (pairing_world, started_qr "data:image/png;base64,iVBOR").
Proof. reflexivity. Qed.

(** *** [disconnectSession] without an active session *)



(** *** [sendMessage] *)

Lemma alter_at {A} (f : A -> A) (l : list A) (k : nat) (c : A) :
  l !! k = Some c -> alter f k l = <[k := f c]> l.
Proof.
  revert k. induction l as [|x r IH]; intros [|k] H; try discriminate.
  - injection H as ->. reflexivity.
  - cbn. f_equal. now apply IH.
Qed.

Lemma includes_at_spec (s : string) :
  includes_at s = true <-> exists p q, s = p +:+ String "@" q.
Proof.
  induction s as [|c r IH]; cbn.
  - split; [discriminate|]. intros ([|? ?] & q & H); discriminate.
  - rewrite orb_true_iff, IH. split.
    + intros [H|(p & q & ->)].
      * apply Ascii.eqb_eq in H as ->. now exists "", r.
      * now exists (String c p), q.
    + intros ([|c' p] & q & H); cbn in H; injection H as -> ->.
      * left. apply Ascii.eqb_refl.
      * right. now exists p, q.
Qed.




(** *** Starting without an entry in the registry *)

Lemma db_auth_purged (get_ok : bool) (userId : string) (w : world) :
  store w !! userId = None -> db_auth get_ok userId w = None.
Proof.
  intros H. unfold db_auth, Backend.load. rewrite H. now destruct get_ok.
Qed.

Lemma startSession_absent (useDBAuth get_ok : bool) (userId : string)
    (w : world) :
  sessions w !! userId = None ->
  startSession useDBAuth get_ok userId w
  = (startSession_resume useDBAuth get_ok userId (ensureSessionsDir w),
     started_connecting).
Proof.
  intros H. unfold startSession, startSession_enter.
  cbn [sessions ensureSessionsDir]. now rewrite H.
Qed.

(** What [startSession_resume] leaves: a new client at the end of the
    table, open and with the credentials of the auth state, and an entry
    in status [connecting] that holds its handle. *)
Lemma startSession_resume_spec (useDBAuth get_ok : bool) (userId : string)
    (w : world) :
  let w' := startSession_resume useDBAuth get_ok userId w in
  let auth := if useDBAuth then db_auth get_ok userId w
              else (file_auth userId w).2 in
  clients w' = (clients w ++ [{| owner := userId; seed := auth;
                                closed := None; sends := [] |}])%list
  /\ sessions w'
     = <[userId := {| socket := Some (length (clients w)); qr := None;
                      qrBase64 := None; status := Status.connecting;
                      phoneNumber := None |}]> (sessions w)
  /\ store w' = store w /\ timers w' = timers w /\ posts w' = posts w
  /\ sessionsDir w' = sessionsDir w
  /\ dirs w' = if useDBAuth then dirs w else dirs (file_auth userId w).1.
Proof.
  unfold startSession_resume. destruct useDBAuth.
  - repeat split.
  - unfold file_auth. destruct (dirs w !! userId); repeat split.
Qed.

(** *** [logoutSession] *)

Lemma drop_credentials_spec (useDBAuth delete_ok : bool) (userId : string)
    (w : world) :
  let w' := drop_credentials useDBAuth delete_ok userId w in
  sessions w' = sessions w /\ clients w' = clients w
  /\ timers w' = timers w /\ posts w' = posts w
  /\ sessionsDir w' = sessionsDir w
  /\ store w' = (if useDBAuth && delete_ok
                 then Backend.purge (store w) userId else store w)
  /\ dirs w' = (if useDBAuth then dirs w else delete userId (dirs w)).
Proof.
  unfold drop_credentials, deleteDBAuth.
  destruct useDBAuth, delete_ok; repeat split.
Qed.

(** A [logoutSession] that returns has removed the entry of the registry
    and has gone through [drop_credentials]. *)
Lemma logoutSession_returns (useDBAuth logout_raises delete_ok : bool)
    (userId : string) (w w' : world) (m : done_message) :
  logoutSession useDBAuth logout_raises delete_ok userId w = (w', Ok m) ->
  exists w0,
    w' = drop_credentials useDBAuth delete_ok userId
           (with_sessions (delete userId (sessions w0)) w0)
    /\ sessions w0 = sessions w /\ store w0 = store w /\ dirs w0 = dirs w
    /\ length (clients w0) = length (clients w).
Proof.
  unfold logoutSession.
  destruct (sessions w !! userId ≫= socket) as [k|].
  - destruct logout_raises; [discriminate|]. intros H. injection H as <- _.
    exists (socket_logout k w). repeat split. cbn. apply length_alter.
  - intros H. injection H as <- _. exists w. repeat split.
Qed.

(** C5 (logout purges durable state).  After a [logoutSession] that
    returns, the registry holds no entry for the user; when the [DELETE]
    of the store succeeded (or the file fallback is in use) no durable
    credentials are left -- the store has no row, a load reports
    [has_credentials = false], the directory is gone -- and the next
    [startSession] makes its client from fresh credentials, so the device
    has to be paired again. *)
Theorem logoutSession_purges (useDBAuth logout_raises delete_ok get_ok : bool)
    (userId : string) (w w' : world) (m : done_message) :
  logoutSession useDBAuth logout_raises delete_ok userId w = (w', Ok m) ->
  (useDBAuth = true -> delete_ok = true) ->
  sessions w' !! userId = None
  /\ (if useDBAuth
      then store w' !! userId = None
           /\ Backend.has_credentials (Backend.load (store w') userId) = false
      else dirs w' !! userId = None)
  /\ (startSession useDBAuth get_ok userId w').2 = started_connecting
  /\ exists c,
       clients (startSession useDBAuth get_ok userId w').1
         !! length (clients w') = Some c
       /\ owner c = userId /\ seed c = None /\ closed c = None.
Proof.
  intros Hrun Hok.
  destruct (logoutSession_returns _ _ _ _ _ _ _ Hrun)
    as (w0 & -> & Hs & Hst & Hd & _).
  set (w1 := with_sessions (delete userId (sessions w0)) w0).
  destruct (drop_credentials_spec useDBAuth delete_ok userId w1)
    as (Ds & Dc & _ & _ & _ & Dst & Dd).
  set (w' := drop_credentials useDBAuth delete_ok userId w1) in *.
  assert (sessions w' !! userId = None) as Hnone.
  { rewrite Ds. apply lookup_delete_eq. }
  assert (if useDBAuth then store w' !! userId = None
          else dirs w' !! userId = None) as Hgone.
  { destruct useDBAuth.
    - rewrite Dst, (Hok eq_refl). cbn. apply lookup_delete_eq.
    - rewrite Dd. apply lookup_delete_eq. }
  split; [exact Hnone|]. split.
  { destruct useDBAuth; [|exact Hgone]. split; [exact Hgone|].
    unfold Backend.load. now rewrite Hgone. }
  rewrite (startSession_absent _ _ _ _ Hnone). cbn [fst snd].
  split; [reflexivity|].
  destruct (startSession_resume_spec useDBAuth get_ok userId
              (ensureSessionsDir w')) as (Rc & _).
  rewrite Rc. cbn [clients ensureSessionsDir].
  eexists. rewrite lookup_app_r, Nat.sub_diag by reflexivity.
  split; [reflexivity|]. cbn. repeat split.
  destruct useDBAuth.
  - now apply db_auth_purged.
  - unfold file_auth. cbn [dirs ensureSessionsDir]. now rewrite Hgone.
Qed.

Lemma logoutSession_purges_witness :
  sessions (logoutSession true false true "u1" connected_world).1 !! "u1" = None
  /\ (store (logoutSession true false true "u1" connected_world).1 !! "u1" = None
      /\ Backend.has_credentials
           (Backend.load
              (store (logoutSession true false true "u1" connected_world).1)
              "u1") = false)
  /\ (startSession true true "u1"
        (logoutSession true false true "u1" connected_world).1).2
     = started_connecting
  /\ exists c,
       clients (startSession true true "u1"
                  (logoutSession true false true "u1" connected_world).1).1
         !! length (clients (logoutSession true false true "u1" connected_world).1)
       = Some c
       /\ owner c = "u1" /\ seed c = None /\ closed c = None.
Proof.
  exact (logoutSession_purges true false true true "u1" connected_world
           _ logged_out eq_refl (fun _ => eq_refl)).
Defined.

(** C5 as it is stated fails where the [DELETE] fails: [deleteDBAuth]
    logs the error and answers [false], [logoutSession] does not look at
    the answer and returns, and the store still reports credentials. *)
Lemma logoutSession_keeps_credentials :
  logoutSession true false false "u1" connected_world
  = (with_clients
       [ {| owner := "u1"; seed := None; closed := Some by_logout; sends := [] |} ]
       (with_sessions ∅ connected_world), Ok logged_out)
  /\ ~ (forall useDBAuth logout_raises delete_ok userId w w' m,
          logoutSession useDBAuth logout_raises delete_ok userId w = (w', Ok m) ->
          Backend.has_credentials (Backend.load (store w') userId) = false).
Proof.
  split.
  - vm_compute. reflexivity.
  - intros H.
    specialize (H true false false "u1" connected_world _ _ eq_refl).
    discriminate H.
Qed.

(** *** [resetSession] *)

Lemma closed_or_not_alter (h h' : closing) (k : nat) (l : list client) :
  map (fun c => (owner c, seed c, bool_decide (closed c = None), sends c))
    (alter (close_client h) k l)
  = map (fun c => (owner c, seed c, bool_decide (closed c = None), sends c))
      (alter (close_client h') k l).
Proof.
  revert k. induction l as [|c r IH]; intros [|k]; cbn; try reflexivity.
  - f_equal. unfold close_client. cbn. now destruct (closed c).
  - f_equal. apply IH.
Qed.

Lemma alike_closing (k : nat) (w : world) :
  alike (socket_logout k w) (socket_end k w).
Proof. repeat split. apply closed_or_not_alter. Qed.

Lemma alike_length (a b : world) :
  alike a b -> length (clients a) = length (clients b).
Proof.
  intros (_ & _ & _ & _ & _ & _ & H). apply (f_equal length) in H.
  unfold closed_or_not in H. now rewrite !length_map in H.
Qed.

Lemma alike_unregister (userId : string) (a b : world) :
  alike a b ->
  alike (with_sessions (delete userId (sessions a)) a)
        (with_sessions (delete userId (sessions b)) b).
Proof.
  unfold alike, closed_or_not. cbn.
  intros (-> & ? & ? & ? & ? & ? & ?). repeat split; assumption.
Qed.

Lemma alike_drop (useDBAuth delete_ok : bool) (userId : string) (a b : world) :
  alike a b ->
  alike (drop_credentials useDBAuth delete_ok userId a)
        (drop_credentials useDBAuth delete_ok userId b).
Proof.
  unfold alike, closed_or_not, drop_credentials, deleteDBAuth.
  intros (Hs & Hst & Hd & ? & ? & ? & ?).
  destruct useDBAuth, delete_ok; cbn; rewrite ?Hst, ?Hd;
    repeat split; assumption.
Qed.

Lemma alike_ensure (a b : world) :
  alike a b -> alike (ensureSessionsDir a) (ensureSessionsDir b).
Proof.
  unfold alike, closed_or_not. cbn.
  intros (? & ? & ? & ? & ? & ? & ?). repeat split; assumption.
Qed.

Lemma alike_resume (useDBAuth get_ok : bool) (userId : string) (a b : world) :
  alike a b ->
  alike (startSession_resume useDBAuth get_ok userId a)
        (startSession_resume useDBAuth get_ok userId b).
Proof.
  intros H. pose proof (alike_length a b H) as Hlen.
  destruct H as (Hs & Hst & Hd & Hdir & Ht & Hp & Hc).
  destruct (startSession_resume_spec useDBAuth get_ok userId a)
    as (Ac & As & Ast & At & Ap & Adir & Ad).
  destruct (startSession_resume_spec useDBAuth get_ok userId b)
    as (Bc & Bs & Bst & Bt & Bp & Bdir & Bd).
  assert ((if useDBAuth then db_auth get_ok userId a else (file_auth userId a).2)
          = (if useDBAuth then db_auth get_ok userId b else (file_auth userId b).2)
          /\ dirs (file_auth userId a).1 = dirs (file_auth userId b).1)
    as [Hauth Hfd].
  { unfold db_auth, file_auth. rewrite Hst, Hd.
    destruct useDBAuth, (dirs b !! userId); cbn; split; congruence. }
  repeat split; try congruence.
  - rewrite Ad, Bd. destruct useDBAuth; congruence.
  - unfold closed_or_not in *. rewrite Ac, Bc, !map_app, Hc. cbn.
    now rewrite Hauth.
Qed.

Lemma unregistered_after_drop (useDBAuth delete_ok : bool) (userId : string)
    (w : world) :
  sessions (drop_credentials useDBAuth delete_ok userId
              (with_sessions (delete userId (sessions w)) w)) !! userId = None.
Proof.
  destruct (drop_credentials_spec useDBAuth delete_ok userId
              (with_sessions (delete userId (sessions w)) w)) as (-> & _).
  apply lookup_delete_eq.
Qed.

(** Apart from the way the prior client is closed, [resetSession] and a
    [logoutSession] that returns followed by [startSession] leave the same
    world and give the same answer. *)
Lemma reset_vs_logout (useDBAuth delete_ok get_ok : bool) (userId : string)
    (w : world) :
  (logout_then_start useDBAuth false delete_ok get_ok userId w).2
    = Ok (resetSession useDBAuth delete_ok get_ok userId w).2
  /\ alike (logout_then_start useDBAuth false delete_ok get_ok userId w).1
           (resetSession useDBAuth delete_ok get_ok userId w).1.
Proof.
  unfold resetSession, logout_then_start, logoutSession.
  destruct (sessions w !! userId ≫= socket) as [k|].
  - rewrite !startSession_absent by apply unregistered_after_drop.
    split; [reflexivity|]. cbn [fst].
    apply alike_resume, alike_ensure, alike_drop, alike_unregister,
      alike_closing.
  - rewrite !startSession_absent by apply unregistered_after_drop.
    split; [reflexivity|]. cbn [fst].
    repeat split.
Qed.

(** C8 (reset and logout followed by start).  [resetSession] closes the
    client of the prior session with [end()], replaces the entry of the
    registry by a new one in status [connecting] whose client is the next
    of the table, and answers 'connecting'.  When the [DELETE] of the
    store succeeded (or the file fallback is in use) the store has no row
    for the user and the new client starts from fresh credentials, so it
    has to be paired.  The answer and the world are those of a
    [logoutSession] that returns followed by [startSession], apart from
    the way the prior client was closed. *)
Theorem resetSession_effect (useDBAuth delete_ok get_ok : bool)
    (userId : string) (w : world) :
  let w' := (resetSession useDBAuth delete_ok get_ok userId w).1 in
  (resetSession useDBAuth delete_ok get_ok userId w).2 = started_connecting
  /\ sessions w' !! userId
     = Some {| socket := Some (length (clients w)); qr := None;
               qrBase64 := None; status := Status.connecting;
               phoneNumber := None |}
  /\ (forall k c,
       sessions w !! userId ≫= socket = Some k -> clients w !! k = Some c ->
       clients w' !! k = Some (close_client by_end c))
  /\ ((useDBAuth = true -> delete_ok = true) ->
      (useDBAuth = true -> store w' !! userId = None)
      /\ exists c,
           clients w' !! length (clients w) = Some c
           /\ owner c = userId /\ seed c = None /\ closed c = None)
  /\ (logout_then_start useDBAuth false delete_ok get_ok userId w).2
     = Ok started_connecting
  /\ alike (logout_then_start useDBAuth false delete_ok get_ok userId w).1 w'.
Proof.
  intros w'. subst w'.
  destruct (reset_vs_logout useDBAuth delete_ok get_ok userId w) as [Er Ea].
  set (w0 := match sessions w !! userId ≫= socket with
             | Some k => socket_end k w
             | None => w
             end).
  set (w1 := with_sessions (delete userId (sessions w0)) w0).
  set (w2 := drop_credentials useDBAuth delete_ok userId w1).
  assert (resetSession useDBAuth delete_ok get_ok userId w
          = (startSession_resume useDBAuth get_ok userId (ensureSessionsDir w2),
             started_connecting)) as E.
  { unfold resetSession. fold w0. fold w1. fold w2.
    apply startSession_absent, unregistered_after_drop. }
  assert (clients w0 = match sessions w !! userId ≫= socket with
                       | Some k => alter (close_client by_end) k (clients w)
                       | None => clients w
                       end) as Hc0.
  { subst w0. now destruct (sessions w !! userId ≫= socket). }
  assert (store w0 = store w /\ dirs w0 = dirs w) as [Hst0 Hd0].
  { subst w0. now destruct (sessions w !! userId ≫= socket). }
  assert (length (clients w0) = length (clients w)) as Hlen.
  { rewrite Hc0. destruct (sessions w !! userId ≫= socket);
      [apply length_alter|reflexivity]. }
  destruct (drop_credentials_spec useDBAuth delete_ok userId w1)
    as (Ds & Dc & _ & _ & _ & Dst & Dd). fold w2 in Ds, Dc, Dst, Dd.
  destruct (startSession_resume_spec useDBAuth get_ok userId
              (ensureSessionsDir w2)) as (Rc & Rs & Rst & _ & _ & _ & _).
  cbn [clients sessions store ensureSessionsDir] in Rc, Rs, Rst.
  rewrite Dc in Rc, Rs. change (clients w1) with (clients w0) in Rc, Rs.
  rewrite E in Er, Ea |- *. cbn [fst snd] in Er, Ea |- *.
  split; [reflexivity|]. split.
  { rewrite Rs, Hlen. apply lookup_insert_eq. }
  split.
  { intros k c Hk Hc. rewrite Rc, Hc0, Hk.
    rewrite lookup_app_l by (rewrite length_alter; now apply lookup_lt_Some in Hc).
    rewrite (alter_at _ _ _ _ Hc).
    apply list_lookup_insert_eq. now apply lookup_lt_Some in Hc. }
  split; [|split; [exact Er|exact Ea]].
  intros Hok.
  assert (if useDBAuth then store w2 !! userId = None
          else dirs w2 !! userId = None) as Hgone.
  { destruct useDBAuth.
    - rewrite Dst, (Hok eq_refl). cbn. apply lookup_delete_eq.
    - rewrite Dd. apply lookup_delete_eq. }
  split.
  { intros ->. now rewrite Rst. }
  rewrite Rc, <- Hlen. eexists.
  rewrite lookup_app_r, Nat.sub_diag by reflexivity.
  split; [reflexivity|]. cbn. repeat split.
  destruct useDBAuth.
  - now apply db_auth_purged.
  - unfold file_auth. cbn [dirs ensureSessionsDir]. now rewrite Hgone.
Qed.

(** C8 as it is stated fails on a session with a socket: [resetSession]
    calls [end()] on it where [logoutSession] calls [logout()], so the two
    leave the protocol client in different states.  And where the [DELETE]
    fails, the new client is made from the credentials still in the
    store. *)
Lemma resetSession_is_not_logout :
  (clients (resetSession true true true "u1" connected_world).1 !! 0%nat
     ≫= closed = Some by_end
   /\ clients (logout_then_start true false true true "u1" connected_world).1
        !! 0%nat ≫= closed = Some by_logout)
  /\ ~ (forall useDBAuth delete_ok get_ok userId w,
          (logout_then_start useDBAuth false delete_ok get_ok userId w).1
          = (resetSession useDBAuth delete_ok get_ok userId w).1)
  /\ clients (resetSession true false true "u1" connected_world).1 !! 1%nat
       ≫= seed = Some (VObj [("me", VStr "919876543210")]).
Proof.
  split; [split; reflexivity|]. split; [|reflexivity].
  intros H. specialize (H true true true "u1" connected_world).
  apply (f_equal (fun w => clients w !! 0%nat ≫= closed)) in H.
  discriminate H.
Qed.

(** *** One live handle per user *)

Lemma elem_of_live_handles (k : nat) (userId : string) (w : world) :
  k ∈ live_handles userId w
  <-> exists c, clients w !! k = Some c /\ owner c = userId /\ closed c = None.
Proof.
  unfold live_handles. rewrite list_elem_of_fmap. split.
  - intros (kc & Ek & H). apply list_elem_of_filter in H as [[Ho Hc] H].
    apply elem_of_lookup_imap in H as (i & c' & E & Hl).
    subst kc. cbn in *. subst k. now exists c'.
  - intros (c & Hl & Ho & Hc). exists (k, c). split; [reflexivity|].
    apply list_elem_of_filter. split; [now split|].
    apply elem_of_lookup_imap. now exists k, c.
Qed.

Lemma live_handles_ensure (userId : string) (w : world) :
  live_handles userId (ensureSessionsDir w) = live_handles userId w.
Proof. reflexivity. Qed.

(** After [end()] on [k] the handle [k] is not live, and no other handle
    has become live. *)
Lemma live_handles_end (k k' : nat) (userId : string) (w : world) :
  k' ∈ live_handles userId (socket_end k w) ->
  k' <> k /\ k' ∈ live_handles userId w.
Proof.
  rewrite !elem_of_live_handles. cbn. intros (c & Hl & Ho & Hc).
  destruct (decide (k' = k)) as [->|Hne].
  - exfalso. destruct (clients w !! k) as [c0|] eqn:E.
    + rewrite (alter_at _ _ _ _ E) in Hl.
      rewrite list_lookup_insert_eq in Hl by (now apply lookup_lt_Some in E).
      injection Hl as <-. cbn in Hc. now destruct (closed c0).
    + apply lookup_lt_Some in Hl. rewrite length_alter in Hl.
      apply lookup_ge_None in E. lia.
  - split; [exact Hne|]. exists c. repeat split; try assumption.
    now rewrite list_lookup_alter_ne in Hl by congruence.
Qed.

(** After [startSession_resume] the live handles are the ones from before
    and the new one, which the registry holds. *)
Lemma live_handles_resume (useDBAuth get_ok : bool) (k : nat)
    (userId : string) (w : world) :
  k ∈ live_handles userId (startSession_resume useDBAuth get_ok userId w) ->
  k ∈ live_handles userId w \/ k = length (clients w).
Proof.
  destruct (startSession_resume_spec useDBAuth get_ok userId w) as (Rc & _).
  rewrite !elem_of_live_handles. rewrite Rc. intros (c & Hl & Ho & Hc).
  destruct (decide (k < length (clients w))) as [Hlt|Hge].
  - left. rewrite lookup_app_l in Hl by exact Hlt. now exists c.
  - right. apply lookup_lt_Some in Hl. rewrite length_app in Hl. cbn in Hl. lia.
Qed.

Lemma registered_after_resume (useDBAuth get_ok : bool) (userId : string)
    (w : world) :
  sessions (startSession_resume useDBAuth get_ok userId w) !! userId ≫= socket
  = Some (length (clients w)).
Proof.
  destruct (startSession_resume_spec useDBAuth get_ok userId w)
    as (_ & -> & _).
  now rewrite lookup_insert_eq.
Qed.

(** A [startSession] that runs by itself keeps the handles of a user in
    step with the registry: when every live handle of the user was the one
    in the user's entry before the call, the same holds after it, and in
    between -- after the old socket was ended, before the new client is
    made -- the user has no live handle at all. *)
Lemma startSession_one_handle (useDBAuth get_ok : bool) (userId : string)
    (w : world) :
  (forall k, k ∈ live_handles userId w ->
             sessions w !! userId ≫= socket = Some k) ->
  (forall w1, startSession_enter userId w = (w1, None) ->
              live_handles userId w1 = [])
  /\ (forall k, k ∈ live_handles userId (startSession useDBAuth get_ok userId w).1 ->
       sessions (startSession useDBAuth get_ok userId w).1 !! userId ≫= socket
       = Some k).
Proof.
  intros Hinv.
  assert (forall w1, startSession_enter userId w = (w1, None) ->
                     live_handles userId w1 = []) as Hmid.
  { intros w1 E. apply elem_of_nil_inv. intros k Hk.
    unfold startSession_enter in E. cbn [sessions ensureSessionsDir] in E.
    destruct (sessions w !! userId) as [s|] eqn:Hs.
    - destruct (status s);
        try (destruct (nonempty (qrBase64 s)); [discriminate|]);
        try discriminate;
        (destruct (socket s) as [k0|] eqn:Hk0; injection E as <-;
         [ apply live_handles_end in Hk as [Hne Hk];
           rewrite live_handles_ensure in Hk;
           apply Hinv in Hk; cbn in Hk; congruence
         | rewrite live_handles_ensure in Hk;
           apply Hinv in Hk; cbn in Hk; congruence ]).
    - injection E as <-. rewrite live_handles_ensure in Hk.
      apply Hinv in Hk. discriminate Hk. }
  split; [exact Hmid|].
  unfold startSession.
  destruct (startSession_enter userId w) as [w1 [answer|]] eqn:E; cbn [fst].
  - assert (w1 = ensureSessionsDir w) as ->.
    { unfold startSession_enter in E. cbn [sessions ensureSessionsDir] in E.
      destruct (sessions w !! userId) as [s|]; [|discriminate].
      destruct (status s);
        try (destruct (nonempty (qrBase64 s)); [now injection E|]);
        try (now injection E);
        destruct (socket s); discriminate. }
    intros k Hk. rewrite live_handles_ensure in Hk. now apply Hinv.
  - intros k Hk. rewrite registered_after_resume.
    apply live_handles_resume in Hk as [Hk | ->]; [|reflexivity].
    rewrite (Hmid w1 eq_refl) in Hk. now apply elem_of_nil in Hk.
Qed.

(** C3 (at most one live handle per user), for two calls that overlap.
    The session of [u1] is connecting when both calls enter, each of them
    ends the socket the registry holds and waits for its auth state; then
    each makes a protocol client.  The registry holds the second client,
    the first is never ended: [u1] has two live handles. *)
Theorem overlapping_starts_two_handles :
  (exists s, sessions connecting_world !! "u1" = Some s
             /\ status s = Status.connecting /\ socket s = Some 0%nat)
  /\ live_handles "u1" connecting_world = [0%nat]
  /\ (startSession_enter "u1" connecting_world).2 = None
  /\ (startSession_enter "u1" (startSession_enter "u1" connecting_world).1).2
     = None
  /\ live_handles "u1" (overlapping_starts connecting_world) = [1%nat; 2%nat]
  /\ sessions (overlapping_starts connecting_world) !! "u1" ≫= socket
     = Some 2%nat.
Proof.
  split; [eexists; split; [reflexivity|split; reflexivity]|].
  repeat split; vm_compute; reflexivity.
Qed.

End SessionsFacts.

(** * Further properties *)

(** ** The codec, beyond the round trip *)

Section WireFacts.
Import Codec Wire Examples.

Lemma roundtrip_faithful_witness : roundtrip creds_example = Some creds_example.
Proof. apply (roundtrip_faithful creds_example). reflexivity. Defined.

(** A plain typed array is encoded like a buffer and comes back as a
    buffer of the same bytes. *)
Theorem roundtrip_typed_array (bs : list byte) :
  bs <> [] ->
  serializeData (VUint8Array bs) = serializeData (VBuffer bs)
  /\ roundtrip (VUint8Array bs) = Some (VBuffer bs).
Proof.
  intros Hne. rewrite <- (roundtrip_buffer bs Hne).
  unfold roundtrip. rewrite serializeData_buffer. now split.
Qed.

Lemma roundtrip_typed_array_witness :
  serializeData (VUint8Array ["001"%byte]) = serializeData (VBuffer ["001"%byte])
  /\ roundtrip (VUint8Array ["001"%byte]) = Some (VBuffer ["001"%byte]).
Proof. apply (roundtrip_typed_array ["001"%byte]). discriminate. Defined.

(** What serializes to a string is that string, and what serializes to
    [null] is [null]. *)
Lemma serializeData_prim (v s : value) :
  serializeData v = Some s ->
  (forall t, s = VStr t -> v = VStr t) /\ (s = VNull -> v = VNull).
Proof.
  assert (forall x y : value, Some x = Some y ->
            (forall t, x = VStr t -> False) -> x <> VNull ->
            (forall t, y = VStr t -> v = VStr t) /\ (y = VNull -> v = VNull))
    as Hother.
  { intros x y [= <-] Hs Hn. split; [intros t E; destruct (Hs t E)|].
    intros E. contradiction. }
  intros H.
  destruct v as [ | b | n | t | bs | bs | items | props ].
  - injection H as <-. split; [discriminate|reflexivity].
  - apply (Hother _ _ H); discriminate.
  - apply (Hother _ _ H); discriminate.
  - injection H as <-. split; [intros t' E; exact E|discriminate].
  - rewrite serializeData_buffer in H. apply (Hother _ _ H); discriminate.
  - change (serializeData (VUint8Array bs))
      with (Some (tagged (VStr (Base64.encode bs)))) in H.
    apply (Hother _ _ H); discriminate.
  - change (serializeData (VArr items))
      with (VArr <$> mapM serializeData items) in H.
    destruct (mapM serializeData items); cbn in H; [|discriminate].
    apply (Hother _ _ H); discriminate.
  - cbn [serializeData toJSON] in H.
    destruct (BufferJSON.replacer_applies (VObj props)) eqn:E.
    + unfold BufferJSON.replacer in H. rewrite E in H.
      destruct (Buffer_from _ _); cbn in H; [|discriminate].
      apply (Hother _ _ H); discriminate.
    + destruct (mapM _ props); cbn in H; [|discriminate].
      apply (Hother _ _ H); discriminate.
Qed.

Lemma prop_mapM (f : value -> option value) (props props' : list (string * value))
    (k : string) :
  mapM (fun kv => pair kv.1 <$> f kv.2) props = Some props' ->
  prop k props' = prop k props ≫= f.
Proof.
  revert props'. induction props as [|[k0 x] r IH]; intros props' H.
  - injection H as <-. reflexivity.
  - cbn in H. destruct (f x) as [y|] eqn:Ey; [|discriminate]. cbn in H.
    destruct (mapM _ r) as [r'|]; [|discriminate]. cbn in H.
    injection H as <-. cbn. destruct (String.eqb k k0).
    + cbn. now rewrite Ey.
    + now apply IH.
Qed.

Lemma mapM_Forall (f : value -> option value) (P : value -> Prop)
    (items items' : list value) :
  mapM f items = Some items' ->
  Forall (fun x => forall y, f x = Some y -> P y) items ->
  Forall P items'.
Proof.
  revert items'. induction items as [|x r IH]; intros items' H Hall.
  - injection H as <-. constructor.
  - cbn in H. destruct (f x) as [y|] eqn:Ey; [|discriminate]. cbn in H.
    destruct (mapM f r) as [r'|]; [|discriminate]. cbn in H.
    injection H as <-. inversion Hall as [|? ? Hx Hr]; subst.
    constructor; [now apply Hx|now apply IH].
Qed.

Lemma mapM_props_Forall (f : value -> option value) (P : value -> Prop)
    (props props' : list (string * value)) :
  mapM (fun kv => pair kv.1 <$> f kv.2) props = Some props' ->
  Forall (fun kv => forall y, f kv.2 = Some y -> P y) props ->
  Forall (fun kv => P kv.2) props'.
Proof.
  revert props'. induction props as [|[k x] r IH]; intros props' H Hall.
  - injection H as <-. constructor.
  - cbn in H. destruct (f x) as [y|] eqn:Ey; [|discriminate]. cbn in H.
    destruct (mapM _ r) as [r'|]; [|discriminate]. cbn in H.
    injection H as <-. inversion Hall as [|? ? Hx Hr]; subst.
    constructor; [now apply Hx|now apply IH].
Qed.

Lemma forallb_Forall_wire (items : list value) :
  Forall (fun x => wire x = true) items -> forallb wire items = true.
Proof. induction 1; cbn; [reflexivity|]. now apply andb_true_iff. Qed.

Lemma forallb_Forall_wire_props (props : list (string * value)) :
  Forall (fun kv => wire kv.2 = true) props ->
  forallb (fun kv => wire kv.2) props = true.
Proof. induction 1; cbn; [reflexivity|]. now apply andb_true_iff. Qed.

(** What [serializeData] returns is plain JSON: no buffer and no typed
    array is left in it, and each object tagged [type: 'Buffer'] carries a
    string under [data]. *)
Theorem serializeData_wire (v s : value) :
  serializeData v = Some s -> wire s = true.
Proof.
  revert s.
  induction v as [ | b | n | t | bs | bs | items IH | props IH ]
    using value_ind; intros s H.
  - now injection H as <-.
  - now injection H as <-.
  - now injection H as <-.
  - now injection H as <-.
  - rewrite serializeData_buffer in H. now injection H as <-.
  - change (serializeData (VUint8Array bs))
      with (Some (tagged (VStr (Base64.encode bs)))) in H.
    now injection H as <-.
  - change (serializeData (VArr items))
      with (VArr <$> mapM serializeData items) in H.
    destruct (mapM serializeData items) as [items'|] eqn:E; [|discriminate].
    injection H as <-. cbn.
    apply forallb_Forall_wire.
    now apply (mapM_Forall _ (fun y => wire y = true) _ _ E).
  - cbn [serializeData toJSON] in H.
    destruct (BufferJSON.replacer_applies (VObj props)) eqn:Ea.
    + unfold BufferJSON.replacer in H. rewrite Ea in H.
      destruct (Buffer_from _ _); [|discriminate]. now injection H as <-.
    + destruct (mapM _ props) as [props'|] eqn:E; [|discriminate].
      injection H as <-. cbn [wire].
      apply andb_true_iff. split.
      * rewrite replacer_applies_obj in Ea.
        rewrite (prop_mapM _ _ _ _ E).
        destruct (prop "type" props) as [x|]; [|reflexivity]. cbn.
        destruct (serializeData x) as [y|] eqn:Ex; [|reflexivity]. cbn.
        destruct y; try reflexivity.
        destruct (serializeData_prim _ _ Ex) as [Hs _].
        rewrite (Hs _ eq_refl) in Ea. cbn in Ea. cbn. now rewrite Ea.
      * apply forallb_Forall_wire_props.
        now apply (mapM_props_Forall _ (fun y => wire y = true) _ _ E).
Qed.

Lemma serializeData_wire_witness :
  wire (VObj [("k", tagged (VStr "AQI=")); ("n", VArr [VNum 1])]) = true.
Proof.
  apply (serializeData_wire
           (VObj [("k", VBuffer ["001"%byte; "002"%byte]); ("n", VArr [VNum 1])])).
  reflexivity.
Defined.

(** The reviver returns its argument or a buffer. *)
Lemma reviver_result (v r : value) :
  BufferJSON.reviver v = Some r -> r = v \/ exists bs, r = VBuffer bs.
Proof.
  unfold BufferJSON.reviver.
  destruct (_ && _ && _).
  - destruct (Buffer_from _ _) as [bs|]; [|discriminate].
    intros [= <-]. right. now exists bs.
  - intros [= <-]. now left.
Qed.

Lemma deserializeData_str (x : value) (t : string) :
  deserializeData x = Some (VStr t) -> x = VStr t.
Proof.
  assert (forall v, BufferJSON.reviver v = Some (VStr t) -> v = VStr t) as Hr.
  { intros v H. apply reviver_result in H as [H|[? H]];
      [now symmetry|discriminate]. }
  destruct x as [ | b | n | t' | bs | bs | items | props ];
    cbn [deserializeData]; intros H.
  - apply Hr in H. discriminate.
  - apply Hr in H. discriminate.
  - apply Hr in H. discriminate.
  - now apply Hr in H.
  - apply Hr in H. discriminate.
  - apply Hr in H. discriminate.
  - destruct (mapM deserializeData items); [|discriminate].
    cbn [mbind option_bind] in H. apply Hr in H. discriminate.
  - destruct (mapM _ props); [|discriminate].
    cbn [mbind option_bind] in H. apply Hr in H. discriminate.
Qed.

Lemma mapM_is_Some (f : value -> option value) (items : list value) :
  Forall (fun x => is_Some (f x)) items -> is_Some (mapM f items).
Proof.
  induction 1 as [|x r [y Hy] _ [r' Hr]]; [now eexists|].
  cbn. rewrite Hy. cbn. rewrite Hr. now eexists.
Qed.

Lemma mapM_props_is_Some (f : value -> option value)
    (props : list (string * value)) :
  Forall (fun kv => is_Some (f kv.2)) props ->
  is_Some (mapM (fun kv => pair kv.1 <$> f kv.2) props).
Proof.
  induction 1 as [|[k x] r [y Hy] _ [r' Hr]]; [now eexists|].
  cbn in *. rewrite Hy. cbn. rewrite Hr. now eexists.
Qed.

(** Plain JSON of that form always deserializes. *)
Lemma wire_deserializes (s : value) :
  wire s = true -> is_Some (deserializeData s).
Proof.
  induction s as [ | b | n | t | bs | bs | items IH | props IH ]
    using value_ind; intros Hw.
  - exists VNull. reflexivity.
  - exists (VBool b). reflexivity.
  - exists (VNum n). reflexivity.
  - exists (VStr t). reflexivity.
  - discriminate.
  - discriminate.
  - cbn [deserializeData]. cbn in Hw.
    assert (is_Some (mapM deserializeData items)) as [items' ->].
    { apply mapM_is_Some. apply Forall_forall. intros x Hx.
      rewrite Forall_forall in IH. apply IH; [exact Hx|].
      rewrite forallb_forall in Hw. apply Hw. now apply list_elem_of_In. }
    exists (VArr items'). reflexivity.
  - cbn [deserializeData]. cbn [wire] in Hw.
    apply andb_true_iff in Hw as [Htag Hw].
    assert (is_Some (mapM (fun kv => pair kv.1 <$> deserializeData kv.2) props))
      as [props' E].
    { apply mapM_props_is_Some. apply Forall_forall. intros x Hx.
      rewrite Forall_forall in IH. apply IH; [exact Hx|].
      rewrite forallb_forall in Hw. apply Hw. now apply list_elem_of_In. }
    rewrite E. cbn [mbind option_bind]. unfold BufferJSON.reviver.
    cbn [is_object get andb].
    destruct (is_str (prop "type" props') "Buffer") eqn:Et;
      [|exists (VObj props'); reflexivity].
    cbn [andb].
    destruct (truthy (prop "data" props')) eqn:Ed;
      [|exists (VObj props'); reflexivity].
    rewrite (prop_mapM _ _ _ _ E) in Et.
    destruct (prop "type" props) as [x|] eqn:Ex; [|discriminate]. cbn in Et.
    destruct (deserializeData x) as [y|] eqn:Ey; [|discriminate]. cbn in Et.
    destruct y; try discriminate.
    apply deserializeData_str in Ey. subst x. cbn in Htag. rewrite Et in Htag.
    rewrite (prop_mapM _ _ _ _ E).
    destruct (prop "data" props) as [[ | | | d | | | | ]|]; try discriminate.
    exists (VBuffer (Base64.decode d)). reflexivity.
Qed.

(** What [serializeData] returns, for any value at all, is plain JSON
    (no buffer and no typed array is left, and an object tagged
    [type: 'Buffer'] carries a string), and decoding it never raises. *)
Theorem deserializeData_after_serializeData (v s : value) :
  serializeData v = Some s -> wire s = true /\ is_Some (deserializeData s).
Proof.
  intros H. pose proof (serializeData_wire v s H) as Hw.
  split; [exact Hw|now apply wire_deserializes].
Qed.

Lemma deserializeData_after_serializeData_witness :
  wire (tagged (VStr "")) = true /\ is_Some (deserializeData (tagged (VStr ""))).
Proof.
  apply (deserializeData_after_serializeData (VBuffer [])). reflexivity.
Defined.

Lemma encode_length (bs : list byte) :
  String.length (Base64.encode bs) = (4 * ((length bs + 2) / 3))%nat.
Proof.
  induction bs as [|a|a b|a b c r IH] using triples_ind; try reflexivity.
  cbn [Base64.encode String.length length]. rewrite IH.
  replace (S (S (S (length r))) + 2)%nat with (1 * 3 + (length r + 2))%nat by lia.
  rewrite Nat.div_add_l by discriminate. lia.
Qed.

Lemma utf8_length (s : string) : length (utf8 s) = String.length s.
Proof.
  unfold utf8. rewrite length_map.
  induction s as [|c r IH]; cbn; [reflexivity|now rewrite IH].
Qed.

(** The base64 text of a string's bytes is never the string itself, but
    for the empty string. *)
Lemma encode_utf8_differs (s : string) :
  s <> "" -> Base64.encode (utf8 s) <> s.
Proof.
  intros Hne E. apply (f_equal String.length) in E.
  rewrite encode_length, utf8_length in E.
  destruct s as [|c r]; [congruence|]. cbn [String.length] in E.
  pose proof (Nat.div_mod_eq (S (String.length r) + 2) 3) as D.
  pose proof (Nat.mod_upper_bound (S (String.length r) + 2) 3) as B.
  lia.
Qed.

(** An object that is already in the tagged form is not left alone by
    [serializeData]: its text is read as UTF-8 bytes and encoded once
    more, and with an empty text the call raises.  In no case does the
    object come back as it is. *)
Theorem serializeData_tagged (s : string) :
  serializeData (tagged (VStr s))
  = (if String.eqb s "" then None
     else Some (tagged (VStr (Base64.encode (utf8 s)))))
  /\ serializeData (tagged (VStr s)) <> Some (tagged (VStr s)).
Proof.
  assert (serializeData (tagged (VStr s))
          = (if String.eqb s "" then None
             else Some (tagged (VStr (Base64.encode (utf8 s)))))) as E.
  { cbn. unfold BufferJSON.replacer. cbn.
    destruct (String.eqb s ""); reflexivity. }
  split; [exact E|]. rewrite E.
  destruct (String.eqb_spec s "") as [Hs|Hne]; [discriminate|].
  intros H. injection H as H. now apply (encode_utf8_differs s).
Qed.

End WireFacts.

(** ** The key cache *)

Section AuthKeysFacts.
Import Codec DBAuthState AuthKeys Examples.

Lemma serializeData_truthy (x s : value) :
  serializeData x = Some s -> truthy (Some s) = truthy (Some x).
Proof.
  destruct x as [ | b | n | t | bs | bs | items | props ].
  - now intros [= <-].
  - now intros [= <-].
  - now intros [= <-].
  - now intros [= <-].
  - rewrite serializeData_buffer. now intros [= <-].
  - change (serializeData (VUint8Array bs))
      with (Some (tagged (VStr (Base64.encode bs)))). now intros [= <-].
  - change (serializeData (VArr items))
      with (VArr <$> mapM serializeData items).
    destruct (mapM serializeData items); [|discriminate]. now intros [= <-].
  - cbn [serializeData toJSON].
    destruct (BufferJSON.replacer_applies (VObj props)) eqn:Ea.
    + unfold BufferJSON.replacer. rewrite Ea.
      destruct (Buffer_from _ _); [|discriminate]. now intros [= <-].
    + destruct (mapM _ props); [|discriminate]. now intros [= <-].
Qed.

(** What [set_entry] does to the cache and the pending map. *)
Lemma set_entry_spec (key : string) (v : option value) (st st' : state) :
  set_entry key v st = Some st' ->
  exists s,
    (match v with
     | None | Some VNull => s = VNull
     | Some x => serializeData x = Some s /\ s <> VNull
     end)
    /\ pendingKeyUpdates st' = <[key := s]> (pendingKeyUpdates st)
    /\ keysCache st'
       = (if bool_decide (s = VNull) then delete key (keysCache st)
          else <[key := s]> (keysCache st))
    /\ keyUpdateTimeout st' = keyUpdateTimeout st
    /\ credsCache st' = credsCache st.
Proof.
  unfold set_entry. intros H.
  assert (forall x, x <> VNull ->
            (serialized ← serializeData x;
             Some (with_pending (<[key := serialized]> (pendingKeyUpdates st))
                     (with_keys (<[key := serialized]> (keysCache st)) st)))
            = Some st' ->
            exists s, (serializeData x = Some s /\ s <> VNull)
              /\ pendingKeyUpdates st' = <[key := s]> (pendingKeyUpdates st)
              /\ keysCache st'
                 = (if bool_decide (s = VNull) then delete key (keysCache st)
                    else <[key := s]> (keysCache st))
              /\ keyUpdateTimeout st' = keyUpdateTimeout st
              /\ credsCache st' = credsCache st) as Hset.
  { intros x Hx E. destruct (serializeData x) as [s|] eqn:Es; [|discriminate].
    cbn in E. injection E as <-. exists s.
    assert (s <> VNull) as Hs.
    { intros ->. destruct (serializeData_prim _ _ Es) as [_ Hn].
      now apply Hx, Hn. }
    repeat split; try assumption.
    cbn. now rewrite bool_decide_eq_false_2. }
  destruct v as [[ | b | n | t | bs | bs | items | props ]|];
    try (apply Hset in H; [exact H|discriminate]);
    injection H as <-; exists VNull; repeat split.
Qed.

(** A value that was set is the value read back: after [keys.set] of one
    entry, [keys.get] returns the value for its id, and what it returns
    for the other composite keys has not changed. *)
Theorem keys_set_get (fromObject : value -> option value) (st : state)
    (now : Z) (type id : string) (x : value) :
  faithful x = true ->
  truthy (Some x) = true ->
  type <> "app-state-sync-key" ->
  let st' := (keys_set now [(type, [(id, Some x)])] st).1 in
  (keys_set now [(type, [(id, Some x)])] st).2 = true
  /\ keys_get fromObject type [id] st' !! id = Some x
  /\ (forall type' id',
        composite type' id' <> composite type id ->
        get_one fromObject type' id' st' = get_one fromObject type' id' st).
Proof.
  intros Hf Ht Hty st'.
  pose proof (roundtrip_faithful x Hf) as Hrt. unfold roundtrip in Hrt.
  destruct (serializeData x) as [s|] eqn:Es; [|discriminate]. cbn in Hrt.
  assert (x <> VNull) as Hx by (intros ->; discriminate).
  assert (set_entry (composite type id) (Some x) st
          = Some (with_pending (<[composite type id := s]> (pendingKeyUpdates st))
                    (with_keys (<[composite type id := s]> (keysCache st)) st)))
    as Hset.
  { unfold set_entry. destruct x; try congruence; now rewrite Es. }
  assert (keysCache st' = <[composite type id := s]> (keysCache st)) as Hc.
  { subst st'. unfold keys_set. cbn [set_types set_entries]. now rewrite Hset. }
  split; [|split].
  - unfold keys_set. cbn [set_types set_entries]. now rewrite Hset.
  - unfold keys_get. cbn [foldl]. rewrite lookup_insert_eq. f_equal.
    unfold get_one. rewrite Hc, lookup_insert_eq.
    rewrite (serializeData_truthy _ _ Es), Ht, Hrt. cbn [mbind option_bind].
    destruct (String.eqb_spec type "app-state-sync-key"); [contradiction|].
    cbn [andb]. now rewrite Ht.
  - intros type' id' Hne. unfold get_one. rewrite Hc.
    now rewrite lookup_insert_ne by congruence.
Qed.

Lemma keys_set_get_witness :
  let st' := (keys_set 0 [("pre-key", [("7", Some creds_example)])] initial).1 in
  (keys_set 0 [("pre-key", [("7", Some creds_example)])] initial).2 = true
  /\ keys_get Some "pre-key" ["7"] st' !! "7" = Some creds_example
  /\ (forall type' id',
        composite type' id' <> composite "pre-key" "7" ->
        get_one Some type' id' st' = get_one Some type' id' initial).
Proof.
  apply (keys_set_get Some initial 0 "pre-key" "7" creds_example).
  - reflexivity.
  - reflexivity.
  - discriminate.
Defined.

(** A key that was set to [null] (or to [undefined]) reads back as [null],
    whatever the cache held for it; the other composite keys read back as
    before. *)
Theorem keys_set_null_get (fromObject : value -> option value) (st : state)
    (now : Z) (type id : string) (v : option value) :
  v = None \/ v = Some VNull ->
  let st' := (keys_set now [(type, [(id, v)])] st).1 in
  keysCache st' !! composite type id = None
  /\ keys_get fromObject type [id] st' !! id = Some VNull
  /\ pendingKeyUpdates st' !! composite type id = Some VNull
  /\ (forall type' id',
        composite type' id' <> composite type id ->
        get_one fromObject type' id' st' = get_one fromObject type' id' st).
Proof.
  intros Hv st'.
  assert (set_entry (composite type id) v st
          = Some (with_pending (<[composite type id := VNull]> (pendingKeyUpdates st))
                    (with_keys (delete (composite type id) (keysCache st)) st)))
    as Hset by (destruct Hv as [->| ->]; reflexivity).
  assert (keysCache st' = delete (composite type id) (keysCache st)
          /\ pendingKeyUpdates st'
             = <[composite type id := VNull]> (pendingKeyUpdates st)) as [Hc Hp].
  { subst st'. unfold keys_set. cbn [set_types set_entries]. rewrite Hset.
    now split. }
  repeat split.
  - rewrite Hc. apply lookup_delete_eq.
  - unfold keys_get. cbn [foldl]. rewrite lookup_insert_eq. f_equal.
    unfold get_one. now rewrite Hc, lookup_delete_eq.
  - rewrite Hp. apply lookup_insert_eq.
  - intros type' id' Hne. unfold get_one. rewrite Hc.
    now rewrite lookup_delete_ne by congruence.
Qed.

Lemma keys_set_null_get_witness :
  let st' := (keys_set 0 [("pre-key", [("7", None)])] pending_example).1 in
  keysCache st' !! composite "pre-key" "7" = None
  /\ keys_get Some "pre-key" ["7"] st' !! "7" = Some VNull
  /\ pendingKeyUpdates st' !! composite "pre-key" "7" = Some VNull
  /\ (forall type' id',
        composite type' id' <> composite "pre-key" "7" ->
        get_one Some type' id' st' = get_one Some type' id' pending_example).
Proof.
  apply (keys_set_null_get Some pending_example 0 "pre-key" "7" None). now left.
Defined.

(** *** Cache and pending map in step *)

Lemma set_entry_mirrors (key : string) (v : option value) (st st' : state) :
  mirrors st -> set_entry key v st = Some st' -> mirrors st'.
Proof.
  intros Hm H. apply set_entry_spec in H as (s & _ & Hp & Hc & _).
  intros k w. rewrite Hp, Hc. destruct (decide (key = k)) as [->|Hne].
  - rewrite lookup_insert_eq. intros [= <-].
    case_bool_decide; [apply lookup_delete_eq|apply lookup_insert_eq].
  - rewrite lookup_insert_ne by exact Hne. intros Hw.
    rewrite <- (Hm k w Hw).
    destruct (bool_decide (s = VNull));
      [now rewrite lookup_delete_ne|now rewrite lookup_insert_ne].
Qed.

Lemma set_entries_mirrors (type : string) (entries : list (string * option value))
    (st : state) :
  mirrors st -> mirrors (set_entries type entries st).1.
Proof.
  revert st. induction entries as [|[id v] r IH]; intros st Hm; [exact Hm|].
  cbn [set_entries].
  destruct (set_entry (composite type id) v st) as [st'|] eqn:E; [|exact Hm].
  apply IH. now apply (set_entry_mirrors _ _ _ _ Hm E).
Qed.

Lemma set_types_mirrors (data : batch) (st : state) :
  mirrors st -> mirrors (set_types data st).1.
Proof.
  revert st. induction data as [|[type entries] r IH]; intros st Hm; [exact Hm|].
  cbn [set_types]. pose proof (set_entries_mirrors type entries st Hm) as H.
  destruct (set_entries type entries st) as [st' [|]]; cbn [fst] in *;
    [now apply IH|exact H].
Qed.

Lemma keys_set_mirrors (now : Z) (data : batch) (st : state) :
  mirrors st -> mirrors (keys_set now data st).1.
Proof.
  intros Hm. pose proof (set_types_mirrors data st Hm) as H.
  unfold keys_set. destruct (set_types data st) as [st' [|]]; exact H.
Qed.

Lemma mirrors_flushed (st : state) :
  mirrors (with_timeout None (with_pending ∅ st)).
Proof. intros k v H. cbn in H. now rewrite lookup_empty in H. Qed.

Lemma tick_mirrors (now : Z) (l : loop) : mirrors (auth l) -> mirrors (auth (tick now l)).
Proof.
  intros Hm. unfold tick. destruct (keyUpdateTimeout (auth l)); [|exact Hm].
  destruct (_ <=? _)%Z; [|exact Hm]. unfold flush_begin.
  case_bool_decide; apply mirrors_flushed.
Qed.

Lemma run_mirrors (events : list (Z * batch)) (l : loop) :
  mirrors (auth l) -> mirrors (auth (run events l)).
Proof.
  revert l. induction events as [|[t data] r IH]; intros l Hm; [exact Hm|].
  change (run ((t, data) :: r) l) with (run r (arrive t data l)).
  apply IH. unfold arrive. cbn [auth].
  apply keys_set_mirrors, tick_mirrors, Hm.
Qed.

(** Whatever key updates have arrived, at whatever times and whether they
    raised or not: the request that goes out when the timer fires agrees
    with the key cache of that moment.  A key it sets has the cached
    value, a key it deletes is not in the cache.  (No failed request was
    merged back in between.) *)
Theorem flushed_request_mirrors_cache (events : list (Z * batch)) (l : loop)
    (now : Z) (request : Backend.patch) :
  mirrors (auth l) ->
  calls (tick now (run events l)) = (calls (run events l) ++ [request])%list ->
  forall k,
    (forall v, Backend.set_keys request !! k = Some v ->
               keysCache (auth (run events l)) !! k = Some v)
    /\ (k ∈ Backend.delete_keys request ->
        keysCache (auth (run events l)) !! k = None).
Proof.
  intros Hm Hcalls k. apply (run_mirrors events) in Hm.
  set (l' := run events l) in *.
  assert (request = split (pendingKeyUpdates (auth l'))) as ->.
  { unfold tick in Hcalls.
    destruct (keyUpdateTimeout (auth l')).
    - destruct (_ <=? _)%Z.
      + unfold flush_begin in Hcalls. case_bool_decide; cbn in Hcalls.
        * rewrite <- (app_nil_r (calls l')) in Hcalls at 1.
          apply app_inv_head in Hcalls. discriminate.
        * apply app_inv_head in Hcalls. now injection Hcalls.
      + rewrite <- (app_nil_r (calls l')) in Hcalls at 1.
        apply app_inv_head in Hcalls. discriminate.
    - rewrite <- (app_nil_r (calls l')) in Hcalls at 1.
      apply app_inv_head in Hcalls. discriminate. }
  split.
  - intros v H. apply split_set_keys in H as [H Hv].
    rewrite (Hm k v H). now rewrite bool_decide_eq_false_2.
  - intros H. apply split_delete_keys in H. now rewrite (Hm k VNull H).
Qed.

Lemma flushed_request_mirrors_cache_witness :
  (forall v, Backend.set_keys
               {| Backend.set_keys :=
                    {[ "pre-key:2" := VStr "b"; "session:x" := VNum 5 ]};
                  Backend.delete_keys := ["pre-key:1"] |} !! "pre-key:2" = Some v ->
             keysCache (auth (run window_example fresh)) !! "pre-key:2" = Some v)
  /\ ("pre-key:2" ∈ ["pre-key:1"] ->
      keysCache (auth (run window_example fresh)) !! "pre-key:2" = None).
Proof.
  apply (flushed_request_mirrors_cache window_example fresh 950
           {| Backend.set_keys :=
                {[ "pre-key:2" := VStr "b"; "session:x" := VNum 5 ]};
              Backend.delete_keys := ["pre-key:1"] |}).
  - intros k v H. discriminate H.
  - vm_compute. reflexivity.
Defined.

(** *** A [keys.set] that raises *)

Lemma set_entries_fields (type : string) (entries : list (string * option value))
    (st : state) :
  keyUpdateTimeout (set_entries type entries st).1 = keyUpdateTimeout st
  /\ credsCache (set_entries type entries st).1 = credsCache st.
Proof.
  revert st. induction entries as [|[id v] r IH]; intros st; [now split|].
  cbn [set_entries].
  destruct (set_entry (composite type id) v st) as [st'|] eqn:E; [|now split].
  apply set_entry_spec in E as (_ & _ & _ & _ & Et & Ec).
  destruct (IH st') as [It Ic]. split; congruence.
Qed.

Lemma set_types_fields (data : batch) (st : state) :
  keyUpdateTimeout (set_types data st).1 = keyUpdateTimeout st
  /\ credsCache (set_types data st).1 = credsCache st.
Proof.
  revert st. induction data as [|[type entries] r IH]; intros st; [now split|].
  cbn [set_types]. pose proof (set_entries_fields type entries st) as [Et Ec].
  destruct (set_entries type entries st) as [st' [|]]; cbn [fst] in *.
  - destruct (IH st') as [It Ic]. split; congruence.
  - now split.
Qed.

Lemma set_entries_returns (type : string)
    (entries : list (string * option value)) (st st' : state) :
  set_entries type entries st = (st', true) ->
  forallb (fun kv : string * option value =>
             match kv.2 with
             | Some x => bool_decide (is_Some (serializeData x))
             | None => true
             end) entries = true.
Proof.
  revert st. induction entries as [|[id v] r IH]; intros st E; [reflexivity|].
  cbn [set_entries] in E.
  destruct (set_entry (composite type id) v st) as [st2|] eqn:E2; [|discriminate].
  cbn. apply andb_true_iff. split; [|now apply (IH st2)].
  apply set_entry_spec in E2 as (s & Hs & _).
  destruct v as [x|]; [|reflexivity].
  destruct x; try reflexivity;
    (destruct Hs as [Hs _]; apply bool_decide_eq_true; now exists s).
Qed.

Lemma set_types_returns (data : batch) (st st' : state) :
  set_types data st = (st', true) -> serializable data = true.
Proof.
  unfold serializable, entries_of.
  revert st. induction data as [|[type entries] r IH]; intros st E; [reflexivity|].
  cbn [set_types] in E.
  destruct (set_entries type entries st) as [st1 ok1] eqn:E1.
  destruct ok1; [|discriminate].
  cbn. rewrite forallb_app. apply andb_true_iff. split.
  - rewrite forallb_fmap. cbn. now apply (set_entries_returns type entries st st1).
  - now apply (IH st1).
Qed.

(** [keys.set] arms the timer only when it returns.  When [serializeData]
    raises in the middle of a batch, the entries written before stay in
    the cache and in the pending map -- nothing that was pending is lost
    -- but the timer is left as it was: the call that raised schedules no
    flush for them. *)
Theorem keys_set_timer (now : Z) (data : batch) (st : state) :
  keyUpdateTimeout (keys_set now data st).1
  = (if (keys_set now data st).2 then Some (now + 500)%Z
     else keyUpdateTimeout st)
  /\ credsCache (keys_set now data st).1 = credsCache st
  /\ (forall k, is_Some (pendingKeyUpdates st !! k) ->
                is_Some (pendingKeyUpdates (keys_set now data st).1 !! k))
  /\ ((keys_set now data st).2 = true <-> serializable data = true).
Proof.
  pose proof (set_types_fields data st) as [Et Ec].
  split; [|split; [|split]].
  - unfold keys_set. destruct (set_types data st) as [st' [|]]; cbn in *;
      [reflexivity|exact Et].
  - unfold keys_set. destruct (set_types data st) as [st' [|]]; exact Ec.
  - intros k. apply keys_set_keeps.
  - split.
    + intros H. unfold keys_set in H.
      destruct (set_types data st) as [st' ok] eqn:E.
      destruct ok; [|discriminate]. now apply (set_types_returns data st st').
    + intros H. destruct (set_types_pending data st H) as (st' & E & _).
      unfold keys_set. now rewrite E.
Qed.

(** The sample batch raises at its second entry: the first is pending and
    cached, the third was never written, and no timer is armed. *)
Example raising_batch_leaves :
  let st' := (keys_set 0 raising_batch initial).1 in
  (keys_set 0 raising_batch initial).2 = false
  /\ pendingKeyUpdates st' = {[ "session:a" := VStr "kept" ]}
  /\ keysCache st' = {[ "session:a" := VStr "kept" ]}
  /\ keyUpdateTimeout st' = None.
Proof. vm_compute. repeat split. Qed.

(** *** Credentials from [saveCreds] to [loadAuth] *)

Lemma serializeData_faithful_object (props : list (string * value)) :
  faithful (VObj props) = true ->
  exists props',
    serializeData (VObj props) = Some (VObj props')
    /\ length props' = length props
    /\ deserializeData (VObj props') = Some (VObj props).
Proof.
  intros Hf. pose proof (roundtrip_faithful _ Hf) as Hrt. unfold roundtrip in Hrt.
  cbn [faithful] in Hf. apply andb_true_iff in Hf as [Htag _].
  apply negb_true_iff in Htag.
  cbn [serializeData toJSON] in Hrt |- *.
  rewrite replacer_applies_obj, Htag in Hrt |- *.
  destruct (mapM _ props) as [props'|] eqn:E; [|discriminate].
  exists props'. split; [reflexivity|]. split; [|exact Hrt].
  symmetry. now apply (length_mapM _ _ _ E).
Qed.

(** The credentials [saveCreds] sends are the credentials [loadAuth]
    restores: when the cache holds a non-empty credential object on which
    the codec is faithful, the body of the [PUT] is plain JSON, and a
    [loadAuth] that gets this body back reports existing credentials and
    fills the cache with the object that was saved. *)
Theorem creds_save_load (st st0 : state) (props : list (string * value))
    (ks : option (gmap string value)) :
  credsCache st = Some (VObj props) ->
  props <> [] ->
  faithful (VObj props) = true ->
  exists body,
    saveCreds st = Some body
    /\ Wire.wire body = true
    /\ loadAuth (Some {| Backend.r_creds := Some body; Backend.r_keys := ks;
                         Backend.has_credentials := true |}) st0
       = ({| keysCache := default ∅ ks; credsCache := Some (VObj props);
             pendingKeyUpdates := pendingKeyUpdates st0;
             keyUpdateTimeout := keyUpdateTimeout st0 |}, true).
Proof.
  intros Hc Hne Hf.
  destruct (serializeData_faithful_object props Hf) as (props' & Es & Hlen & Ed).
  exists (VObj props'). split; [|split].
  - unfold saveCreds. rewrite Hc. cbn. exact Es.
  - now apply (serializeData_wire (VObj props)).
  - destruct props' as [|p r]; [destruct props; [congruence|discriminate]|].
    unfold loadAuth. cbn -[deserializeData]. now rewrite Ed.
Qed.

Lemma creds_save_load_witness :
  exists body,
    saveCreds creds_state = Some body
    /\ Wire.wire body = true
    /\ loadAuth (Some {| Backend.r_creds := Some body; Backend.r_keys := None;
                         Backend.has_credentials := true |}) initial
       = ({| keysCache := default ∅ None; credsCache := Some creds_example;
             pendingKeyUpdates := pendingKeyUpdates initial;
             keyUpdateTimeout := keyUpdateTimeout initial |}, true).
Proof.
  apply (creds_save_load creds_state initial creds_props None eq_refl);
    [discriminate|reflexivity].
Defined.

(** An empty credential object is sent by [saveCreds] and is not taken for
    credentials by [loadAuth]. *)
Example empty_creds_not_loaded (st0 : state) :
  saveCreds {| keysCache := ∅; credsCache := Some (VObj []);
               pendingKeyUpdates := ∅; keyUpdateTimeout := None |}
  = Some (VObj [])
  /\ loadAuth (Some {| Backend.r_creds := Some (VObj []); Backend.r_keys := None;
                       Backend.has_credentials := true |}) st0 = (st0, false).
Proof. split; reflexivity. Qed.

End AuthKeysFacts.

(** ** Sequences of operations *)

Section TraceFacts.
Import Codec Sessions Trace Examples.

Lemma extends_refl (w : world) : extends w w.
Proof. intros k c H. now exists c. Qed.

Lemma extends_trans (a b c : world) : extends a b -> extends b c -> extends a c.
Proof.
  intros Hab Hbc k x H. destruct (Hab k x H) as (y & Hy & Ey).
  destruct (Hbc k y Hy) as (z & Hz & Ez). exists z. split; congruence.
Qed.

Lemma extends_same_clients (w w' : world) : clients w' = clients w -> extends w w'.
Proof. intros E k c H. exists c. now rewrite E. Qed.

Lemma extends_alter (f : client -> client) (k : nat) (w : world) :
  (forall c, owner (f c) = owner c) ->
  extends w (with_clients (alter f k (clients w)) w).
Proof.
  intros Hf i c H. cbn. destruct (decide (i = k)) as [->|Hne].
  - exists (f c). rewrite (alter_at _ _ _ _ H).
    rewrite list_lookup_insert_eq by (now apply lookup_lt_Some in H).
    now split.
  - exists c. now rewrite list_lookup_alter_ne by congruence.
Qed.

Lemma extends_end (k : nat) (w : world) : extends w (socket_end k w).
Proof. now apply extends_alter. Qed.

Lemma extends_logout (k : nat) (w : world) : extends w (socket_logout k w).
Proof. now apply extends_alter. Qed.

Lemma extends_resume (useDBAuth get_ok : bool) (id : string) (w : world) :
  extends w (startSession_resume useDBAuth get_ok id w).
Proof.
  destruct (startSession_resume_spec useDBAuth get_ok id w) as (Rc & _).
  intros k c H. exists c. rewrite Rc.
  rewrite lookup_app_l by (now apply lookup_lt_Some in H). now split.
Qed.

Lemma handle_ok_extends (w w' : world) (id : string) (s : session) :
  extends w w' -> handle_ok w id s -> handle_ok w' id s.
Proof.
  intros He Hh k Hk. destruct (Hh k Hk) as (c & Hc & Ho).
  destruct (He k c Hc) as (c' & Hc' & Ho'). exists c'. split; congruence.
Qed.

(** The way every operation keeps the registry well formed: the clients
    stay, and each entry is an old one or a well-formed new one. *)
Lemma well_formed_next (w w' : world) :
  well_formed w -> extends w w' ->
  (forall id s, sessions w' !! id = Some s ->
     sessions w !! id = Some s \/ (handle_ok w' id s /\ shape_ok s)) ->
  well_formed w'.
Proof.
  intros Hw He Hs id s H. destruct (Hs id s H) as [Hold|Hnew]; [|exact Hnew].
  destruct (Hw id s Hold) as [Hh Hsh]. split; [|exact Hsh].
  now apply (handle_ok_extends w w').
Qed.

Lemma well_formed_same_sessions (w w' : world) :
  well_formed w -> extends w w' -> sessions w' = sessions w -> well_formed w'.
Proof.
  intros Hw He Es. apply (well_formed_next w w' Hw He).
  intros id s H. left. now rewrite <- Es.
Qed.

Lemma well_formed_unregister (id : string) (w : world) :
  well_formed w -> well_formed (with_sessions (delete id (sessions w)) w).
Proof.
  intros Hw. apply (well_formed_next w _ Hw); [now apply extends_same_clients|].
  intros id' s H. left. cbn in H.
  apply lookup_delete_Some in H. tauto.
Qed.

Lemma well_formed_drop (useDBAuth delete_ok : bool) (id : string) (w : world) :
  well_formed w -> well_formed (drop_credentials useDBAuth delete_ok id w).
Proof.
  intros Hw.
  destruct (drop_credentials_spec useDBAuth delete_ok id w) as (Ds & Dc & _).
  apply (well_formed_same_sessions w _ Hw); [now apply extends_same_clients|exact Ds].
Qed.

Lemma well_formed_enter (id : string) (w : world) :
  well_formed w -> well_formed (startSession_enter id w).1.
Proof.
  intros Hw. unfold startSession_enter. cbn [sessions ensureSessionsDir].
  assert (well_formed (ensureSessionsDir w)) as Hw'.
  { apply (well_formed_same_sessions w _ Hw);
      [now apply extends_same_clients|reflexivity]. }
  destruct (sessions w !! id) as [s|]; [|exact Hw'].
  destruct (status s);
    try (destruct (nonempty (qrBase64 s)); [exact Hw'|]);
    try exact Hw';
    (destruct (socket s) as [k|]; [|exact Hw'];
     apply (well_formed_same_sessions _ _ Hw');
     [apply extends_end|reflexivity]).
Qed.

Lemma well_formed_resume (useDBAuth get_ok : bool) (id : string) (w : world) :
  well_formed w -> well_formed (startSession_resume useDBAuth get_ok id w).
Proof.
  intros Hw.
  apply (well_formed_next w _ Hw); [apply extends_resume|].
  destruct (startSession_resume_spec useDBAuth get_ok id w) as (Rc & Rs & _).
  intros id' s H. rewrite Rs in H.
  destruct (decide (id = id')) as [->|Hne].
  - rewrite lookup_insert_eq in H. injection H as <-. right. split.
    + intros k [= <-]. rewrite Rc. eexists.
      rewrite lookup_app_r, Nat.sub_diag by reflexivity. now split.
    + cbn. repeat split. now eexists.
  - rewrite lookup_insert_ne in H by exact Hne. now left.
Qed.

Lemma well_formed_start (useDBAuth get_ok : bool) (id : string) (w : world) :
  well_formed w -> well_formed (startSession useDBAuth get_ok id w).1.
Proof.
  intros Hw. pose proof (well_formed_enter id w Hw) as He.
  unfold startSession. destruct (startSession_enter id w) as [w' [a|]];
    cbn [fst] in *; [exact He|now apply well_formed_resume].
Qed.

Lemma shape_on_qr (u : update) (s : session) :
  shape_ok s -> shape_ok (on_qr u s)
  /\ socket (on_qr u s) = socket s.
Proof.
  intros Hs. unfold on_qr.
  destruct (u_qr u) as [q|] eqn:Eq; cbn; [|now split].
  destruct (negb (String.eqb q "")); [|now split].
  destruct (image u) as [img|]; [|now split].
  split; [|reflexivity]. cbn. split; now eexists.
Qed.

Lemma well_formed_update (loggedOut forbidden : Z) (id : string) (u : update)
    (w : world) :
  well_formed w -> well_formed (connection_update loggedOut forbidden id u w).
Proof.
  intros Hw. unfold connection_update.
  destruct (sessions w !! id) as [s|] eqn:Es; [|exact Hw].
  destruct (Hw id s Es) as [Hh Hsh].
  destruct (shape_on_qr u s Hsh) as [Hq Hk].
  set (s1 := on_qr u s) in *.
  assert (exists s2 w2,
            on_close loggedOut forbidden id u s1 w = (s2, w2)
            /\ shape_ok s2 /\ sessions w2 = sessions w
            /\ clients w2 = clients w
            /\ (socket s2 = socket s \/ socket s2 = None)) as
    (s2 & w2 & -> & Hs2 & Ess2 & Ec2 & Hk2).
  { unfold on_close. destruct (u_connection u) as [[| |]|];
      try (eexists _, _; split; [reflexivity|]; repeat split;
           [exact Hq|now left]).
    destruct (shouldReconnect _ _ _);
      eexists _, _; (split; [reflexivity|]); cbn; repeat split;
      (now left) || (now right). }
  assert (exists s3 w3,
            on_open id u s2 w2 = (s3, w3)
            /\ shape_ok s3 /\ sessions w3 = sessions w
            /\ clients w3 = clients w
            /\ (socket s3 = socket s \/ socket s3 = None)) as
    (s3 & w3 & -> & Hs3 & Ess3 & Ec3 & Hk3).
  { unfold on_open. destruct (u_connection u) as [[| |]|];
      (eexists _, _; split; [reflexivity|]; repeat split;
       assumption || reflexivity). }
  apply (well_formed_next w _ Hw).
  { apply extends_same_clients. exact Ec3. }
  intros id' s' H. cbn in H. rewrite Ess3 in H.
  destruct (decide (id = id')) as [->|Hne].
  - rewrite lookup_insert_eq in H. injection H as <-. right.
    split; [|exact Hs3].
    intros k Hk'. cbn. rewrite Ec3.
    destruct Hk3 as [E|E]; rewrite E in Hk'; [|discriminate].
    now apply Hh.
  - rewrite lookup_insert_ne in H by exact Hne. now left.
Qed.

Lemma well_formed_send (send_ok : bool) (id to text : string) (w : world) :
  well_formed w -> well_formed (sendMessage send_ok id to text w).1.
Proof.
  intros Hw. unfold sendMessage.
  destruct (sessions w !! id) as [s|]; [|exact Hw].
  destruct (status s); try exact Hw.
  destruct (socket s) as [k|]; [|exact Hw].
  assert (well_formed
            (with_clients (alter (record_send (jid_of to) text) k (clients w)) w)).
  { apply (well_formed_same_sessions w _ Hw); [|reflexivity].
    now apply extends_alter. }
  now destruct send_ok.
Qed.

Lemma well_formed_disconnect (end_raises : bool) (id : string) (w : world) :
  well_formed w -> well_formed (disconnectSession end_raises id w).1.
Proof.
  intros Hw. unfold disconnectSession.
  destruct (sessions w !! id ≫= socket) as [k|]; [|exact Hw].
  assert (well_formed (socket_end k w)) as He.
  { apply (well_formed_same_sessions w _ Hw); [apply extends_end|reflexivity]. }
  destruct end_raises; [exact He|]. cbn [fst].
  now apply (well_formed_unregister id (socket_end k w)).
Qed.

Lemma well_formed_logout (useDBAuth logout_raises delete_ok : bool)
    (id : string) (w : world) :
  well_formed w ->
  well_formed (logoutSession useDBAuth logout_raises delete_ok id w).1.
Proof.
  intros Hw. unfold logoutSession.
  destruct (sessions w !! id ≫= socket) as [k|].
  - destruct logout_raises; [exact Hw|]. cbn [fst].
    apply well_formed_drop.
    apply (well_formed_unregister id (socket_logout k w)).
    apply (well_formed_same_sessions w _ Hw); [apply extends_logout|reflexivity].
  - cbn [fst]. apply well_formed_drop. now apply well_formed_unregister.
Qed.

Lemma well_formed_reset (useDBAuth delete_ok get_ok : bool) (id : string)
    (w : world) :
  well_formed w -> well_formed (resetSession useDBAuth delete_ok get_ok id w).1.
Proof.
  intros Hw. unfold resetSession.
  apply well_formed_start, well_formed_drop.
  destruct (sessions w !! id ≫= socket) as [k|].
  - apply (well_formed_unregister id (socket_end k w)).
    apply (well_formed_same_sessions w _ Hw); [apply extends_end|reflexivity].
  - now apply well_formed_unregister.
Qed.

Lemma well_formed_step (useDBAuth : bool) (loggedOut forbidden : Z) (o : op)
    (w : world) :
  well_formed w -> well_formed (step useDBAuth loggedOut forbidden o w).
Proof.
  intros Hw. destruct o; cbn [step].
  - now apply well_formed_start.
  - now apply well_formed_enter.
  - now apply well_formed_resume.
  - now apply well_formed_update.
  - now apply well_formed_send.
  - now apply well_formed_disconnect.
  - now apply well_formed_logout.
  - now apply well_formed_reset.
Qed.

Lemma well_formed_steps (useDBAuth : bool) (loggedOut forbidden : Z)
    (ops : list op) (w : world) :
  well_formed w -> well_formed (steps useDBAuth loggedOut forbidden ops w).
Proof.
  revert w. induction ops as [|o r IH]; intros w Hw; [exact Hw|].
  apply IH. now apply well_formed_step.
Qed.

Lemma well_formed_empty : well_formed empty_world.
Proof. intros id s H. cbn in H. now rewrite lookup_empty in H. Qed.

(** *** What an operation leaves to the other users *)

Lemma others_kept_refl (id : string) (w : world) : others_kept id w w.
Proof. split; [now intros|now intros]. Qed.

Lemma others_kept_trans (id : string) (a b c : world) :
  others_kept id a b -> others_kept id b c -> others_kept id a c.
Proof.
  intros [Hab Cab] [Hbc Cbc]. split.
  - intros id' Hne. now rewrite (Hbc id' Hne), (Hab id' Hne).
  - intros k x H Ho. apply Cbc; [|exact Ho]. now apply Cab.
Qed.

Lemma owned_handle (id : string) (s : session) (k : nat) (w : world) :
  well_formed w -> sessions w !! id = Some s -> socket s = Some k ->
  owned id k w.
Proof.
  intros Hw Hs Hk c Hc. destruct (Hw id s Hs) as [Hh _].
  destruct (Hh k Hk) as (c' & Hc' & Ho). congruence.
Qed.

Lemma others_kept_alter (f : client -> client) (id : string) (k : nat)
    (w : world) :
  owned id k w -> others_kept id w (with_clients (alter f k (clients w)) w).
Proof.
  intros Ho. split; [now intros|].
  intros i c Hc Hne. cbn. destruct (decide (i = k)) as [->|Hik].
  - now destruct Hne, (Ho c Hc).
  - now rewrite list_lookup_alter_ne by congruence.
Qed.

Lemma others_kept_unregister (id : string) (w : world) :
  others_kept id w (with_sessions (delete id (sessions w)) w).
Proof.
  split; [|now intros]. intros id' Hne. cbn.
  now rewrite lookup_delete_ne by congruence.
Qed.

Lemma others_kept_drop (useDBAuth delete_ok : bool) (id : string) (w : world) :
  others_kept id w (drop_credentials useDBAuth delete_ok id w).
Proof.
  destruct (drop_credentials_spec useDBAuth delete_ok id w) as (Ds & Dc & _).
  split.
  - intros id' Hne. now rewrite Ds.
  - intros k c H _. now rewrite Dc.
Qed.

Lemma others_kept_enter (id : string) (w : world) :
  well_formed w -> others_kept id w (startSession_enter id w).1.
Proof.
  intros Hw. unfold startSession_enter. cbn [sessions ensureSessionsDir].
  assert (others_kept id w (ensureSessionsDir w)) as H0
    by (split; now intros).
  destruct (sessions w !! id) as [s|] eqn:Es; [|exact H0].
  destruct (status s);
    try (destruct (nonempty (qrBase64 s)); [exact H0|]);
    try exact H0;
    (destruct (socket s) as [k|] eqn:Ek; [|exact H0];
     apply (others_kept_trans id w (ensureSessionsDir w) _ H0);
     apply others_kept_alter; exact (owned_handle id s k w Hw Es Ek)).
Qed.

Lemma others_kept_resume (useDBAuth get_ok : bool) (id : string) (w : world) :
  others_kept id w (startSession_resume useDBAuth get_ok id w).
Proof.
  destruct (startSession_resume_spec useDBAuth get_ok id w) as (Rc & Rs & _).
  split.
  - intros id' Hne. rewrite Rs. now rewrite lookup_insert_ne by congruence.
  - intros k c H _. rewrite Rc.
    now rewrite lookup_app_l by (now apply lookup_lt_Some in H).
Qed.

Lemma others_kept_start (useDBAuth get_ok : bool) (id : string) (w : world) :
  well_formed w -> others_kept id w (startSession useDBAuth get_ok id w).1.
Proof.
  intros Hw. pose proof (others_kept_enter id w Hw) as He.
  unfold startSession. destruct (startSession_enter id w) as [w' [a|]];
    cbn [fst] in *; [exact He|].
  apply (others_kept_trans id w w' _ He), others_kept_resume.
Qed.

Lemma connection_update_fields (loggedOut forbidden : Z) (id : string)
    (u : update) (w : world) :
  let w' := connection_update loggedOut forbidden id u w in
  (forall id', id' <> id -> sessions w' !! id' = sessions w !! id')
  /\ clients w' = clients w /\ store w' = store w /\ dirs w' = dirs w.
Proof.
  unfold connection_update.
  destruct (sessions w !! id) as [s|]; [|now repeat split].
  unfold on_close, on_open.
  destruct (u_connection u) as [[| |]|]; cbn;
    try destruct (shouldReconnect _ _ _); cbn; repeat split;
    intros id' Hne; now rewrite lookup_insert_ne by congruence.
Qed.

Lemma others_kept_update (loggedOut forbidden : Z) (id : string) (u : update)
    (w : world) :
  others_kept id w (connection_update loggedOut forbidden id u w).
Proof.
  destruct (connection_update_fields loggedOut forbidden id u w)
    as (Hs & Hc & Hst & Hd).
  split.
  - intros id' Hne. now apply Hs.
  - intros k c H _. now rewrite Hc.
Qed.

Lemma others_kept_send (send_ok : bool) (id to text : string) (w : world) :
  well_formed w -> others_kept id w (sendMessage send_ok id to text w).1.
Proof.
  intros Hw. unfold sendMessage.
  destruct (sessions w !! id) as [s|] eqn:Es; [|apply others_kept_refl].
  destruct (status s); try apply others_kept_refl.
  destruct (socket s) as [k|] eqn:Ek; [|apply others_kept_refl].
  pose proof (others_kept_alter (record_send (jid_of to) text) id k w
                (owned_handle id s k w Hw Es Ek)).
  now destruct send_ok.
Qed.

Lemma handle_of_entry (id : string) (k : nat) (w : world) :
  sessions w !! id ≫= socket = Some k ->
  exists s, sessions w !! id = Some s /\ socket s = Some k.
Proof.
  destruct (sessions w !! id) as [s|]; [|discriminate].
  intros H. now exists s.
Qed.

Lemma others_kept_disconnect (end_raises : bool) (id : string) (w : world) :
  well_formed w -> others_kept id w (disconnectSession end_raises id w).1.
Proof.
  intros Hw. unfold disconnectSession.
  destruct (sessions w !! id ≫= socket) as [k|] eqn:E;
    [|apply others_kept_refl].
  destruct (handle_of_entry id k w E) as (s & Es & Ek).
  pose proof (others_kept_alter (close_client by_end) id k w
                (owned_handle id s k w Hw Es Ek)) as He.
  destruct end_raises; [exact He|]. cbn [fst].
  apply (others_kept_trans id w (socket_end k w) _ He).
  apply (others_kept_unregister id (socket_end k w)).
Qed.

Lemma others_kept_logout (useDBAuth logout_raises delete_ok : bool)
    (id : string) (w : world) :
  well_formed w ->
  others_kept id w (logoutSession useDBAuth logout_raises delete_ok id w).1.
Proof.
  intros Hw. unfold logoutSession.
  destruct (sessions w !! id ≫= socket) as [k|] eqn:E.
  - destruct logout_raises; [apply others_kept_refl|]. cbn [fst].
    destruct (handle_of_entry id k w E) as (s & Es & Ek).
    pose proof (others_kept_alter (close_client by_logout) id k w
                  (owned_handle id s k w Hw Es Ek)) as He.
    eapply others_kept_trans; [|apply others_kept_drop].
    apply (others_kept_trans id w (socket_logout k w) _ He).
    apply (others_kept_unregister id (socket_logout k w)).
  - cbn [fst]. eapply others_kept_trans; [|apply others_kept_drop].
    apply others_kept_unregister.
Qed.

Lemma others_kept_reset (useDBAuth delete_ok get_ok : bool) (id : string)
    (w : world) :
  well_formed w ->
  others_kept id w (resetSession useDBAuth delete_ok get_ok id w).1.
Proof.
  intros Hw. unfold resetSession.
  set (w1 := match sessions w !! id ≫= socket with
             | Some k => socket_end k w
             | None => w
             end).
  assert (others_kept id w w1 /\ well_formed w1) as [H1 Hw1].
  { subst w1. destruct (sessions w !! id ≫= socket) as [k|] eqn:E.
    - destruct (handle_of_entry id k w E) as (s & Es & Ek). split.
      + exact (others_kept_alter (close_client by_end) id k w
                 (owned_handle id s k w Hw Es Ek)).
      + apply (well_formed_same_sessions w _ Hw);
          [apply extends_end|reflexivity].
    - split; [apply others_kept_refl|exact Hw]. }
  eapply others_kept_trans; [|apply others_kept_start].
  - eapply others_kept_trans; [|apply others_kept_drop].
    apply (others_kept_trans id w w1 _ H1).
    apply (others_kept_unregister id w1).
  - apply well_formed_drop. now apply (well_formed_unregister id w1).
Qed.

Lemma others_kept_step (useDBAuth : bool) (loggedOut forbidden : Z) (o : op)
    (w : world) :
  well_formed w ->
  others_kept (target o) w (step useDBAuth loggedOut forbidden o w).
Proof.
  intros Hw. destruct o; cbn [step target].
  - now apply others_kept_start.
  - now apply others_kept_enter.
  - now apply others_kept_resume.
  - now apply others_kept_update.
  - now apply others_kept_send.
  - now apply others_kept_disconnect.
  - now apply others_kept_logout.
  - now apply others_kept_reset.
Qed.

(** Whatever operations have run since the service came up, in whatever
    order and with whatever outcome of their requests: the handle that the
    registry holds for a user is a client of the table, and one that was
    made for that user. *)
Theorem reachable_handles_owned (useDBAuth : bool) (loggedOut forbidden : Z)
    (ops : list op) (id : string) (s : session) (k : nat) :
  sessions (steps useDBAuth loggedOut forbidden ops empty_world) !! id = Some s ->
  socket s = Some k ->
  exists c,
    clients (steps useDBAuth loggedOut forbidden ops empty_world) !! k = Some c
    /\ owner c = id.
Proof.
  intros Hs Hk.
  destruct (well_formed_steps useDBAuth loggedOut forbidden ops empty_world
              well_formed_empty id s Hs) as [Hh _].
  now apply Hh.
Qed.

Lemma reachable_handles_owned_witness :
  exists c,
    clients (steps true 401 403 ops_example empty_world) !! 1%nat = Some c
    /\ owner c = "u2".
Proof.
  apply (reachable_handles_owned true 401 403 ops_example "u2"
           {| socket := Some 1%nat; qr := None; qrBase64 := None;
              status := Status.connecting; phoneNumber := None |} 1%nat);
    reflexivity.
Defined.

(** Whatever operations have run since the service came up, the fields of
    a registered entry fit its status: no entry has the status
    [not_started]; a [connecting] entry has a handle and neither pairing
    code nor phone number; a [qr] entry has its code and its image; a
    [connected] entry has no pairing code left; a [disconnected] entry has
    neither handle nor phone number. *)
Theorem reachable_status_shapes (useDBAuth : bool) (loggedOut forbidden : Z)
    (ops : list op) (id : string) (s : session) :
  sessions (steps useDBAuth loggedOut forbidden ops empty_world) !! id = Some s ->
  shape_ok s.
Proof.
  intros Hs.
  now destruct (well_formed_steps useDBAuth loggedOut forbidden ops empty_world
                  well_formed_empty id s Hs).
Qed.

Lemma reachable_status_shapes_witness :
  shape_ok {| socket := None; qr := None; qrBase64 := None;
              status := Status.disconnected; phoneNumber := None |}.
Proof.
  apply (reachable_status_shapes true 401 403 ops_example "u1").
  reflexivity.
Defined.

(** An operation for one user leaves the other users alone: their entries
    of the registry and the clients made for them are as before. *)
Theorem step_keeps_other_users (useDBAuth : bool) (loggedOut forbidden : Z)
    (ops : list op) (o : op) (id : string) :
  id <> target o ->
  let w := steps useDBAuth loggedOut forbidden ops empty_world in
  let w' := step useDBAuth loggedOut forbidden o w in
  sessions w' !! id = sessions w !! id
  /\ forall k c, clients w !! k = Some c -> owner c = id ->
       clients w' !! k = Some c.
Proof.
  intros Hne w w'.
  destruct (others_kept_step useDBAuth loggedOut forbidden o w
              (well_formed_steps useDBAuth loggedOut forbidden ops empty_world
                 well_formed_empty)) as [Hk Hc].
  split; [exact (Hk id Hne)|].
  intros k c H Ho. apply Hc; [exact H|congruence].
Qed.

Lemma step_keeps_other_users_witness :
  let w := steps true 401 403 ops_example empty_world in
  let w' := step true 401 403 (op_reset true true "u1") w in
  sessions w' !! "u2" = sessions w !! "u2"
  /\ forall k c, clients w !! k = Some c -> owner c = "u2" ->
       clients w' !! k = Some c.
Proof.
  apply (step_keeps_other_users true 401 403 ops_example
           (op_reset true true "u1") "u2").
  discriminate.
Defined.

Lemma startSession_enter_notices (id : string) (w : world) :
  posts (startSession_enter id w).1 = posts w
  /\ timers (startSession_enter id w).1 = timers w
  /\ store (startSession_enter id w).1 = store w.
Proof.
  unfold startSession_enter. cbn [sessions ensureSessionsDir].
  destruct (sessions w !! id) as [s|]; [|now repeat split].
  destruct (status s); try destruct (nonempty (qrBase64 s));
    try destruct (socket s); now repeat split.
Qed.

Lemma startSession_notices (useDBAuth get_ok : bool) (id : string) (w : world) :
  posts (startSession useDBAuth get_ok id w).1 = posts w
  /\ timers (startSession useDBAuth get_ok id w).1 = timers w
  /\ store (startSession useDBAuth get_ok id w).1 = store w.
Proof.
  pose proof (startSession_enter_notices id w) as (Hp & Ht & Hs).
  unfold startSession. destruct (startSession_enter id w) as [w' [a|]];
    cbn [fst] in *; [now repeat split|].
  destruct (startSession_resume_spec useDBAuth get_ok id w')
    as (_ & _ & Rst & Rt & Rp & _).
  repeat split; congruence.
Qed.

(** Only the [connection.update] handler notifies the backend and sets a
    reconnect timer.  The operations themselves, [disconnectSession],
    [logoutSession] and [resetSession] among them, post no notice and set
    no timer, and they do not cancel a timer that is set. *)
Theorem only_updates_notify (useDBAuth : bool) (loggedOut forbidden : Z)
    (o : op) (w : world) :
  (forall id u, o <> op_update id u) ->
  posts (step useDBAuth loggedOut forbidden o w) = posts w
  /\ timers (step useDBAuth loggedOut forbidden o w) = timers w.
Proof.
  intros Hno. destruct o as [g id|id|g id|id u|ok id to text|e id|l dl id|dl g id];
    cbn [step].
  - now destruct (startSession_notices useDBAuth g id w) as (? & ? & _).
  - now destruct (startSession_enter_notices id w) as (? & ? & _).
  - destruct (startSession_resume_spec useDBAuth g id w)
      as (_ & _ & _ & Rt & Rp & _). now split.
  - now destruct (Hno id u).
  - unfold sendMessage. destruct (sessions w !! id) as [s|]; [|now split].
    destruct (status s); try now split.
    destruct (socket s); [|now split]. now destruct ok.
  - unfold disconnectSession.
    destruct (sessions w !! id ≫= socket); [|now split]. now destruct e.
  - unfold logoutSession.
    destruct (sessions w !! id ≫= socket); [destruct l; [now split|]|];
      cbn [fst];
      match goal with
      | |- context [drop_credentials ?a ?b ?c ?x] =>
          destruct (drop_credentials_spec a b c x) as (_ & _ & Dt & Dp & _)
      end; cbn zeta in Dt, Dp; now rewrite Dt, Dp.
  - unfold resetSession.
    match goal with
    | |- context [startSession ?a ?b ?c ?x] =>
        destruct (startSession_notices a b c x) as (Sp & St & _)
    end.
    rewrite Sp, St.
    match goal with
    | |- context [drop_credentials ?a ?b ?c ?x] =>
        destruct (drop_credentials_spec a b c x) as (_ & _ & Dt & Dp & _)
    end; cbn zeta in Dt, Dp. rewrite Dt, Dp.
    now destruct (sessions w !! id ≫= socket).
Qed.

Lemma only_updates_notify_witness :
  posts (step true 401 403 (op_logout false true "u1") connected_world)
  = posts connected_world
  /\ timers (step true 401 403 (op_logout false true "u1") connected_world)
     = timers connected_world.
Proof.
  apply (only_updates_notify true 401 403 (op_logout false true "u1")
           connected_world).
  discriminate.
Defined.

(** [disconnectSession] for a user with a live handle: the client is ended;
    when [end()] returns the entry leaves the registry and the answer is
    ['Disconnected'], when it raises the error is passed on and the entry
    stays.  Either way the stored credentials and the session directories
    are as before. *)
Theorem disconnectSession_active (end_raises : bool) (id : string)
    (s : session) (k : nat) (w : world) :
  sessions w !! id = Some s -> socket s = Some k ->
  let '(w', r) := disconnectSession end_raises id w in
  clients w' = alter (close_client by_end) k (clients w)
  /\ store w' = store w /\ dirs w' = dirs w
  /\ (if end_raises
      then r = Throw client_error /\ sessions w' = sessions w
      else r = Ok disconnected_ok /\ sessions w' = delete id (sessions w)).
Proof.
  intros Hs Hk. unfold disconnectSession. rewrite Hs. cbn. rewrite Hk.
  now destruct end_raises.
Qed.

Lemma disconnectSession_active_witness :
  let '(w', r) := disconnectSession false "u1" connected_world in
  clients w' = alter (close_client by_end) 0%nat (clients connected_world)
  /\ store w' = store connected_world /\ dirs w' = dirs connected_world
  /\ r = Ok disconnected_ok
  /\ sessions w' = delete "u1" (sessions connected_world).
Proof.
  apply (disconnectSession_active false "u1" connected_session 0%nat
           connected_world); reflexivity.
Defined.

(** A soft disconnect keeps the credentials: after [disconnectSession],
    whatever its outcome, the next [startSession] of the user finds the
    auth state it would have found before. *)
Theorem disconnectSession_keeps_credentials (end_raises get_ok : bool)
    (id : string) (w : world) :
  db_auth get_ok id (disconnectSession end_raises id w).1 = db_auth get_ok id w
  /\ (file_auth id (disconnectSession end_raises id w).1).2
     = (file_auth id w).2.
Proof.
  unfold disconnectSession.
  destruct (sessions w !! id ≫= socket); [|now split].
  destruct end_raises; (split; [reflexivity|]); unfold file_auth; cbn;
    now destruct (dirs w !! id).
Qed.

End TraceFacts.

(** ** Restoring sessions and listing them *)

Section RestoreFacts.
Import Codec Sessions Trace Restore Examples.

Lemma db_auth_store (get_ok : bool) (id : string) (a b : world) :
  store a = store b -> db_auth get_ok id a = db_auth get_ok id b.
Proof. intros E. unfold db_auth. now rewrite E. Qed.

Lemma startSession_fresh (useDBAuth get_ok : bool) (id : string) (w : world) :
  sessions w !! id = None ->
  let w' := (startSession true get_ok id w).1 in
  clients w' = (clients w ++ [fresh_client id (db_auth get_ok id w)])%list
  /\ sessions w' = <[id := fresh_session (length (clients w))]> (sessions w)
  /\ store w' = store w.
Proof.
  intros H w'. subst w'. rewrite (startSession_absent true get_ok id w H).
  cbn [fst].
  destruct (startSession_resume_spec true get_ok id (ensureSessionsDir w))
    as (Rc & Rs & Rst & _).
  repeat split; assumption.
Qed.

(** At startup, with no listed session in the registry yet: restoring
    makes one client for each listed session, in the order of the list,
    each for its session and with the auth state read from the store;
    each listed session is registered as [connecting] with the handle of
    its client; the other entries and the store are as before. *)
Theorem restoreSessions_startup (restorable : list (string * bool)) (w : world) :
  NoDup restorable.*1 ->
  (forall id, id ∈ restorable.*1 -> sessions w !! id = None) ->
  let w' := restoreSessions true (Some restorable) w in
  clients w'
  = (clients w
     ++ map (fun s => fresh_client s.1 (db_auth s.2 s.1 w)) restorable)%list
  /\ (forall i id ok, restorable !! i = Some (id, ok) ->
        sessions w' !! id = Some (fresh_session (length (clients w) + i)))
  /\ (forall id, id ∉ restorable.*1 -> sessions w' !! id = sessions w !! id)
  /\ store w' = store w.
Proof.
  unfold restoreSessions. revert w.
  induction restorable as [|[id0 ok0] r IH]; intros w Hnd Hfree.
  - cbn. rewrite app_nil_r. repeat split; try reflexivity.
    intros i id ok Hl. now rewrite lookup_nil in Hl.
  - cbn [foldl fst snd fmap list_fmap] in *.
    apply NoDup_cons in Hnd as [Hnotin Hnd].
    destruct (startSession_fresh true ok0 id0 w) as (Sc & Ss & Sst).
    { apply Hfree. now left. }
    set (w1 := (startSession true ok0 id0 w).1) in *.
    destruct (IH w1 Hnd) as (Ic & Is & Io & Ist).
    { intros id Hin. rewrite Ss, lookup_insert_ne.
      - apply Hfree. now right.
      - intros ->. now apply Hnotin. }
    cbn zeta in *. repeat split.
    + rewrite Ic, Sc, <- app_assoc. cbn [app map fst snd]. do 2 f_equal.
      apply map_ext. intros s. f_equal. now apply db_auth_store.
    + intros [|i] id ok Hl; cbn in Hl.
      * injection Hl as -> ->. rewrite (Io id Hnotin), Ss, lookup_insert_eq.
        now rewrite Nat.add_0_r.
      * rewrite (Is i id ok Hl), Sc, length_app. cbn. do 2 f_equal. lia.
    + intros id Hid. apply not_elem_of_cons in Hid as [Hne Hid].
      rewrite (Io id Hid), Ss. now rewrite lookup_insert_ne by congruence.
    + congruence.
Qed.

Lemma restoreSessions_startup_witness :
  let w' := restoreSessions true (Some restorable_example) startup_world in
  clients w'
  = (clients startup_world
     ++ map (fun s => fresh_client s.1 (db_auth s.2 s.1 startup_world))
          restorable_example)%list
  /\ (forall i id ok, restorable_example !! i = Some (id, ok) ->
        sessions w' !! id
        = Some (fresh_session (length (clients startup_world) + i)))
  /\ (forall id, id ∉ restorable_example.*1 ->
        sessions w' !! id = sessions startup_world !! id)
  /\ store w' = store startup_world.
Proof.
  apply (restoreSessions_startup restorable_example startup_world).
  - cbn. apply NoDup_cons. split; [|apply NoDup_singleton].
    intros H. apply list_elem_of_singleton in H. discriminate.
  - intros id _. apply lookup_empty.
Defined.

(** Saved credentials reach the next client: once the body that
    [saveCreds] sends for a non-empty credential object, on which the codec
    is faithful, is stored for a user, a [startSession] of that user from
    an empty entry makes its client with exactly that object. *)
Theorem saved_credentials_restored (st : DBAuthState.state)
    (props : list (string * value)) (body : value) (id : string) (w : world) :
  DBAuthState.credsCache st = Some (VObj props) ->
  props <> [] ->
  faithful (VObj props) = true ->
  DBAuthState.saveCreds st = Some body ->
  sessions w !! id = None ->
  let saved := with_store (Backend.save_creds (store w) id body) w in
  clients (startSession true true id saved).1
  = (clients w ++ [fresh_client id (Some (VObj props))])%list.
Proof.
  intros Hc Hne Hf Hsave Hs saved.
  destruct (startSession_fresh true true id saved Hs) as (Sc & _).
  cbn zeta in Sc. rewrite Sc. do 3 f_equal.
  destruct (serializeData_faithful_object props Hf) as (props' & Es & Hlen & Ed).
  unfold DBAuthState.saveCreds in Hsave. rewrite Hc in Hsave. cbn in Hsave.
  cbn in Es. rewrite Es in Hsave. injection Hsave as <-.
  subst saved. unfold db_auth, Backend.load, Backend.save_creds.
  cbn [store with_store].
  rewrite lookup_insert_eq. cbn [Backend.creds Backend.keys].
  destruct props' as [|p r]; [destruct props; [congruence|discriminate]|].
  unfold DBAuthState.loadAuth. cbn -[deserializeData]. rewrite Ed. reflexivity.
Qed.

Lemma saved_credentials_restored_witness :
  clients
    (startSession true true "u7"
       (with_store
          (Backend.save_creds (store startup_world) "u7"
             (VObj [("noiseKey", tagged (VStr "AQI=")); ("registrationId", VNum 77)]))
          startup_world)).1
  = (clients startup_world
     ++ [fresh_client "u7"
           (Some (VObj [("noiseKey", VBuffer ["001"%byte; "002"%byte]);
                        ("registrationId", VNum 77)]))])%list.
Proof.
  apply (saved_credentials_restored
           {| DBAuthState.keysCache := ∅;
              DBAuthState.credsCache :=
                Some (VObj [("noiseKey", VBuffer ["001"%byte; "002"%byte]);
                            ("registrationId", VNum 77)]);
              DBAuthState.pendingKeyUpdates := ∅;
              DBAuthState.keyUpdateTimeout := None |}
           [("noiseKey", VBuffer ["001"%byte; "002"%byte]);
            ("registrationId", VNum 77)]
           (VObj [("noiseKey", tagged (VStr "AQI=")); ("registrationId", VNum 77)])
           "u7" startup_world);
    [reflexivity|discriminate|reflexivity|reflexivity|reflexivity].
Defined.

Lemma startSession_registers (useDBAuth get_ok : bool) (id : string)
    (w : world) :
  exists s,
    sessions (startSession useDBAuth get_ok id w).1 !! id = Some s
    /\ (status s = Status.connected \/ status s = Status.qr
        \/ status s = Status.connecting).
Proof.
  assert (forall w0, exists s,
            sessions (startSession_resume useDBAuth get_ok id w0) !! id = Some s
            /\ (status s = Status.connected \/ status s = Status.qr
                \/ status s = Status.connecting)) as Hres.
  { intros w0.
    destruct (startSession_resume_spec useDBAuth get_ok id w0) as (_ & Rs & _).
    eexists. rewrite Rs, lookup_insert_eq. split; [reflexivity|]. cbn. tauto. }
  unfold startSession, startSession_enter. cbn [sessions ensureSessionsDir].
  destruct (sessions w !! id) as [s|] eqn:Es; [|apply Hres].
  destruct (status s) eqn:Est;
    try (destruct (nonempty (qrBase64 s));
         [cbn; exists s; split; [exact Es|tauto]|]);
    try (cbn; exists s; split; [exact Es|tauto]);
    destruct (socket s); apply Hres.
Qed.

Lemma restore_fold (useDBAuth : bool) (restorable : list (string * bool))
    (w : world) :
  well_formed w ->
  let w' := foldl (fun w session =>
                     (startSession useDBAuth session.2 session.1 w).1)
              w restorable in
  well_formed w'
  /\ (forall id, id ∉ restorable.*1 -> sessions w' !! id = sessions w !! id)
  /\ (forall id, id ∈ restorable.*1 ->
        exists s, sessions w' !! id = Some s
                  /\ (status s = Status.connected \/ status s = Status.qr
                      \/ status s = Status.connecting)).
Proof.
  revert w. induction restorable as [|[id0 ok0] r IH]; intros w Hw; cbn zeta.
  - split; [exact Hw|]. split; [reflexivity|].
    intros id Hin. now apply elem_of_nil in Hin.
  - cbn [foldl fst snd fmap list_fmap].
    pose proof (well_formed_start useDBAuth ok0 id0 w Hw) as Hw1.
    destruct (others_kept_start useDBAuth ok0 id0 w Hw) as [Hk _].
    set (w1 := (startSession useDBAuth ok0 id0 w).1) in *.
    destruct (IH w1 Hw1) as (Hwf & Ho & Hin). cbn zeta in *.
    split; [exact Hwf|]. split.
    + intros id Hid. apply not_elem_of_cons in Hid as [Hne Hid].
      rewrite (Ho id Hid). exact (Hk id Hne).
    + intros id Hid. destruct (decide (id ∈ r.*1)) as [Hr|Hr];
        [now apply Hin|].
      apply elem_of_cons in Hid as [->|Hid]; [|contradiction].
      rewrite (Ho id0 Hr). apply startSession_registers.
Qed.

(** Whatever has happened before, after [restoreSessions] every session
    the backend listed is in the registry, connected, showing its pairing
    code or connecting; sessions that are not listed are left as they
    were. *)
Theorem restoreSessions_registers (loggedOut forbidden : Z) (ops : list op)
    (restorable : list (string * bool)) (i : nat) (id : string) (ok : bool) :
  restorable !! i = Some (id, ok) ->
  let w := steps true loggedOut forbidden ops empty_world in
  let w' := restoreSessions true (Some restorable) w in
  (exists s, sessions w' !! id = Some s
             /\ (status s = Status.connected \/ status s = Status.qr
                 \/ status s = Status.connecting))
  /\ (forall other, other ∉ restorable.*1 ->
        sessions w' !! other = sessions w !! other).
Proof.
  intros Hl w w'.
  destruct (restore_fold true restorable w
              (well_formed_steps true loggedOut forbidden ops empty_world
                 well_formed_empty)) as (_ & Ho & Hin).
  split; [|exact Ho]. apply Hin.
  apply list_elem_of_fmap. exists (id, ok). split; [reflexivity|].
  now apply list_elem_of_lookup_2 with i.
Qed.

Lemma restoreSessions_registers_witness :
  let w := steps true 401 403 ops_example empty_world in
  let w' := restoreSessions true (Some restorable_example) w in
  (exists s, sessions w' !! "u1" = Some s
             /\ (status s = Status.connected \/ status s = Status.qr
                 \/ status s = Status.connecting))
  /\ (forall other, other ∉ restorable_example.*1 ->
        sessions w' !! other = sessions w !! other).
Proof.
  apply (restoreSessions_registers 401 403 ops_example restorable_example
           0%nat "u1" true).
  reflexivity.
Defined.

Lemma getAllSessions_own (w : world) (id : string) :
  own (getAllSessions w) !! id
  = if String.eqb id "__proto__" then None else summary_of <$> sessions w !! id.
Proof.
  unfold getAllSessions.
  apply (map_fold_weak_ind
           (fun (r : listing) (m : gmap string session) =>
              own r !! id
              = if String.eqb id "__proto__" then None else summary_of <$> m !! id)).
  - cbn. rewrite !lookup_empty. now destruct (String.eqb id "__proto__").
  - intros i s m r Hi IH. unfold assign.
    destruct (String.eqb_spec i "__proto__") as [->|Hi'].
    + cbn [own]. rewrite IH.
      destruct (String.eqb_spec id "__proto__") as [->|Hid]; [reflexivity|].
      now rewrite lookup_insert_ne by congruence.
    + cbn [own]. destruct (decide (i = id)) as [->|Hne].
      * rewrite !lookup_insert_eq.
        now destruct (String.eqb_spec id "__proto__").
      * rewrite !lookup_insert_ne by exact Hne. exact IH.
Qed.

(** The listing against the status, whatever has happened before.  A user
    is listed exactly when its status is not [not_started] and its id is
    not [__proto__]: the assignment to that name sets the prototype of the
    result, so a session registered under it is left out of the listing.
    A listed user has the status, the connected flag and the phone number
    that [getSessionStatus] reports. *)
Theorem getAllSessions_agrees (useDBAuth : bool) (loggedOut forbidden : Z)
    (ops : list op) (id : string) :
  let w := steps useDBAuth loggedOut forbidden ops empty_world in
  (own (getAllSessions w) !! id = None
   <-> id = "__proto__"
       \/ r_status (getSessionStatus id w) = Status.not_started)
  /\ (forall e, own (getAllSessions w) !! id = Some e ->
        s_status e = r_status (getSessionStatus id w)
        /\ s_connected e = r_connected (getSessionStatus id w)
        /\ s_phoneNumber e = r_phoneNumber (getSessionStatus id w)).
Proof.
  intros w.
  pose proof (well_formed_steps useDBAuth loggedOut forbidden ops empty_world
                well_formed_empty id) as Hw. fold w in Hw.
  rewrite getAllSessions_own. unfold getSessionStatus.
  destruct (String.eqb_spec id "__proto__") as [Hid|Hid].
  - split; [|discriminate]. split; [now left|reflexivity].
  - destruct (sessions w !! id) as [s|]; cbn.
    + split.
      * split; [discriminate|]. intros [E|E]; [contradiction|].
        destruct (Hw s eq_refl) as [_ Hsh].
        unfold shape_ok in Hsh. now rewrite E in Hsh.
      * intros e [= <-]. now repeat split.
    + split; [split; [now right|reflexivity]|]. discriminate.
Qed.

(** A session that is registered under [__proto__] has a status and is
    not listed. *)
Example proto_session_not_listed :
  let w := steps true 401 403 [op_start true "__proto__"; op_start true "u1"]
             empty_world in
  r_status (getSessionStatus "__proto__" w) = Status.connecting
  /\ own (getAllSessions w) !! "__proto__" = None
  /\ is_Some (own (getAllSessions w) !! "u1")
  /\ is_Some (proto (getAllSessions w)).
Proof.
  cbn zeta. rewrite !getAllSessions_own. repeat split; try reflexivity.
  - cbn. now eexists.
  - vm_compute. now eexists.
Qed.

End RestoreFacts.

(** ** Incoming messages *)

Section RelayFacts.
Import Sessions Relay Examples.

Lemma append_cons (c : ascii) (r x : string) :
  String c r +:+ x = String c (r +:+ x).
Proof. reflexivity. Qed.

Lemma prefix_at (p s : string) :
  includes_at s = false -> String.prefix (String "@" p) s = false.
Proof.
  destruct s as [|c r]; [reflexivity|]. cbn [includes_at String.prefix].
  intros H. apply orb_false_iff in H as [Hc _].
  destruct (ascii_dec "@" c) as [<-|]; [discriminate|reflexivity].
Qed.

Lemma replace_first_cons (pat r : string) (c : ascii) :
  String.prefix pat (String c r) = false ->
  replace_first pat (String c r) = String c (replace_first pat r).
Proof.
  intros H.
  change (replace_first pat (String c r))
    with (if String.prefix pat (String c r)
          then drop_chars (String.length pat) (String c r)
          else String c (replace_first pat r)).
  now rewrite H.
Qed.

Lemma prefix_other (p r : string) (c : ascii) :
  Ascii.eqb c "@" = false -> String.prefix (String "@" p) (String c r) = false.
Proof.
  intros Hc. cbn [String.prefix].
  destruct (ascii_dec "@" c) as [<-|]; [discriminate|reflexivity].
Qed.

Lemma replace_first_no_at (p s : string) :
  includes_at s = false -> replace_first (String "@" p) s = s.
Proof.
  induction s as [|c r IH]; intros H; [reflexivity|].
  rewrite (replace_first_cons _ _ _ (prefix_at p _ H)).
  cbn [includes_at] in H. apply orb_false_iff in H as [_ Hr].
  now rewrite IH.
Qed.

Lemma prefix_refl (s : string) : String.prefix s s = true.
Proof.
  induction s as [|c r IH]; [reflexivity|]. cbn.
  now destruct (ascii_dec c c).
Qed.

Lemma drop_chars_all (s : string) : drop_chars (String.length s) s = "".
Proof. induction s as [|c r IH]; [reflexivity|exact IH]. Qed.

Lemma replace_first_self (s : string) : replace_first s s = "".
Proof.
  destruct s as [|c r]; [reflexivity|].
  cbn [replace_first]. rewrite prefix_refl. apply drop_chars_all.
Qed.

Lemma replace_first_suffix (p s : string) :
  includes_at s = false -> replace_first (String "@" p) (s +:+ String "@" p) = s.
Proof.
  induction s as [|c r IH]; intros H.
  - apply replace_first_self.
  - cbn [includes_at] in H. apply orb_false_iff in H as [Hc Hr].
    rewrite append_cons.
    rewrite (replace_first_cons _ _ _ (prefix_other p _ c Hc)).
    now rewrite IH.
Qed.

Lemma replace_first_other (p tail s : string) :
  includes_at s = false -> includes_at tail = false ->
  String.prefix (String "@" p) (String "@" tail) = false ->
  replace_first (String "@" p) (s +:+ String "@" tail) = s +:+ String "@" tail.
Proof.
  intros Hs Ht Hp. induction s as [|c r IH].
  - change ("" +:+ String "@" tail) with (String "@" tail).
    rewrite (replace_first_cons _ _ _ Hp).
    now rewrite (replace_first_no_at p tail Ht).
  - cbn [includes_at] in Hs. apply orb_false_iff in Hs as [Hc Hr].
    rewrite append_cons.
    rewrite (replace_first_cons _ _ _ (prefix_other p _ c Hc)).
    now rewrite (IH Hr).
Qed.

(** The number under which a message is reported is the number it can be
    answered at: for a destination without [@], the sender number of the
    address [sendMessage] derives from it is the destination again; and
    the suffixes of group and linked-device addresses are stripped as
    well. *)
Theorem senderNumber_jid_of (to : string) :
  includes_at to = false ->
  senderNumber (jid_of to) = to
  /\ senderNumber (to +:+ "@g.us") = to
  /\ senderNumber (to +:+ "@lid") = to.
Proof.
  intros H. unfold senderNumber, jid_of. rewrite H. repeat split.
  - rewrite (replace_first_suffix "s.whatsapp.net" to H).
    now rewrite (replace_first_no_at "g.us" to H), (replace_first_no_at "lid" to H).
  - rewrite (replace_first_other "s.whatsapp.net" "g.us" to H eq_refl eq_refl).
    rewrite (replace_first_suffix "g.us" to H).
    now rewrite (replace_first_no_at "lid" to H).
  - rewrite (replace_first_other "s.whatsapp.net" "lid" to H eq_refl eq_refl).
    rewrite (replace_first_other "g.us" "lid" to H eq_refl eq_refl).
    now rewrite (replace_first_suffix "lid" to H).
Qed.

Lemma senderNumber_jid_of_witness :
  senderNumber (jid_of "919812345678") = "919812345678"
  /\ senderNumber ("919812345678" +:+ "@g.us") = "919812345678"
  /\ senderNumber ("919812345678" +:+ "@lid") = "919812345678".
Proof. apply (senderNumber_jid_of "919812345678"). reflexivity. Defined.

Lemma or_else_cases (a : option string) (b : string) :
  (or_else a b <> "" /\ a = Some (or_else a b)) \/ or_else a b = b.
Proof.
  unfold or_else, nonempty. destruct a as [s|]; [|now right].
  destruct (String.eqb_spec s ""); cbn; [now right|now left].
Qed.

Lemma messageText_field (c : content) :
  messageText c <> "" ->
  Some (messageText c)
  ∈ [conversation c; extended_text c; image_caption c; video_caption c].
Proof.
  unfold messageText. intros Hne.
  destruct (or_else_cases (conversation c)
              (or_else (extended_text c)
                 (or_else (image_caption c) (or_else (video_caption c) ""))))
    as [[_ E]|E]; [rewrite <- E; set_solver|rewrite E in Hne |- *].
  destruct (or_else_cases (extended_text c)
              (or_else (image_caption c) (or_else (video_caption c) "")))
    as [[_ E2]|E2]; [rewrite <- E2; set_solver|rewrite E2 in Hne |- *].
  destruct (or_else_cases (image_caption c) (or_else (video_caption c) ""))
    as [[_ E3]|E3]; [rewrite <- E3; set_solver|rewrite E3 in Hne |- *].
  destruct (or_else_cases (video_caption c) "")
    as [[_ E4]|E4]; [rewrite <- E4; set_solver|now rewrite E4 in Hne].
Qed.

(** What the handler forwards.  Nothing of a history sync.  Otherwise a
    body is forwarded exactly when it comes from a message of the event
    that is not the user's own and has content with a text: the body names
    the user of the client, carries the address of the message ([''] when
    it has none), the sender number derived from that address, the push
    name or else that number, the id and the timestamp of the message, and
    as text the [messageText] of its content, which is one of the four
    text fields. *)
Theorem messages_upsert_forwards (userId type : string) (messages : list msg)
    (f : forward) :
  f ∈ messages_upsert userId type messages
  <-> type <> "history_sync"
      /\ exists m c,
           m ∈ messages /\ fromMe m = false /\ m_message m = Some c
           /\ messageText c <> ""
           /\ Some (messageText c)
              ∈ [conversation c; extended_text c; image_caption c;
                 video_caption c]
           /\ f = {| f_userId := userId;
                     from := senderNumber (or_else (remoteJid m) "");
                     fromName := or_else (pushName m)
                                   (senderNumber (or_else (remoteJid m) ""));
                     fromJid := or_else (remoteJid m) "";
                     f_message := messageText c;
                     messageId := key_id m;
                     timestamp := messageTimestamp m |}.
Proof.
  unfold messages_upsert. destruct (String.eqb_spec type "history_sync") as [|Hty].
  - split; [intros H; now apply elem_of_nil in H|now intros [? _]].
  - rewrite list_elem_of_omap. split.
    + intros (m & Hm & Hr). split; [exact Hty|].
      unfold relay_one in Hr. destruct (fromMe m) eqn:Eme; [discriminate|].
      destruct (m_message m) as [c|] eqn:Ec; [|discriminate].
      destruct (String.eqb_spec (messageText c) "") as [|Hne]; [discriminate|].
      injection Hr as <-. exists m, c. repeat split; try assumption.
      now apply messageText_field.
    + intros (_ & m & c & Hm & Hme & Hc & Hne & _ & ->).
      exists m. split; [exact Hm|]. unfold relay_one. rewrite Hme, Hc.
      now destruct (String.eqb_spec (messageText c) "").
Qed.

(** The example event: of its four messages the first and the last are
    forwarded. *)
Example upsert_example_forwards :
  map messageId (messages_upsert "u1" "notify" upsert_example)
  = [Some "M1"; Some "M4"]
  /\ messages_upsert "u1" "notify" upsert_example !! 1%nat
     = Some forwarded_example
  /\ messages_upsert "u1" "history_sync" upsert_example = [].
Proof. repeat split; reflexivity. Qed.

End RelayFacts.

(** ** The routes *)

Section ApiFacts.
Import Sessions Restore Api Examples.

Lemma respond_code {A : Type} (ok : A -> body) (r : world * result A) :
  (respond ok r).1 = r.1
  /\ (((respond ok r).2.1 = 200%Z /\ exists a, r.2 = Ok a)
      \/ ((respond ok r).2.1 = 500%Z /\ exists e, r.2 = Throw e)).
Proof.
  destruct r as [w [a|e]]; cbn; (split; [reflexivity|]);
    [left|right]; split; try reflexivity; now eexists.
Qed.

Lemma authenticate_accepts (apiKey : string) (req : request)
    (next : unit -> answer) (w : world) :
  x_api_key req = Some apiKey -> authenticate apiKey req next w = next ().
Proof. intros H. unfold authenticate. now rewrite bool_decide_eq_true_2. Qed.

Lemma authenticate_rejects (apiKey : string) (req : request)
    (next : unit -> answer) (w : world) :
  x_api_key req <> Some apiKey ->
  authenticate apiKey req next w = (w, (401%Z, b_unauthorized)).
Proof. intros H. unfold authenticate. now rewrite bool_decide_eq_false_2. Qed.

Ltac route_done :=
  repeat split; try tauto; try discriminate; try (intros [[=]|[=]]).

(** The status codes of the service.  Every answer is 200, 400, 401 or
    500.  It is 401 exactly when the request is not for [/health] and does
    not carry the API key; it is 400 only for a send without a
    destination or without a text; and a request that is answered 400 or
    401 has changed nothing. *)
Theorem handle_rejections (apiKey : string) (useDBAuth : bool) (e : env)
    (req : request) (w : world) :
  let w' := (handle apiKey useDBAuth e req w).1 in
  let code := (handle apiKey useDBAuth e req w).2.1 in
  (code = 200 \/ code = 400 \/ code = 401 \/ code = 500)%Z
  /\ (code = 401%Z <-> x_api_key req <> Some apiKey /\ target req <> health)
  /\ (code = 400%Z ->
      exists id to message,
        target req = send id to message
        /\ (nonempty to = false \/ nonempty message = false))
  /\ (code = 400%Z \/ code = 401%Z -> w' = w).
Proof.
  destruct req as [key r]. unfold handle. cbn [target].
  destruct (decide (key = Some apiKey)) as [Hk|Hk].
  - destruct r as [| |id|id|id to m|id|id|id];
      rewrite ?authenticate_accepts by exact Hk; cbn zeta.
    + cbn. route_done.
    + cbn. route_done.
    + destruct (startSession _ _ _ _) as [w1 a]. cbn.
      route_done.
    + destruct (r_status _); cbn; route_done.
    + destruct (nonempty to) eqn:Eto, (nonempty m) eqn:Em; cbn [negb orb];
        try (cbn; repeat split; try tauto; try discriminate;
             intros _; exists id, to, m; split; [reflexivity|tauto]).
      destruct (respond_code (fun _ => b_sent)
                  (sendMessage (send_ok e) id (default "" to) (default "" m) w))
        as (_ & [[-> _]|[-> _]]);
        route_done.
    + destruct (respond_code b_done (disconnectSession (end_raises e) id w))
        as (_ & [[-> _]|[-> _]]);
        route_done.
    + destruct (respond_code b_done
                  (logoutSession useDBAuth (logout_raises e) (delete_ok e) id w))
        as (_ & [[-> _]|[-> _]]);
        route_done.
    + destruct (resetSession _ _ _ _ _) as [w1 a]. cbn.
      route_done.
  - destruct r as [| |id|id|id to m|id|id|id];
      rewrite ?authenticate_rejects by exact Hk; cbn;
      repeat split; try tauto; try discriminate;
      try (intros [_ H]; now destruct H);
      try (intros [[=]|[=]]).
Qed.

(** A send that is answered 200 has reached the protocol client of a
    connected session: with the API key, the answer to a send is 200
    exactly when destination and text are there, the session of the user
    is connected and the [sendMessage] of its client returned; the message
    then went to the address derived from the destination. *)
Theorem send_route (apiKey : string) (useDBAuth : bool) (e : env)
    (id to text : string) (w : world) :
  let req := {| x_api_key := Some apiKey;
                target := send id (Some to) (Some text) |} in
  let w' := (handle apiKey useDBAuth e req w).1 in
  let code := (handle apiKey useDBAuth e req w).2.1 in
  (code = 200%Z <->
     to <> "" /\ text <> "" /\ send_ok e = true
     /\ exists s k, sessions w !! id = Some s
                    /\ status s = Status.connected /\ socket s = Some k)
  /\ (code = 200%Z ->
      exists s k, sessions w !! id = Some s /\ socket s = Some k
                  /\ clients w'
                     = alter (record_send (jid_of to) text) k (clients w)).
Proof.
  cbn zeta. unfold handle. cbn [target].
  rewrite authenticate_accepts by reflexivity. cbn [nonempty default].
  destruct (String.eqb_spec to "") as [->|Hto]; cbn [negb orb].
  { cbn. split; [split|]; [discriminate| |discriminate]. now intros [? _]. }
  destruct (String.eqb_spec text "") as [->|Htx]; cbn [negb orb].
  { cbn. split; [split|]; [discriminate| |discriminate]. now intros (_ & ? & _). }
  unfold sendMessage.
  destruct (sessions w !! id) as [s|] eqn:Es.
  2:{ cbn. split; [split|]; [discriminate| |discriminate].
      now intros (_ & _ & _ & s & k & [=] & _). }
  destruct (status s) eqn:Est;
    try (cbn; split; [split|]; [discriminate| |discriminate];
         intros (_ & _ & _ & s' & k & [= <-] & Hst & _); congruence).
  destruct (socket s) as [k|] eqn:Ek.
  2:{ cbn. split; [split|]; [discriminate| |discriminate].
      intros (_ & _ & _ & s' & k & [= <-] & _ & Hk). congruence. }
  destruct (send_ok e); cbn.
  - split; [split|].
    + intros _. repeat split; try assumption. now exists s, k.
    + reflexivity.
    + intros _. now exists s, k.
  - split; [split|]; [discriminate| |discriminate]. now intros (_ & _ & [=] & _).
Qed.

End ApiFacts.
